(** * Kinematics core of the 3-DOF robotic arm (class [IKSolver])

    A shallow embedding of the [IKSolver] class (its constructor and
    the methods [solve], [forward] and [isReachable]), of the arm that
    [SceneManager] poses with the solved angles, and the properties the
    specification states about them.

    Numbers.  A JavaScript number is modelled by the real number it
    denotes ([R] of the Standard Library): arithmetic is exact, there is
    no rounding and no overflow, and the real [0] stands for [+0].  The
    three primitives that leave the finite numbers on part of their
    domain are partial: [Math.sqrt] of a negative number and [Math.acos]
    outside [[-1, 1]] are [NaN] in JavaScript, a division by zero is
    [NaN] or an infinity; here they return [None], and [None] is
    absorbing.  A result [Some r] therefore says that the computation
    stayed inside the finite numbers and produced [r].

    Module [SignedZero] further down keeps the sign of a zero where
    [solve] can tell the two zeros apart, in its base angle.  Module
    [F64] transcribes the arithmetic prefix of [solve] and
    [HandTracker.mapToWorldSpace] over binary64 numbers (the primitive
    floats), where overflow and [NaN] are visible. *)

From Stdlib Require Import Reals Lra Bool List.
From Stdlib Require Floats.
From Stdlib Require String.
From Stdlib Require DecimalString.
Import ListNotations.

Local Open Scope R_scope.

(* ================================================================= *)
(** ** JavaScript operators on numbers *)

Module JS.

(** [a > b], [a < b], [a >= b], [a <= b] *)
Definition gt (a b : R) : bool := if Rlt_dec b a then true else false.
Definition lt (a b : R) : bool := if Rlt_dec a b then true else false.
Definition ge (a b : R) : bool := if Rle_dec b a then true else false.
Definition le (a b : R) : bool := if Rle_dec a b then true else false.

(** [a / b]: not a finite number when [b] is zero. *)
Definition div (a b : R) : option R :=
  if Req_dec_T b 0 then None else Some (a / b).

(** [v || d] on an optional numeric property: [undefined] and [0] are
    falsy, every other number is truthy. *)
Definition or (v : option R) (d : R) : R :=
  match v with
  | None => d
  | Some n => if Req_dec_T n 0 then d else n
  end.

(** Sequencing of a partial numeric step. *)
Definition bind {A B : Type} (c : option A) (k : A -> option B) : option B :=
  match c with
  | Some a => k a
  | None => None
  end.

End JS.

Declare Scope js_scope.
Delimit Scope js_scope with js.
Notation "a >? b" := (JS.gt a b) (at level 70, no associativity) : js_scope.
Notation "a <? b" := (JS.lt a b) (at level 70, no associativity) : js_scope.
Notation "a >=? b" := (JS.ge a b) (at level 70, no associativity) : js_scope.
Notation "a <=? b" := (JS.le a b) (at level 70, no associativity) : js_scope.
Notation "a /? b" := (JS.div a b) (at level 40, left associativity) : js_scope.
Notation "v '||' d" := (JS.or v d) (at level 50, left associativity) : js_scope.
Notation "'const' v <- c ;; k" := (JS.bind c (fun v => k))
  (at level 10, v name, c at level 100, k at level 200) : js_scope.
Local Open Scope js_scope.

(** The [Math] object.  [atan2] follows the case table of ECMAScript's
    [Math.atan2 (y, x)] on finite arguments, every zero being [+0]. *)
Module Math.

Definition PI : R := Rtrigo1.PI.

Definition abs (a : R) : R := Rabs a.
Definition max (a b : R) : R := Rmax a b.
Definition min (a b : R) : R := Rmin a b.
Definition sin (a : R) : R := Rtrigo_def.sin a.
Definition cos (a : R) : R := Rtrigo_def.cos a.

Definition sqrt (a : R) : option R :=
  if Rle_dec 0 a then Some (R_sqrt.sqrt a) else None.

Definition acos (a : R) : option R :=
  if Rle_dec (-1) a then
    if Rle_dec a 1 then Some (Ratan.acos a) else None
  else None.

Definition atan2 (y x : R) : R :=
  if Rlt_dec 0 x then atan (y / x)
  else if Rlt_dec x 0 then
    if Rle_dec 0 y then atan (y / x) + Rtrigo1.PI else atan (y / x) - Rtrigo1.PI
  else if Rlt_dec 0 y then Rtrigo1.PI / 2
  else if Rlt_dec y 0 then - (Rtrigo1.PI / 2)
  else 0.

End Math.

(* ================================================================= *)
(** ** Data model *)

(** The [config] object of the constructor: each property may be absent. *)
Module Config.
Record t : Type := mk {
  baseHeight : option R;
  lowerArmLength : option R;
  upperArmLength : option R
}.
(** [{}] *)
Definition empty : t := mk None None None.
End Config.

(** [{x, y, z}] *)
Record Position : Type := mkPosition { x : R; y : R; z : R }.

(** [{base, shoulder, elbow}] *)
Record JointAngles : Type := mkJointAngles {
  base : R;
  shoulder : R;
  elbow : R
}.

(** The object returned by [solve]: the joint angles and two diagnostics.
    It is passed to [forward] as it is, which reads the three angles. *)
Record SolveResult : Type := mkSolveResult {
  angles :> JointAngles;
  reachDistance : R;
  isAtLimit : bool
}.

(* ================================================================= *)
(** ** class IKSolver *)

Module IKSolver.

(** The five instance fields. *)
Record t : Type := mk {
  baseHeight : R;
  lowerArmLength : R;
  upperArmLength : R;
  maxReach : R;
  minReach : R
}.

(** [constructor(config = {})], lines 711-717. *)
Definition constructor (config : option Config.t) : t :=
  let config := match config with Some c => c | None => Config.empty end in
  let baseHeight := Config.baseHeight config || 4 in
  let lowerArmLength := Config.lowerArmLength config || 12 in
  let upperArmLength := Config.upperArmLength config || 10 in
  let maxReach := lowerArmLength + upperArmLength in
  let minReach := Math.abs (lowerArmLength - upperArmLength) in
  mk baseHeight lowerArmLength upperArmLength maxReach minReach.

(** [solve(target)], lines 724-792. *)
Definition solve (this : t) (target : Position) : option SolveResult :=
  let baseAngle := Math.atan2 (x target) (z target) in
  const horizontalDistance <-
    Math.sqrt (x target * x target + z target * z target) ;;
  let verticalDistance := y target - baseHeight this in
  const planarDistance <-
    Math.sqrt (horizontalDistance * horizontalDistance +
               verticalDistance * verticalDistance) ;;
  let reachDistance := planarDistance in
  let reachDistance :=
    if reachDistance >? maxReach this * 0.999
    then maxReach this * 0.999 else reachDistance in
  let reachDistance :=
    if reachDistance <? minReach this + 0.01
    then minReach this + 0.01 else reachDistance in
  const cosElbowAngle <-
    (reachDistance * reachDistance -
     lowerArmLength this * lowerArmLength this -
     upperArmLength this * upperArmLength this)
    /? (-2 * lowerArmLength this * upperArmLength this) ;;
  let clampedCosElbow := Math.max (-1) (Math.min 1 cosElbowAngle) in
  const elbowAngleInternal <- Math.acos clampedCosElbow ;;
  let elbowAngle := Math.PI - elbowAngleInternal in
  let targetAngle := Math.atan2 verticalDistance horizontalDistance in
  const cosShoulderOffset <-
    (lowerArmLength this * lowerArmLength this +
     reachDistance * reachDistance -
     upperArmLength this * upperArmLength this)
    /? (2 * lowerArmLength this * reachDistance) ;;
  const shoulderOffset <-
    Math.acos (Math.max (-1) (Math.min 1 cosShoulderOffset)) ;;
  let shoulderAngle := (Math.PI / 2) - (targetAngle + shoulderOffset) in
  Some {|
    angles := {| base := baseAngle;
                 shoulder := shoulderAngle;
                 elbow := elbowAngle |};
    reachDistance := reachDistance;
    isAtLimit := planarDistance >? maxReach this * 0.999
  |}.

(** [forward(angles)], lines 799-821. *)
Definition forward (this : t) (angles : JointAngles) : Position :=
  let '(base, shoulder, elbow) :=
    (base angles, shoulder angles, elbow angles) in
  let lowerX := lowerArmLength this * Math.sin shoulder in
  let lowerY := lowerArmLength this * Math.cos shoulder in
  let totalAngle := shoulder + elbow - Math.PI in
  let upperX := upperArmLength this * Math.sin totalAngle in
  let upperY := upperArmLength this * Math.cos totalAngle in
  let planarX := lowerX + upperX in
  let planarY := lowerY + upperY + baseHeight this in
  let x := planarX * Math.sin base in
  let z := planarX * Math.cos base in
  let y := planarY in
  {| x := x; y := y; z := z |}.

(** [isReachable(target)], lines 828-834. *)
Definition isReachable (this : t) (target : Position) : option bool :=
  const horizontal <-
    Math.sqrt (x target * x target + z target * z target) ;;
  let vertical := y target - baseHeight this in
  const distance <-
    Math.sqrt (horizontal * horizontal + vertical * vertical) ;;
  Some ((distance >=? minReach this) && (distance <=? maxReach this)).

End IKSolver.

(* ================================================================= *)
(** ** The sign of zero *)

(** The real [0] stands for both zeros of JavaScript, [+0] and [-0].
    [solve] tells them apart in one place, its first line
    [Math.atan2(target.x, target.z)]: every other step reads [x] and
    [z] through [x * x + z * z], which is [+0] or positive, and [y]
    through [y - this.baseHeight], where [baseHeight] is never a zero.
    Module [SignedZero] keeps the sign there: a finite number is [-0]
    or the real number it denotes, [Finite 0] being [+0]. *)
Module SignedZero.

Inductive Number : Type :=
| NegativeZero
| Finite (r : R).

Definition value (n : Number) : R :=
  match n with
  | NegativeZero => 0
  | Finite r => r
  end.

(** [Math.atan2 (y, x)] on finite arguments, after the case table of
    ECMAScript with its rows for [-0]: for [y = +0] the result is [+0]
    when [x] is positive or [+0] and [PI] when [x] is [-0] or negative;
    for [y = -0] it is [-0] when [x] is positive or [+0] and [-PI] when
    [x] is [-0] or negative; for [y > 0] and a zero [x] it is [PI / 2],
    for [y < 0] and a zero [x] it is [-PI / 2]. *)
Definition atan2 (y x : Number) : Number :=
  match y, x with
  | Finite y, Finite x => Finite (Math.atan2 y x)
  | Finite y, NegativeZero =>
      if 0 <? y then Finite (Math.PI / 2)
      else if y <? 0 then Finite (- (Math.PI / 2))
      else Finite Math.PI
  | NegativeZero, Finite x =>
      if 0 <? x then NegativeZero
      else if x <? 0 then Finite (- Math.PI)
      else NegativeZero
  | NegativeZero, NegativeZero => Finite (- Math.PI)
  end.

(** [{x, y, z}] with the sign of each zero. *)
Record Target : Type := mkTarget { x : Number; y : Number; z : Number }.

(** The position a target denotes. *)
Definition position (target : Target) : Position :=
  mkPosition (value (x target)) (value (y target)) (value (z target)).

(** [solve(target)], lines 724-792, with the sign of zero kept in
    [baseAngle]: the [base] of the object returned, and the object as
    [IKSolver.solve] gives it (for its [shoulder], [elbow],
    [reachDistance] and [isAtLimit]). *)
Definition solve (this : IKSolver.t) (target : Target)
  : option (Number * SolveResult) :=
  let baseAngle := atan2 (x target) (z target) in
  const res <- IKSolver.solve this (position target) ;;
  Some (baseAngle, res).

End SignedZero.

(* ================================================================= *)
(** ** The arithmetic of [solve] over binary64 numbers *)

(** The constructor and the part of [solve] that runs before the two
    calls of [Math.acos], with the operators of IEEE 754 binary64
    (ECMAScript's Number type): products overflow to an infinity and
    [Infinity - Infinity], [Infinity / Infinity] are [NaN]. *)
Module F64.
Import PrimFloat.
Local Open Scope float_scope.
#[local] Set Warnings "-inexact-float".

(** [v || d]: [undefined], [+0], [-0] and [NaN] are falsy. *)
Definition or (v : option float) (d : float) : float :=
  match v with
  | None => d
  | Some n => if (eqb n 0 || is_nan n)%bool then d else n
  end.

(** [Math.max], [Math.min]: [NaN] as soon as one argument is [NaN];
    [+0] is larger than [-0]. *)
Definition max (a b : float) : float :=
  if (is_nan a || is_nan b)%bool then nan
  else if ltb a b then b
  else if ltb b a then a
  else if get_sign a then b else a.

Definition min (a b : float) : float :=
  if (is_nan a || is_nan b)%bool then nan
  else if ltb a b then a
  else if ltb b a then b
  else if get_sign a then a else b.

Record Config : Type := mkConfig {
  cfgBaseHeight : option float;
  cfgLowerArmLength : option float;
  cfgUpperArmLength : option float
}.

Record Position : Type := mkPosition { x : float; y : float; z : float }.

Record t : Type := mk {
  baseHeight : float;
  lowerArmLength : float;
  upperArmLength : float;
  maxReach : float;
  minReach : float
}.

(** [constructor(config)] *)
Definition constructor (config : Config) : t :=
  let baseHeight := or (cfgBaseHeight config) 4 in
  let lowerArmLength := or (cfgLowerArmLength config) 12 in
  let upperArmLength := or (cfgUpperArmLength config) 10 in
  let maxReach := lowerArmLength + upperArmLength in
  let minReach := abs (lowerArmLength - upperArmLength) in
  mk baseHeight lowerArmLength upperArmLength maxReach minReach.

(** [solve(target)] up to its calls of [Math.acos]: the argument of
    the first call ([clampedCosElbow]) and the argument of the
    second. *)
Definition solve_acos_arguments (this : t) (target : Position)
  : float * float :=
  let horizontalDistance :=
    sqrt (x target * x target + z target * z target) in
  let verticalDistance := y target - baseHeight this in
  let planarDistance :=
    sqrt (horizontalDistance * horizontalDistance +
          verticalDistance * verticalDistance) in
  let reachDistance := planarDistance in
  let reachDistance :=
    if ltb (maxReach this * 0.999) reachDistance
    then maxReach this * 0.999 else reachDistance in
  let reachDistance :=
    if ltb reachDistance (minReach this + 0.01)
    then minReach this + 0.01 else reachDistance in
  let cosElbowAngle :=
    (reachDistance * reachDistance -
     lowerArmLength this * lowerArmLength this -
     upperArmLength this * upperArmLength this)
    / (-2 * lowerArmLength this * upperArmLength this) in
  let clampedCosElbow := max (-1) (min 1 cosElbowAngle) in
  let cosShoulderOffset :=
    (lowerArmLength this * lowerArmLength this +
     reachDistance * reachDistance -
     upperArmLength this * upperArmLength this)
    / (2 * lowerArmLength this * reachDistance) in
  (clampedCosElbow, max (-1) (min 1 cosShoulderOffset)).

(** A finite number: neither [NaN] nor an infinity. *)
Definition is_finite (a : float) : bool :=
  negb (is_nan a) && negb (is_infinity a).

(** A finite, strictly positive number. *)
Definition is_positive (a : float) : bool := is_finite a && ltb 0 a.

(** A position with three finite coordinates. *)
Definition is_finite_position (p : Position) : bool :=
  is_finite (x p) && is_finite (y p) && is_finite (z p).

(** Link lengths of [1e200]; their squares exceed the largest
    binary64 number. *)
Definition huge_arm : t :=
  constructor (mkConfig None (Some 1e200) (Some 1e200)).

(** The target [(0, 4, 20)]. *)
Definition target_0_4_20 : Position := mkPosition 0 4 20.

(** The default arm, [new IKSolver({})]. *)
Definition default_arm : t := constructor (mkConfig None None None).

(** A number of [[-1, 1]]. *)
Definition is_cosine (a : float) : bool := leb (-1) a && leb a 1.

(** The three products of [mapToWorldSpace(normalized, scale = 1.5)],
    lines 118-124 of hand-tracker.js, before they are clamped. *)
Definition unclamped (normalized : Position) (scale : option float)
  : Position :=
  let scale := match scale with Some s => s | None => 1.5 end in
  let x := (0.5 - x normalized) * 20 * scale in
  let y := (1 - y normalized) * 20 * scale in
  let z := - z normalized * 20 * scale + 10 in
  mkPosition x y z.

(** [static mapToWorldSpace(normalized, scale = 1.5)], lines 110-131 of
    hand-tracker.js. *)
Definition mapToWorldSpace (normalized : Position) (scale : option float)
  : Position :=
  let scale := match scale with Some s => s | None => 1.5 end in
  let x := (0.5 - x normalized) * 20 * scale in
  let y := (1 - y normalized) * 20 * scale in
  let z := - z normalized * 20 * scale + 10 in
  mkPosition (max (-15) (min 15 x))
             (max 2 (min 25 y))
             (max (-5) (min 20 z)).

(** The three sides of the box [[-15, 15] x [2, 25] x [-5, 20]]. *)
Definition in_x_range (v : float) : bool := leb (-15) v && leb v 15.
Definition in_y_range (v : float) : bool := leb 2 v && leb v 25.
Definition in_z_range (v : float) : bool := leb (-5) v && leb v 20.

(** A landmark with [x = 1e308], and the scale [0]: the first product
    overflows to [-Infinity], and [-Infinity * 0] is [NaN]. *)
Definition far_landmark : Position := mkPosition 1e308 0.5 0.
Definition zero_scale : option float := Some 0.

End F64.

(* ================================================================= *)
(** ** Method calls on an instance *)

(** A call of one of the three methods, the value it returns, and the
    instance after the call.  None of the method bodies assigns to a
    field of [this], so the instance is handed on as it was received. *)
Inductive Call : Type :=
| CallSolve (target : Position)
| CallForward (angles : JointAngles)
| CallIsReachable (target : Position).

Inductive Reply : Type :=
| ReplySolve (result : option SolveResult)
| ReplyForward (position : Position)
| ReplyIsReachable (result : option bool).

Definition call (this : IKSolver.t) (c : Call) : Reply * IKSolver.t :=
  match c with
  | CallSolve target => (ReplySolve (IKSolver.solve this target), this)
  | CallForward angles => (ReplyForward (IKSolver.forward this angles), this)
  | CallIsReachable target =>
      (ReplyIsReachable (IKSolver.isReachable this target), this)
  end.

Fixpoint calls (this : IKSolver.t) (cs : list Call) : IKSolver.t :=
  match cs with
  | [] => this
  | c :: cs' => calls (snd (call this c)) cs'
  end.

(* ================================================================= *)
(** ** The arm in the scene (class SceneManager) *)

Module SceneManager.

(** [ARM_CONFIG] of [createRoboticArm] (lines 371-375): the same three
    lengths the application gives the solver. *)
Record ArmConfig : Type := mkArmConfig {
  baseHeight : R;
  lowerArmLength : R;
  upperArmLength : R
}.

Definition ARM_CONFIG : ArmConfig := mkArmConfig 4 12 10.

(** A point of a child object in the frame of its parent, for a child
    with [rotation.x = a], with [rotation.y = a], with [position.y = h]. *)
Definition rotationX (a : R) (p : Position) : Position :=
  {| x := x p;
     y := y p * cos a - z p * sin a;
     z := y p * sin a + z p * cos a |}.

Definition rotationY (a : R) (p : Position) : Position :=
  {| x := x p * cos a + z p * sin a;
     y := y p;
     z := - x p * sin a + z p * cos a |}.

Definition positionY (h : R) (p : Position) : Position :=
  {| x := x p; y := y p + h; z := z p |}.

(** [updateArmAngles(angles)] (lines 673-679) sets
    [shoulder.rotation.y = base],
    [lowerArmPivot.rotation.x = shoulder] and
    [upperArmPivot.rotation.x = elbow].  The end effector sits at
    [position.y = upperArmLength] in [upperArmPivot]; its place in the
    world follows the groups of [createRoboticArm]:
    shoulder group ([position.y = baseHeight]) > lower arm pivot >
    elbow group ([position.y = lowerArmLength]) > upper arm pivot. *)
Definition endEffector (cfg : ArmConfig) (angles : JointAngles) : Position :=
  positionY (baseHeight cfg)
    (rotationY (base angles)
       (rotationX (shoulder angles)
          (positionY (lowerArmLength cfg)
             (rotationX (elbow angles)
                (positionY (upperArmLength cfg) (mkPosition 0 0 0)))))).

(** The part of the scene the two update methods write: the rotations
    of the three joints of [this.robotArm], and [this.targetMarker]. *)
Record RobotArm : Type := mkRobotArm {
  shoulder_rotation_y : R;
  lowerArmPivot_rotation_x : R;
  upperArmPivot_rotation_x : R
}.

Record TargetMarker : Type := mkTargetMarker {
  position : Position;
  rotation_y : R;
  rotation_z : R
}.

Record t : Type := mk {
  robotArm : option RobotArm;
  targetMarker : option TargetMarker
}.

(** After [constructor(container)] (lines 10-23): the arm and the
    marker exist, unrotated, the marker at the origin. *)
Definition constructor : t :=
  mk (Some (mkRobotArm 0 0 0))
     (Some (mkTargetMarker (mkPosition 0 0 0) 0 0)).

(** [updateArmAngles(angles)], lines 673-679. *)
Definition updateArmAngles (this : t) (angles : JointAngles) : t :=
  match robotArm this with
  | None => this
  | Some _ =>
      mk (Some (mkRobotArm (base angles) (shoulder angles) (elbow angles)))
         (targetMarker this)
  end.

(** [updateTargetMarker(position)], lines 681-687. *)
Definition updateTargetMarker (this : t) (position : Position) : t :=
  match targetMarker this with
  | None => this
  | Some marker =>
      mk (robotArm this)
         (Some (mkTargetMarker
                  (mkPosition (x position) (y position) (z position))
                  (rotation_y marker + 0.015)
                  (rotation_z marker + 0.01)))
  end.

(** The joint angles the arm shows. *)
Definition shown (arm : RobotArm) : JointAngles :=
  mkJointAngles (shoulder_rotation_y arm) (lowerArmPivot_rotation_x arm)
                (upperArmPivot_rotation_x arm).

End SceneManager.

(* ================================================================= *)
(** ** Vocabulary of the specification *)

(** Distance of the target from the vertical axis of the base. *)
Definition horizontal_distance (target : Position) : R :=
  sqrt (x target * x target + z target * z target).

(** Height of the target above the shoulder pivot. *)
Definition vertical_distance (this : IKSolver.t) (target : Position) : R :=
  y target - IKSolver.baseHeight this.

(** Distance of the target from the shoulder pivot:
    [sqrt (x² + z² + (y - baseHeight)²)]. *)
Definition planar_distance (this : IKSolver.t) (target : Position) : R :=
  sqrt (x target * x target + z target * z target +
        (y target - IKSolver.baseHeight this) *
        (y target - IKSolver.baseHeight this)).

(** [v] clamped into [[lo, hi]]. *)
Definition clamp (lo hi v : R) : R := Rmax lo (Rmin hi v).

(** The two thresholds of the workspace clamp. *)
Definition reach_lo (this : IKSolver.t) : R := IKSolver.minReach this + 0.01.
Definition reach_hi (this : IKSolver.t) : R := IKSolver.maxReach this * 0.999.

(** The default geometry, [new IKSolver()]. *)
Definition default_arm : IKSolver.t := IKSolver.constructor None.

(** Three geometries with other link lengths:
    [new IKSolver({lowerArmLength: 4000, upperArmLength: 1})],
    [new IKSolver({lowerArmLength: 100, upperArmLength: 1})] and
    [new IKSolver({lowerArmLength: 0.001, upperArmLength: 0.001})]. *)
Definition thin_arm : IKSolver.t :=
  IKSolver.constructor (Some (Config.mk None (Some 4000) (Some 1))).

Definition lopsided_arm : IKSolver.t :=
  IKSolver.constructor (Some (Config.mk None (Some 100) (Some 1))).

Definition tiny_arm : IKSolver.t :=
  IKSolver.constructor (Some (Config.mk None (Some 0.001) (Some 0.001))).

(** The reach distance [solve] works with. *)
Definition reach (this : IKSolver.t) (target : Position) : R :=
  clamp (reach_lo this) (reach_hi this) (planar_distance this target).

(** The two law-of-cosines quotients of [solve], for links [L], [U] and
    reach distance [r]: the cosine of the angle between the links, and
    the cosine of the angle between the lower link and the line to the
    target. *)
Definition elbow_quotient (L U r : R) : R :=
  (r * r - L * L - U * U) / (-2 * L * U).

Definition shoulder_quotient (L U r : R) : R :=
  (L * L + r * r - U * U) / (2 * L * r).

Definition elbow_cosine (this : IKSolver.t) (r : R) : R :=
  elbow_quotient (IKSolver.lowerArmLength this)
                 (IKSolver.upperArmLength this) r.

Definition shoulder_cosine (this : IKSolver.t) (r : R) : R :=
  shoulder_quotient (IKSolver.lowerArmLength this)
                    (IKSolver.upperArmLength this) r.

(** The invariant the constructor establishes: both link lengths are
    non-zero (a zero is replaced by the default) and the two reach
    bounds are derived from them. *)
Definition constructed (this : IKSolver.t) : Prop :=
  IKSolver.lowerArmLength this <> 0 /\
  IKSolver.upperArmLength this <> 0 /\
  IKSolver.maxReach this =
    IKSolver.lowerArmLength this + IKSolver.upperArmLength this /\
  IKSolver.minReach this =
    Rabs (IKSolver.lowerArmLength this - IKSolver.upperArmLength this).

(** The arm of the scene built with the lengths of a solver. *)
Definition arm_of (this : IKSolver.t) : SceneManager.ArmConfig :=
  SceneManager.mkArmConfig (IKSolver.baseHeight this)
    (IKSolver.lowerArmLength this) (IKSolver.upperArmLength this).

(** Two positions agree within [eps] in each coordinate. *)
Definition within (eps : R) (p q : Position) : Prop :=
  Rabs (x p - x q) <= eps /\
  Rabs (y p - y q) <= eps /\
  Rabs (z p - z q) <= eps.

(** [forward (solve (target))] reproduces [target] within [eps]. *)
Definition round_trip (eps : R) (this : IKSolver.t) (target : Position)
  : Prop :=
  exists res,
    IKSolver.solve this target = Some res /\
    within eps (IKSolver.forward this res) target.

(* ================================================================= *)
(** ** class HandTracker: the two static functions, and [HandLandmarks] *)

(** How a call ends: it returns a value, or it throws. *)
Inductive Completion (A : Type) : Type :=
| Return (a : A)
| Throw.

Arguments Return {A} a.
Arguments Throw {A}.

(** A landmark of MediaPipe Hands: normalized coordinates and, on some
    models, a visibility score. *)
Module Landmark.
Record t : Type := mk {
  x : R;
  y : R;
  z : R;
  visibility : option R
}.
End Landmark.

Module HandTracker.

(** [static getLandmarkPosition(landmarks, landmarkIndex = 8)], lines
    91-102 of hand-tracker.js.  [landmarks] may be [null] or
    [undefined] ([None]); an index is a natural number.  Reading a
    property of [landmarks[landmarkIndex]] throws when the array has no
    such entry. *)
Definition getLandmarkPosition
  (landmarks : option (list Landmark.t)) (landmarkIndex : option nat)
  : Completion (option Position) :=
  let landmarkIndex :=
    match landmarkIndex with Some i => i | None => 8%nat end in
  match landmarks with
  | None => Return None
  | Some array =>
      if (List.length array <=? landmarkIndex)%nat then Return None
      else
        match List.nth_error array landmarkIndex with
        | None => Throw
        | Some landmark =>
            Return (Some {| x := Landmark.x landmark;
                            y := Landmark.y landmark;
                            z := Landmark.z landmark |})
        end
  end.

(** [static mapToWorldSpace(normalized, scale = 1.5)], lines 110-131 of
    hand-tracker.js. *)
Definition mapToWorldSpace (normalized : Position) (scale : option R)
  : Position :=
  let scale := match scale with Some s => s | None => 1.5 end in
  let x := (0.5 - x normalized) * 20 * scale in
  let y := (1 - y normalized) * 20 * scale in
  let z := - z normalized * 20 * scale + 10 in
  {| x := Math.max (-15) (Math.min 15 x);
     y := Math.max 2 (Math.min 25 y);
     z := Math.max (-5) (Math.min 20 z) |}.

(** An instance: whether [this.camera] is set, and [this.isActive]. *)
Record t : Type := mk {
  camera : bool;
  isActive : bool
}.

(** After [constructor(videoElement, onResults)], lines 10-18. *)
Definition constructor : t := mk false false.

(** [async start()], lines 42-62, run to its end.  [cameraStarts] says
    whether [await this.camera.start()] resolves; when it rejects, the
    [catch] block throws.  The result is how the call ends, [None]
    standing for [undefined], and the instance after it. *)
Definition start (cameraStarts : bool) (this : t)
  : Completion (option bool) * t :=
  if isActive this then (Return None, this)
  else
    let this := mk true (isActive this) in
    if cameraStarts then (Return (Some true), mk (camera this) true)
    else (Throw, this).

(** [async stop()], lines 64-83, run to its end.  [stopsCleanly] says
    whether the [try] block runs through; when something in it throws,
    the [catch] block logs the error and the call returns. *)
Definition stop (stopsCleanly : bool) (this : t) : t :=
  if negb (isActive this) then this
  else if stopsCleanly then mk (camera this) false
  else this.

End HandTracker.

(** [export const HandLandmarks], lines 144-166 of hand-tracker.js: the
    property names and their values, in the order of the source. *)
Module HandLandmarks.
Import String.
Local Open Scope string_scope.

Definition table : list (string * nat) :=
  [ ("WRIST", 0%nat);
    ("THUMB_CMC", 1%nat);
    ("THUMB_MCP", 2%nat);
    ("THUMB_IP", 3%nat);
    ("THUMB_TIP", 4%nat);
    ("INDEX_FINGER_MCP", 5%nat);
    ("INDEX_FINGER_PIP", 6%nat);
    ("INDEX_FINGER_DIP", 7%nat);
    ("INDEX_FINGER_TIP", 8%nat);
    ("MIDDLE_FINGER_MCP", 9%nat);
    ("MIDDLE_FINGER_PIP", 10%nat);
    ("MIDDLE_FINGER_DIP", 11%nat);
    ("MIDDLE_FINGER_TIP", 12%nat);
    ("RING_FINGER_MCP", 13%nat);
    ("RING_FINGER_PIP", 14%nat);
    ("RING_FINGER_DIP", 15%nat);
    ("RING_FINGER_TIP", 16%nat);
    ("PINKY_MCP", 17%nat);
    ("PINKY_PIP", 18%nat);
    ("PINKY_DIP", 19%nat);
    ("PINKY_TIP", 20%nat) ].

(** [HandLandmarks[name]]: [undefined] for a name the object lacks. *)
Fixpoint get_from (entries : list (string * nat)) (name : string)
  : option nat :=
  match entries with
  | [] => None
  | (key, value) :: rest =>
      if String.eqb key name then Some value else get_from rest name
  end.

Definition get (name : string) : option nat := get_from table name.

(** [HandLandmarks.INDEX_FINGER_TIP] *)
Definition INDEX_FINGER_TIP_name : string := "INDEX_FINGER_TIP".
Definition INDEX_FINGER_TIP : option nat := get INDEX_FINGER_TIP_name.

End HandLandmarks.

(* ================================================================= *)
(** ** THREE.Vector3 *)

(** The three methods of three.js vectors the application calls, on a
    vector held as a [Position]: [set(x, y, z)], and
    [lerp(v, alpha)], which adds [(v - this) * alpha] to [this]. *)
Module Vector3.

Definition set (this : Position) (x y z : R) : Position :=
  mkPosition x y z.

Definition lerp (this v : Position) (alpha : R) : Position :=
  mkPosition (x this + (x v - x this) * alpha)
             (y this + (y v - y this) * alpha)
             (z this + (z v - z this) * alpha).

End Vector3.

(* ================================================================= *)
(** ** class RoboticArmApp *)

Module RoboticArmApp.
Import String.
Local Open Scope string_scope.

(** What a [textContent] holds: what the page came with, a literal, an
    icon followed by a literal (the two labels of the camera button), or
    [value.toFixed(digits)]. *)
Inductive Text : Type :=
| Initial
| Literal (s : string)
| IconThen (s : string)
| ToFixed (value : R) (digits : nat).

(** [this.state] *)
Record State : Type := mkState {
  target : Position;
  smoothTarget : Position;
  isTracking : bool;
  smoothing : R;
  scale : R;
  speed : R
}.

(** [this.stats] *)
Record Stats : Type := mkStats {
  frameCount : nat;
  lastTime : R;
  fps : nat
}.

(** [this.ui]: the text of each element the application writes, and
    whether the element carries the class [active]. *)
Record UI : Type := mkUI {
  cameraToggle_textContent : Text;
  cameraToggle_active : bool;
  statusDot_active : bool;
  statusText : Text;
  fpsCounter : Text;
  smoothingValue : Text;
  scaleValue : Text;
  speedValue : Text;
  posX : Text;
  posY : Text;
  posZ : Text
}.

Record t : Type := mk {
  state : State;
  stats : Stats;
  ui : UI;
  sceneManager : SceneManager.t;
  ikSolver : IKSolver.t;
  handTracker : HandTracker.t
}.

(** [results] of MediaPipe Hands: [multiHandLandmarks] may be missing. *)
Record Results : Type := mkResults {
  multiHandLandmarks : option (list (list Landmark.t))
}.

(** [`${n} FPS`] *)
Definition fps_text (n : nat) : Text :=
  Literal (DecimalString.NilZero.string_of_uint (Nat.to_uint n) ++ " FPS").

(** [updateFPS()], lines 1010-1021; [now] is what [performance.now()]
    returns. *)
Definition updateFPS (now : R) (this : t) : t :=
  let frameCount := S (frameCount (stats this)) in
  if now - lastTime (stats this) >=? 1000 then
    let fps := frameCount in
    mk (state this)
       (mkStats 0 now fps)
       (let u := ui this in
        mkUI (cameraToggle_textContent u) (cameraToggle_active u)
             (statusDot_active u) (statusText u) (fps_text fps)
             (smoothingValue u) (scaleValue u) (speedValue u)
             (posX u) (posY u) (posZ u))
       (sceneManager this) (ikSolver this) (handTracker this)
  else
    mk (state this)
       (mkStats frameCount (lastTime (stats this)) (fps (stats this)))
       (ui this) (sceneManager this) (ikSolver this) (handTracker this).

(** The four status texts. *)
Definition TRACKING_HAND_text : string := "Tracking Hand".
Definition SEARCHING_text : string := "Searching...".
Definition CAMERA_ACTIVE_text : string := "Camera Active".
Definition SYSTEM_IDLE_text : string := "System Idle".

(** The two writes to the status line: its text and the class of the
    dot. *)
Definition set_status (text : string) (dot : bool) (u : UI) : UI :=
  mkUI (cameraToggle_textContent u) (cameraToggle_active u)
       dot (Literal text) (fpsCounter u)
       (smoothingValue u) (scaleValue u) (speedValue u)
       (posX u) (posY u) (posZ u).

Definition set_target (target : Position) (s : State) : State :=
  mkState target (smoothTarget s) (isTracking s)
          (smoothing s) (scale s) (speed s).

(** [onHandResults(results)], lines 976-1008. *)
Definition onHandResults (results : Results) (now : R) (this : t)
  : Completion t :=
  let this := updateFPS now this in
  match multiHandLandmarks results with
  | Some (landmarks :: _) =>
      match HandTracker.getLandmarkPosition
              (Some landmarks) HandLandmarks.INDEX_FINGER_TIP with
      | Throw => Throw
      | Return None => Return this
      | Return (Some normalized) =>
          let worldPos :=
            HandTracker.mapToWorldSpace normalized
              (Some (scale (state this))) in
          let target :=
            Vector3.set (target (state this))
                        (x worldPos) (y worldPos) (z worldPos) in
          Return
            (mk (set_target target (state this))
                (stats this)
                (if isTracking (state this)
                 then set_status TRACKING_HAND_text true (ui this)
                 else ui this)
                (sceneManager this) (ikSolver this) (handTracker this))
      end
  | _ =>
      Return
        (mk (state this) (stats this)
            (if isTracking (state this)
             then set_status SEARCHING_text false (ui this)
             else ui this)
            (sceneManager this) (ikSolver this) (handTracker this))
  end.

(** [updateSimulation()], lines 1023-1041. *)
Definition updateSimulation (this : t) : option t :=
  let smoothingFactor := smoothing (state this) * speed (state this) in
  let smoothTarget :=
    Vector3.lerp (smoothTarget (state this)) (target (state this))
                 smoothingFactor in
  let s := state this in
  let state :=
    mkState (target s) smoothTarget (isTracking s)
            (smoothing s) (scale s) (speed s) in
  let u := ui this in
  let ui :=
    mkUI (cameraToggle_textContent u) (cameraToggle_active u)
         (statusDot_active u) (statusText u) (fpsCounter u)
         (smoothingValue u) (scaleValue u) (speedValue u)
         (ToFixed (x smoothTarget) 1) (ToFixed (y smoothTarget) 1)
         (ToFixed (z smoothTarget) 1) in
  const angles <- IKSolver.solve (ikSolver this) smoothTarget ;;
  let sceneManager :=
    SceneManager.updateArmAngles (sceneManager this) angles in
  let sceneManager :=
    SceneManager.updateTargetMarker sceneManager smoothTarget in
  Some (mk state (stats this) ui sceneManager (ikSolver this)
           (handTracker this)).

(** The three [input] listeners of [setupEventListeners()], lines
    903-926; [value] is what [parseFloat(e.target.value)] returns. *)
Definition onSmoothingInput (value : R) (this : t) : t :=
  let s := state this in
  let u := ui this in
  mk (mkState (target s) (smoothTarget s) (isTracking s)
              value (scale s) (speed s))
     (stats this)
     (mkUI (cameraToggle_textContent u) (cameraToggle_active u)
           (statusDot_active u) (statusText u) (fpsCounter u)
           (ToFixed value 2) (scaleValue u) (speedValue u)
           (posX u) (posY u) (posZ u))
     (sceneManager this) (ikSolver this) (handTracker this).

Definition onScaleInput (value : R) (this : t) : t :=
  let s := state this in
  let u := ui this in
  mk (mkState (target s) (smoothTarget s) (isTracking s)
              (smoothing s) value (speed s))
     (stats this)
     (mkUI (cameraToggle_textContent u) (cameraToggle_active u)
           (statusDot_active u) (statusText u) (fpsCounter u)
           (smoothingValue u) (ToFixed value 1) (speedValue u)
           (posX u) (posY u) (posZ u))
     (sceneManager this) (ikSolver this) (handTracker this).

Definition onSpeedInput (value : R) (this : t) : t :=
  let s := state this in
  let u := ui this in
  mk (mkState (target s) (smoothTarget s) (isTracking s)
              (smoothing s) (scale s) value)
     (stats this)
     (mkUI (cameraToggle_textContent u) (cameraToggle_active u)
           (statusDot_active u) (statusText u) (fpsCounter u)
           (smoothingValue u) (scaleValue u) (ToFixed value 2)
           (posX u) (posY u) (posZ u))
     (sceneManager this) (ikSolver this) (handTracker this).

(** The application before its first frame: the fields the constructor
    sets (lines 848-875) with [initScene], [initIK] and
    [initHandTracking]; [now] is what [performance.now()] returns and
    [page] what the elements of the page hold. *)
Definition initial (now : R) (page : UI) : t :=
  mk (mkState (mkPosition 10 10 0) (mkPosition 10 10 0) false 0.1 1.5 0.8)
     (mkStats 0 now 0)
     page
     SceneManager.constructor
     (IKSolver.constructor
        (Some (Config.mk (Some 4) (Some 12) (Some 10))))
     HandTracker.constructor.

(** [constructor()]: [startAnimationLoop()] runs [animate] once, and
    with it the first [updateSimulation()]. *)
Definition constructor (now : R) (page : UI) : option t :=
  updateSimulation (initial now page).

(** The writes of [toggleCamera()] to the button and the status line. *)
Definition set_camera_ui (label : string) (active : bool) (status : string)
  (u : UI) : UI :=
  mkUI (IconThen label) active active (Literal status) (fpsCounter u)
       (smoothingValue u) (scaleValue u) (speedValue u)
       (posX u) (posY u) (posZ u).

Definition set_isTracking (b : bool) (s : State) : State :=
  mkState (target s) (smoothTarget s) b (smoothing s) (scale s) (speed s).

(** [async toggleCamera()], lines 949-974, run to its end; [cameraOk]
    is the outcome of the camera operation of [start] or [stop]. *)
Definition toggleCamera (cameraOk : bool) (this : t) : t :=
  if negb (isTracking (state this)) then
    match HandTracker.start cameraOk (handTracker this) with
    | (Return _, tracker) =>
        mk (set_isTracking true (state this)) (stats this)
           (set_camera_ui "Stop Camera" true CAMERA_ACTIVE_text (ui this))
           (sceneManager this) (ikSolver this) tracker
    | (Throw, tracker) =>
        mk (state this) (stats this) (ui this)
           (sceneManager this) (ikSolver this) tracker
    end
  else
    let tracker := HandTracker.stop cameraOk (handTracker this) in
    mk (set_isTracking false (state this)) (stats this)
       (set_camera_ui "Start Camera Tracking" false SYSTEM_IDLE_text (ui this))
       (sceneManager this) (ikSolver this) tracker.

(** What can happen to the application, one thing at a time: results
    from MediaPipe, an animation frame, an input on one of the three
    sliders, a click on the camera button. *)
Inductive Event : Type :=
| HandResults (results : Results) (now : R)
| AnimationFrame
| SmoothingInput (value : R)
| ScaleInput (value : R)
| SpeedInput (value : R)
| CameraClick (cameraOk : bool).

(** One event; [None] when a handler throws or leaves the finite
    numbers. *)
Definition handle (this : t) (e : Event) : option t :=
  match e with
  | HandResults results now =>
      match onHandResults results now this with
      | Return this' => Some this'
      | Throw => None
      end
  | AnimationFrame => updateSimulation this
  | SmoothingInput value => Some (onSmoothingInput value this)
  | ScaleInput value => Some (onScaleInput value this)
  | SpeedInput value => Some (onSpeedInput value this)
  | CameraClick cameraOk => Some (toggleCamera cameraOk this)
  end.

Fixpoint run (this : t) (events : list Event) : option t :=
  match events with
  | [] => Some this
  | e :: rest =>
      match handle this e with
      | Some this' => run this' rest
      | None => None
      end
  end.

(** [n] animation frames in a row. *)
Fixpoint frames (n : nat) (this : t) : option t :=
  match n with
  | O => Some this
  | S n' =>
      match updateSimulation this with
      | Some this' => frames n' this'
      | None => None
      end
  end.

(** [updateFPS()] at each of the given times, with the values it gives
    to [this.stats.fps] on the way. *)
Fixpoint updateFPS_at (times : list R) (this : t) : list nat * t :=
  match times with
  | [] => ([], this)
  | now :: rest =>
      let this' := updateFPS now this in
      let '(shown, final) := updateFPS_at rest this' in
      (if now - lastTime (stats this) >=? 1000
       then fps (stats this') :: shown else shown, final)
  end.


End RoboticArmApp.

(** The landmark [onHandResults] reads: entry [8] of the first hand,
    when there is a first hand and it has that entry. *)
Definition index_finger_tip (results : RoboticArmApp.Results)
  : option Landmark.t :=
  match RoboticArmApp.multiHandLandmarks results with
  | Some (landmarks :: _) => List.nth_error landmarks 8
  | _ => None
  end.

(** Whether the results hold a hand at all. *)
Definition has_hand (results : RoboticArmApp.Results) : bool :=
  match RoboticArmApp.multiHandLandmarks results with
  | Some (_ :: _) => true
  | _ => false
  end.

(** The [{x, y, z}] of a landmark. *)
Definition landmark_position (landmark : Landmark.t) : Position :=
  {| x := Landmark.x landmark;
     y := Landmark.y landmark;
     z := Landmark.z landmark |}.

(** The box [mapToWorldSpace] clamps into. *)
Definition in_target_box (p : Position) : Prop :=
  -15 <= x p <= 15 /\ 2 <= y p <= 25 /\ -5 <= z p <= 20.

(** A page whose elements hold what they were loaded with, none of them
    of class [active]. *)
Definition page_as_loaded : RoboticArmApp.UI :=
  RoboticArmApp.mkUI RoboticArmApp.Initial false false RoboticArmApp.Initial
    RoboticArmApp.Initial RoboticArmApp.Initial RoboticArmApp.Initial
    RoboticArmApp.Initial RoboticArmApp.Initial RoboticArmApp.Initial
    RoboticArmApp.Initial.

(** An event that leaves the smoothing and the speed in [[0, 1]]. *)
Definition sliders_in_unit (e : RoboticArmApp.Event) : Prop :=
  match e with
  | RoboticArmApp.SmoothingInput value => 0 <= value <= 1
  | RoboticArmApp.SpeedInput value => 0 <= value <= 1
  | _ => True
  end.

(** The application as loaded, once a hand in the middle of the image
    (landmark [(0.5, 0.5, 0)] at scale [1.5]) has moved the target to
    [(0, 15, 10)]; the smoothed target is still at [(10, 10, 0)]. *)
Definition app_after_hand : RoboticArmApp.t :=
  let this := RoboticArmApp.initial 0 page_as_loaded in
  RoboticArmApp.mk
    (RoboticArmApp.set_target (mkPosition 0 15 10) (RoboticArmApp.state this))
    (RoboticArmApp.stats this) (RoboticArmApp.ui this)
    (RoboticArmApp.sceneManager this) (RoboticArmApp.ikSolver this)
    (RoboticArmApp.handTracker this).

(** The solver [initIK()] builds. *)
Definition app_solver : IKSolver.t :=
  IKSolver.constructor (Some (Config.mk (Some 4) (Some 12) (Some 10))).

(** [a] lies between [b] and [c], whichever is the larger. *)
Definition between (b c a : R) : Prop := Rmin b c <= a <= Rmax b c.

(** The target and the smoothed target both lie in the box of
    [mapToWorldSpace], and the smoothing and the speed in [[0, 1]]. *)
Definition targets_in_box (this : RoboticArmApp.t) : Prop :=
  let s := RoboticArmApp.state this in
  in_target_box (RoboticArmApp.target s) /\
  in_target_box (RoboticArmApp.smoothTarget s) /\
  0 <= RoboticArmApp.smoothing s <= 1 /\
  0 <= RoboticArmApp.speed s <= 1.

(** What the page shows of the tracking agrees with the state: the
    camera button is [active] exactly while [isTracking] holds, the
    status dot only then, and the tracker is active then. *)
Definition tracking_consistent (this : RoboticArmApp.t) : Prop :=
  let s := RoboticArmApp.state this in
  let u := RoboticArmApp.ui this in
  RoboticArmApp.cameraToggle_active u = RoboticArmApp.isTracking s /\
  (RoboticArmApp.statusDot_active u = true ->
   RoboticArmApp.isTracking s = true) /\
  (RoboticArmApp.isTracking s = true ->
   HandTracker.isActive (RoboticArmApp.handTracker this) = true).

(** A page whose camera button and status dot are not [active]. *)
Definition page_idle (page : RoboticArmApp.UI) : Prop :=
  RoboticArmApp.cameraToggle_active page = false /\
  RoboticArmApp.statusDot_active page = false.

(* ================================================================= *)
(** ** Operators and primitives *)

Section Operators.

Variables a b : R.

Lemma gt_true : (a >? b) = true <-> b < a.
Proof. unfold JS.gt; destruct (Rlt_dec b a); split; auto; discriminate. Qed.

Lemma gt_false : (a >? b) = false <-> a <= b.
Proof.
  unfold JS.gt; destruct (Rlt_dec b a); split; auto; try discriminate; lra.
Qed.

Lemma lt_true : (a <? b) = true <-> a < b.
Proof. unfold JS.lt; destruct (Rlt_dec a b); split; auto; discriminate. Qed.

Lemma ge_true : (a >=? b) = true <-> b <= a.
Proof. unfold JS.ge; destruct (Rle_dec b a); split; auto; discriminate. Qed.

Lemma le_true : (a <=? b) = true <-> a <= b.
Proof. unfold JS.le; destruct (Rle_dec a b); split; auto; discriminate. Qed.

Lemma sqrt_Some : 0 <= a -> Math.sqrt a = Some (sqrt a).
Proof. intros H; unfold Math.sqrt; destruct (Rle_dec 0 a); tauto. Qed.

Lemma acos_Some : -1 <= a <= 1 -> Math.acos a = Some (acos a).
Proof.
  intros [H1 H2]; unfold Math.acos.
  destruct (Rle_dec (-1) a); [destruct (Rle_dec a 1)|]; tauto.
Qed.

Lemma div_Some : b <> 0 -> a /? b = Some (a / b).
Proof. intros H; unfold JS.div; destruct (Req_dec_T b 0); tauto. Qed.

End Operators.

Lemma clamp_between lo hi v : lo <= hi -> lo <= clamp lo hi v <= hi.
Proof.
  intros H; unfold clamp, Rmax, Rmin.
  destruct (Rle_dec hi v); destruct (Rle_dec lo _); lra.
Qed.

Lemma clamp_inside lo hi v : lo <= v <= hi -> clamp lo hi v = v.
Proof.
  intros H; unfold clamp, Rmax, Rmin.
  destruct (Rle_dec hi v); destruct (Rle_dec lo _); lra.
Qed.

Lemma clamp_lower lo hi v : lo <= clamp lo hi v.
Proof. unfold clamp; apply Rmax_l. Qed.

(** The two [if] statements of [solve] compute [clamp]. *)
Lemma two_ifs_clamp lo hi d :
  (let r := d in
   let r := if r >? hi then hi else r in
   let r := if r <? lo then lo else r in r) = clamp lo hi d.
Proof.
  unfold clamp, Rmax, Rmin, JS.gt, JS.lt; cbv zeta.
  destruct (Rlt_dec hi d); destruct (Rle_dec hi d); try lra;
    destruct (Rlt_dec _ lo); destruct (Rle_dec lo _); lra.
Qed.

Lemma sum_squares_nonneg u v : 0 <= u * u + v * v.
Proof. nra. Qed.

Lemma planar_distance_nonneg this target : 0 <= planar_distance this target.
Proof. apply sqrt_pos. Qed.

(** [planarDistance] as [solve] and [isReachable] compute it, from
    [horizontalDistance] and [verticalDistance]. *)
Lemma planar_distance_eq this target :
  sqrt (horizontal_distance target * horizontal_distance target +
        vertical_distance this target * vertical_distance this target)
  = planar_distance this target.
Proof.
  unfold horizontal_distance, vertical_distance, planar_distance.
  rewrite sqrt_sqrt by apply sum_squares_nonneg. reflexivity.
Qed.

(** What [solve] returns whenever its two divisors are non-zero. *)
Lemma solve_Some this target :
  IKSolver.lowerArmLength this <> 0 ->
  IKSolver.upperArmLength this <> 0 ->
  reach this target <> 0 ->
  IKSolver.solve this target = Some {|
    angles := {|
      base := Math.atan2 (x target) (z target);
      shoulder :=
        PI / 2 -
        (Math.atan2 (vertical_distance this target)
                    (horizontal_distance target) +
         acos (clamp (-1) 1 (shoulder_cosine this (reach this target))));
      elbow :=
        PI - acos (clamp (-1) 1 (elbow_cosine this (reach this target)))
    |};
    reachDistance := reach this target;
    isAtLimit := planar_distance this target >? reach_hi this
  |}.
Proof.
  intros HL HU Hr. unfold IKSolver.solve.
  rewrite sqrt_Some by apply sum_squares_nonneg. cbn [JS.bind].
  fold (horizontal_distance target).
  rewrite sqrt_Some by apply sum_squares_nonneg. cbn [JS.bind].
  fold (vertical_distance this target).
  rewrite planar_distance_eq.
  pose proof (two_ifs_clamp (reach_lo this) (reach_hi this)
                (planar_distance this target)) as Hc.
  cbv zeta in Hc. unfold reach_lo, reach_hi in Hc.
  cbv zeta. rewrite Hc. fold (reach_lo this) (reach_hi this).
  fold (reach this target).
  rewrite div_Some by (apply Rmult_integral_contrapositive_currified;
    [apply Rmult_integral_contrapositive_currified; [lra | assumption]
    | assumption]).
  cbn [JS.bind]. unfold Math.max, Math.min. fold (clamp (-1) 1).
  rewrite acos_Some by (apply clamp_between; lra). cbn [JS.bind].
  rewrite div_Some by (apply Rmult_integral_contrapositive_currified;
    [apply Rmult_integral_contrapositive_currified; [lra | assumption]
    | assumption]).
  cbn [JS.bind].
  rewrite acos_Some by (apply clamp_between; lra). cbn [JS.bind].
  reflexivity.
Qed.

(* ================================================================= *)
(** ** The constructor *)

Lemma or_undefined d : None || d = d.
Proof. reflexivity. Qed.

Lemma or_zero d : Some 0 || d = d.
Proof. unfold JS.or; destruct (Req_dec_T 0 0); [reflexivity | lra]. Qed.

Lemma or_nonzero v d : v <> 0 -> Some v || d = v.
Proof. intros H; unfold JS.or; destruct (Req_dec_T v 0); tauto. Qed.

Lemma or_nonzero_default v d : d <> 0 -> v || d <> 0.
Proof.
  intros H; destruct v as [n|]; cbn; [destruct (Req_dec_T n 0)|]; assumption.
Qed.

Lemma constructor_constructed config :
  constructed (IKSolver.constructor config).
Proof.
  unfold constructed, IKSolver.constructor; cbn.
  repeat split; apply or_nonzero_default; lra.
Qed.

Lemma default_arm_fields : default_arm = IKSolver.mk 4 12 10 22 2.
Proof.
  unfold default_arm, IKSolver.constructor, Math.abs; cbn.
  f_equal; [lra|].
  replace (12 - 10) with 2 by lra. apply Rabs_right; lra.
Qed.

Lemma calls_same this cs : calls this cs = this.
Proof.
  revert this; induction cs as [|c cs IH]; intros this; [reflexivity|].
  cbn [calls]. destruct c; cbn [call snd]; apply IH.
Qed.

(** C9.  The constructor takes each of [baseHeight], [lowerArmLength],
    [upperArmLength] from the config, or [4], [12], [10] when the
    property is omitted; a non-zero property is stored as given.  The
    instance it yields has [maxReach = lowerArmLength + upperArmLength]
    and [minReach = |lowerArmLength - upperArmLength|], and after any
    sequence of [solve], [forward] and [isReachable] calls the instance,
    hence each of its five fields, is what the constructor made it. *)
Theorem constructor_postcondition :
  forall (config : option Config.t) (cs : list Call),
    let this := IKSolver.constructor config in
    let given := match config with Some c => c | None => Config.empty end in
    (Config.baseHeight given = None -> IKSolver.baseHeight this = 4) /\
    (Config.lowerArmLength given = None ->
     IKSolver.lowerArmLength this = 12) /\
    (Config.upperArmLength given = None ->
     IKSolver.upperArmLength this = 10) /\
    (forall v, Config.baseHeight given = Some v -> v <> 0 ->
               IKSolver.baseHeight this = v) /\
    (forall v, Config.lowerArmLength given = Some v -> v <> 0 ->
               IKSolver.lowerArmLength this = v) /\
    (forall v, Config.upperArmLength given = Some v -> v <> 0 ->
               IKSolver.upperArmLength this = v) /\
    IKSolver.maxReach this =
      IKSolver.lowerArmLength this + IKSolver.upperArmLength this /\
    IKSolver.minReach this =
      Rabs (IKSolver.lowerArmLength this - IKSolver.upperArmLength this) /\
    IKSolver.baseHeight (calls this cs) = IKSolver.baseHeight this /\
    IKSolver.lowerArmLength (calls this cs) = IKSolver.lowerArmLength this /\
    IKSolver.upperArmLength (calls this cs) = IKSolver.upperArmLength this /\
    IKSolver.maxReach (calls this cs) = IKSolver.maxReach this /\
    IKSolver.minReach (calls this cs) = IKSolver.minReach this.
Proof.
  intros config cs this given. rewrite calls_same.
  unfold this, IKSolver.constructor. fold given.
  cbn [IKSolver.baseHeight IKSolver.lowerArmLength IKSolver.upperArmLength
       IKSolver.maxReach IKSolver.minReach].
  repeat split; try reflexivity.
  - intros ->; reflexivity.
  - intros ->; reflexivity.
  - intros ->; reflexivity.
  - intros v -> Hv; apply or_nonzero; assumption.
  - intros v -> Hv; apply or_nonzero; assumption.
  - intros v -> Hv; apply or_nonzero; assumption.
Qed.

(** The postcondition at [new IKSolver({baseHeight: 1, upperArmLength: 5})]
    followed by one call of each method. *)
Lemma constructor_postcondition_witness :
  let this := IKSolver.constructor (Some (Config.mk (Some 1) None (Some 5))) in
  let cs := [CallSolve (mkPosition 1 2 3);
             CallForward (mkJointAngles 0 0 0);
             CallIsReachable (mkPosition 1 2 3)] in
  IKSolver.baseHeight this = 1 /\
  IKSolver.lowerArmLength this = 12 /\
  IKSolver.upperArmLength this = 5 /\
  IKSolver.maxReach (calls this cs) = 12 + 5.
Proof.
  intros this cs.
  destruct (constructor_postcondition
              (Some (Config.mk (Some 1) None (Some 5))) cs)
    as (_ & Hl & _ & Hb & _ & Hu & Hmax & _ & _ & _ & _ & Hmax' & _).
  fold this in Hl, Hb, Hu, Hmax, Hmax'. cbn [Config.baseHeight
    Config.lowerArmLength Config.upperArmLength] in Hl, Hb, Hu.
  assert (IKSolver.baseHeight this = 1) as E1
    by (apply Hb; [reflexivity | lra]).
  assert (IKSolver.lowerArmLength this = 12) as E2
    by (apply Hl; reflexivity).
  assert (IKSolver.upperArmLength this = 5) as E3
    by (apply Hu; [reflexivity | lra]).
  repeat split; try assumption.
  rewrite Hmax', Hmax, E2, E3. reflexivity.
Defined.

(** C10.  The constructor's [||] replaces a property that is supplied
    as [0] by the default, exactly as it does an omitted one:
    [{lowerArmLength: 0}] gives [lowerArmLength = 12].  A negative
    length is stored unchanged. *)
Theorem constructor_zero_is_default :
  forall (b l u : option R),
    IKSolver.baseHeight (IKSolver.constructor (Some (Config.mk (Some 0) l u)))
      = 4 /\
    IKSolver.lowerArmLength
      (IKSolver.constructor (Some (Config.mk b (Some 0) u))) = 12 /\
    IKSolver.upperArmLength
      (IKSolver.constructor (Some (Config.mk b l (Some 0)))) = 10 /\
    IKSolver.constructor (Some (Config.mk None (Some 0) None))
      = IKSolver.constructor (Some Config.empty) /\
    (forall v, v < 0 ->
       IKSolver.lowerArmLength
         (IKSolver.constructor (Some (Config.mk b (Some v) u))) = v /\
       IKSolver.upperArmLength
         (IKSolver.constructor (Some (Config.mk b l (Some v)))) = v).
Proof.
  intros b l u. unfold IKSolver.constructor; cbn -[JS.or].
  rewrite !or_zero. repeat split; try reflexivity.
  all: apply or_nonzero; lra.
Qed.

(** [{lowerArmLength: -12}] is accepted as it is. *)
Lemma constructor_zero_is_default_witness :
  IKSolver.lowerArmLength
    (IKSolver.constructor (Some (Config.mk None (Some (-12)) None))) = -12.
Proof.
  destruct (constructor_zero_is_default None None None)
    as (_ & _ & _ & _ & Hneg).
  apply (Hneg (-12)). lra.
Defined.

(* ================================================================= *)
(** ** [solve] on a constructed instance *)

Section Constructed.

Variable this : IKSolver.t.
Hypothesis Hthis : constructed this.

Lemma constructed_minReach_nonneg : 0 <= IKSolver.minReach this.
Proof.
  destruct Hthis as (_ & _ & _ & ->). apply Rabs_pos.
Qed.

Lemma constructed_reach_pos target : 0 < reach this target.
Proof.
  pose proof constructed_minReach_nonneg as Hm.
  pose proof (clamp_lower (reach_lo this) (reach_hi this)
                (planar_distance this target)) as Hc.
  unfold reach. unfold reach_lo in Hc at 1. lra.
Qed.

Lemma solve_constructed target :
  IKSolver.solve this target = Some {|
    angles := {|
      base := Math.atan2 (x target) (z target);
      shoulder :=
        PI / 2 -
        (Math.atan2 (vertical_distance this target)
                    (horizontal_distance target) +
         acos (clamp (-1) 1 (shoulder_cosine this (reach this target))));
      elbow :=
        PI - acos (clamp (-1) 1 (elbow_cosine this (reach this target)))
    |};
    reachDistance := reach this target;
    isAtLimit := planar_distance this target >? reach_hi this
  |}.
Proof.
  pose proof (constructed_reach_pos target).
  destruct Hthis as (HL & HU & _).
  apply solve_Some; try assumption; lra.
Qed.

End Constructed.

(** Distance of a target on the axis of the base. *)
Lemma planar_distance_axis this ty :
  planar_distance this (mkPosition 0 ty 0)
  = Rabs (ty - IKSolver.baseHeight this).
Proof.
  unfold planar_distance; cbn [x y z].
  replace (0 * 0 + 0 * 0 +
           (ty - IKSolver.baseHeight this) * (ty - IKSolver.baseHeight this))
    with (Rsqr (ty - IKSolver.baseHeight this)) by (unfold Rsqr; ring).
  apply sqrt_Rsqr_abs.
Qed.

(** Distance of a target straight ahead of the base. *)
Lemma planar_distance_ahead this ty tz :
  0 <= tz -> ty = IKSolver.baseHeight this ->
  planar_distance this (mkPosition 0 ty tz) = tz.
Proof.
  intros Hz ->. unfold planar_distance; cbn [x y z].
  replace (0 * 0 + tz * tz +
           (IKSolver.baseHeight this - IKSolver.baseHeight this) *
           (IKSolver.baseHeight this - IKSolver.baseHeight this))
    with (tz * tz) by ring.
  apply sqrt_square; assumption.
Qed.

(** C2.  For every target, [solve] returns as [reachDistance] the
    distance [sqrt (x² + z² + (y - baseHeight)²)] clamped into
    [[minReach + 0.01, maxReach * 0.999]]: the distance itself when it
    lies in the interval, the lower end when it is below it, and the
    upper end when it is above it.  Whenever
    [minReach + 0.01 <= maxReach * 0.999] the returned [reachDistance]
    lies in that interval. *)
Theorem solve_reachDistance_clamped :
  forall (config : option Config.t) (target : Position),
    let this := IKSolver.constructor config in
    let planarDistance :=
      sqrt (x target * x target + z target * z target +
            (y target - IKSolver.baseHeight this) *
            (y target - IKSolver.baseHeight this)) in
    let lo := IKSolver.minReach this + 0.01 in
    let hi := IKSolver.maxReach this * 0.999 in
    exists res,
      IKSolver.solve this target = Some res /\
      reachDistance res = Rmax lo (Rmin hi planarDistance) /\
      (lo <= planarDistance <= hi -> reachDistance res = planarDistance) /\
      (planarDistance < lo -> reachDistance res = lo) /\
      (lo <= hi -> hi < planarDistance -> reachDistance res = hi) /\
      (lo <= hi -> lo <= reachDistance res <= hi).
Proof.
  intros config target this d lo hi.
  eexists; split;
    [apply solve_constructed, constructor_constructed|].
  cbn [reachDistance]. fold this.
  change (reach this target) with (clamp lo hi d).
  split; [reflexivity|]. split; [apply clamp_inside|].
  unfold clamp, Rmax, Rmin.
  repeat split; intros;
    destruct (Rle_dec hi d); destruct (Rle_dec lo _); lra.
Qed.

(** The default arm and the target [(0, 4, 20)]: the thresholds are
    [2.01 <= 21.978] and the returned distance lies between them. *)
Lemma solve_reachDistance_clamped_witness :
  exists res,
    IKSolver.solve (IKSolver.constructor None) (mkPosition 0 4 20) = Some res /\
    2.01 <= reachDistance res <= 21.978.
Proof.
  destruct (solve_reachDistance_clamped None (mkPosition 0 4 20))
    as (res & Hs & _ & _ & _ & _ & Hin).
  exists res. split; [exact Hs|].
  fold default_arm in Hin. rewrite default_arm_fields in Hin.
  cbn [IKSolver.minReach IKSolver.maxReach] in Hin.
  assert (2 + 0.01 <= 22 * 0.999) as Hle by lra.
  specialize (Hin Hle). lra.
Defined.

(** C3 (as amended).  For every target, [solve] returns
    [isAtLimit = true] exactly when the unclamped distance exceeds
    [maxReach * 0.999].  On a geometry with
    [minReach <= maxReach * 0.999], a target whose distance is below
    [minReach] has [isAtLimit = false]. *)
Theorem solve_isAtLimit :
  forall (config : option Config.t) (target : Position),
    let this := IKSolver.constructor config in
    exists res,
      IKSolver.solve this target = Some res /\
      (isAtLimit res = true <->
       planar_distance this target > IKSolver.maxReach this * 0.999) /\
      (IKSolver.minReach this <= IKSolver.maxReach this * 0.999 ->
       planar_distance this target < IKSolver.minReach this ->
       isAtLimit res = false).
Proof.
  intros config target this.
  eexists; split;
    [apply solve_constructed, constructor_constructed|].
  cbn [isAtLimit]. fold this. unfold reach_hi. split.
  - rewrite gt_true. unfold Rgt. reflexivity.
  - intros Hgeo Hd. apply gt_false. lra.
Qed.

(** The default arm ([minReach = 2], threshold [21.978]) and the target
    [(0, 5, 0)] at distance [1]: under-reach, not flagged. *)
Lemma solve_isAtLimit_witness :
  exists res,
    IKSolver.solve (IKSolver.constructor None) (mkPosition 0 5 0) = Some res /\
    isAtLimit res = false.
Proof.
  destruct (solve_isAtLimit None (mkPosition 0 5 0)) as (res & Hs & _ & Hunder).
  exists res. split; [exact Hs|].
  fold default_arm in Hunder.
  rewrite planar_distance_axis, default_arm_fields in Hunder.
  cbn [IKSolver.minReach IKSolver.maxReach IKSolver.baseHeight] in Hunder.
  apply Hunder; [lra|].
  replace (5 - 4) with 1 by lra. rewrite Rabs_R1. lra.
Defined.

(** C3 as stated fails on a thin workspace.  With
    [{lowerArmLength: 4000, upperArmLength: 1}] the bounds are
    [minReach = 3999] and [maxReach * 0.999 = 3996.999]; the target
    [(0, 4002, 0)] lies at distance [3998 < minReach] from the shoulder
    and [solve] returns [isAtLimit = true]. *)
Lemma under_reach_flagged_at_limit :
  let this :=
    IKSolver.constructor (Some (Config.mk None (Some 4000) (Some 1))) in
  let target := mkPosition 0 4002 0 in
  planar_distance this target < IKSolver.minReach this /\
  option_map isAtLimit (IKSolver.solve this target) = Some true.
Proof.
  intros this target.
  assert (this = IKSolver.mk 4 4000 1 4001 3999) as Ethis.
  { unfold this, IKSolver.constructor, Math.abs; cbn -[JS.or].
    rewrite or_undefined, !or_nonzero by lra.
    f_equal; [lra|].
    replace (4000 - 1) with 3999 by lra. apply Rabs_right; lra. }
  assert (planar_distance this target = 3998) as Ed.
  { unfold target. rewrite planar_distance_axis, Ethis.
    cbn [IKSolver.baseHeight].
    replace (4002 - 4) with 3998 by lra. apply Rabs_right; lra. }
  split.
  - rewrite Ed, Ethis. cbn [IKSolver.minReach]. lra.
  - rewrite solve_constructed by apply constructor_constructed.
    cbn [option_map isAtLimit]. f_equal.
    apply gt_true. rewrite Ed, Ethis.
    unfold reach_hi; cbn [IKSolver.maxReach]. lra.
Qed.

(** What [isReachable] returns. *)
Lemma isReachable_eq this target :
  IKSolver.isReachable this target =
  Some ((planar_distance this target >=? IKSolver.minReach this) &&
        (planar_distance this target <=? IKSolver.maxReach this)).
Proof.
  unfold IKSolver.isReachable.
  rewrite sqrt_Some by apply sum_squares_nonneg. cbn [JS.bind].
  fold (horizontal_distance target).
  rewrite sqrt_Some by apply sum_squares_nonneg. cbn [JS.bind].
  fold (vertical_distance this target). rewrite planar_distance_eq.
  reflexivity.
Qed.

Lemma isReachable_true this target :
  IKSolver.minReach this <= planar_distance this target ->
  planar_distance this target <= IKSolver.maxReach this ->
  IKSolver.isReachable this target = Some true.
Proof.
  intros H1 H2. rewrite isReachable_eq. f_equal.
  apply andb_true_iff. split; [apply ge_true | apply le_true]; assumption.
Qed.

(** C6.  [isReachable] returns a boolean for every target; it is [true]
    exactly when [minReach <= planarDistance <= maxReach], for the
    unclamped [planarDistance = sqrt (x² + z² + (y - baseHeight)²)], and
    [false] exactly when the distance is strictly below [minReach] or
    strictly above [maxReach]. *)
Theorem isReachable_iff :
  forall (this : IKSolver.t) (target : Position),
    let planarDistance :=
      sqrt (x target * x target + z target * z target +
            (y target - IKSolver.baseHeight this) *
            (y target - IKSolver.baseHeight this)) in
    exists b,
      IKSolver.isReachable this target = Some b /\
      (b = true <->
       IKSolver.minReach this <= planarDistance <= IKSolver.maxReach this) /\
      (b = false <->
       planarDistance < IKSolver.minReach this \/
       IKSolver.maxReach this < planarDistance).
Proof.
  intros this target d.
  eexists; split; [apply isReachable_eq|].
  change (planar_distance this target) with d.
  rewrite andb_true_iff, andb_false_iff, ge_true, le_true.
  split; [reflexivity|].
  unfold JS.ge, JS.le.
  destruct (Rle_dec (IKSolver.minReach this) d);
    destruct (Rle_dec d (IKSolver.maxReach this));
    split; intros; try (left; reflexivity); try (right; reflexivity);
    try lra; try (left; lra); try (right; lra);
    repeat match goal with
           | H : _ \/ _ |- _ => destruct H
           end; try discriminate; lra.
Qed.

(** On the reals, where every zero is [+0]: [solve] returns
    [base = atan2 (x, z)], and [base = 0] on the axis of the base. *)
Lemma solve_base_real :
  forall (config : option Config.t),
    let this := IKSolver.constructor config in
    (forall target, exists res,
       IKSolver.solve this target = Some res /\
       base res = Math.atan2 (x target) (z target)) /\
    (forall ty, exists res,
       IKSolver.solve this (mkPosition 0 ty 0) = Some res /\
       base res = 0).
Proof.
  intros config this. split.
  - intros target. eexists; split;
      [apply solve_constructed, constructor_constructed | reflexivity].
  - intros ty. eexists; split;
      [apply solve_constructed, constructor_constructed|].
    cbn [base angles x z]. unfold Math.atan2.
    destruct (Rlt_dec 0 0); [lra|]. reflexivity.
Qed.

(** C7 (as amended).  For every target with finite coordinates, the
    sign of each zero kept, [solve] returns a result, and its [base] is
    [Math.atan2 (x, z)]; where neither [x] nor [z] is [-0] that is the
    [atan2] of the reals.  On the axis of the base ([x] and [z] both
    zero, any [y]) the base is a zero when [z] is [+0] ([+0] for
    [x = +0], [-0] for [x = -0]) and [PI] or [-PI] when [z] is [-0]
    ([PI] for [x = +0], [-PI] for [x = -0]). *)
Theorem solve_base_yaw :
  forall (config : option Config.t) (target : SignedZero.Target),
    let this := IKSolver.constructor config in
    exists base res,
      SignedZero.solve this target = Some (base, res) /\
      base = SignedZero.atan2 (SignedZero.x target) (SignedZero.z target) /\
      (forall tx tz,
         SignedZero.x target = SignedZero.Finite tx ->
         SignedZero.z target = SignedZero.Finite tz ->
         base = SignedZero.Finite (Math.atan2 tx tz)) /\
      (SignedZero.value (SignedZero.x target) = 0 ->
       SignedZero.value (SignedZero.z target) = 0 ->
       match SignedZero.x target, SignedZero.z target with
       | SignedZero.Finite _, SignedZero.Finite _ =>
           SignedZero.value base = 0
       | SignedZero.NegativeZero, SignedZero.Finite _ =>
           base = SignedZero.NegativeZero
       | SignedZero.Finite _, SignedZero.NegativeZero =>
           base = SignedZero.Finite PI
       | SignedZero.NegativeZero, SignedZero.NegativeZero =>
           base = SignedZero.Finite (- PI)
       end).
Proof.
  intros config [tx ty tz] this.
  exists (SignedZero.atan2 tx tz). eexists.
  split.
  { unfold SignedZero.solve.
    rewrite solve_constructed by apply constructor_constructed.
    reflexivity. }
  split; [reflexivity|].
  cbn [SignedZero.x SignedZero.z]. split.
  - intros x0 z0 -> ->. reflexivity.
  - destruct tx as [|x0], tz as [|z0]; cbn [SignedZero.value SignedZero.atan2];
      intros Hx Hz; subst.
    + reflexivity.
    + unfold JS.lt. destruct (Rlt_dec 0 0); [lra | reflexivity].
    + unfold JS.lt. destruct (Rlt_dec 0 0); [lra | reflexivity].
    + unfold Math.atan2. destruct (Rlt_dec 0 0); [lra | reflexivity].
Qed.

(** C7 as stated fails at a negative zero.  The target
    [{x: 0, y: 6, z: -0}] has [x == 0] and [z == 0]; [solve] returns
    [base = Math.atan2 (0, -0) = PI], not [0]. *)
Lemma solve_base_negative_zero :
  let target :=
    SignedZero.mkTarget (SignedZero.Finite 0) (SignedZero.Finite 6)
      SignedZero.NegativeZero in
  SignedZero.value (SignedZero.x target) = 0 /\
  SignedZero.value (SignedZero.z target) = 0 /\
  exists base res,
    SignedZero.solve default_arm target = Some (base, res) /\
    SignedZero.value base = PI /\
    SignedZero.value base <> 0.
Proof.
  intros target. split; [reflexivity|]. split; [reflexivity|].
  pose proof PI_RGT_0 as Hpi.
  eexists. eexists. split.
  { unfold SignedZero.solve.
    rewrite solve_constructed by exact (constructor_constructed None).
    reflexivity. }
  assert (SignedZero.atan2 (SignedZero.Finite 0) SignedZero.NegativeZero
          = SignedZero.Finite PI) as E.
  { cbn [SignedZero.atan2]. unfold JS.lt.
    destruct (Rlt_dec 0 0); [lra | reflexivity]. }
  cbn [SignedZero.x SignedZero.z target]. unfold target.
  cbn [SignedZero.x SignedZero.z]. rewrite E. cbn [SignedZero.value].
  split; [reflexivity | lra].
Qed.

(* ================================================================= *)
(** ** [Math.atan2] *)

Lemma hypot_factor u v :
  u <> 0 -> sqrt (u * u + v * v) = Rabs u * sqrt (1 + (v / u)²).
Proof.
  intros Hu.
  replace (u * u + v * v) with (u² * (1 + (v / u)²))
    by (unfold Rsqr; field; assumption).
  rewrite sqrt_mult_alt by apply Rle_0_sqr.
  rewrite sqrt_Rsqr_abs. reflexivity.
Qed.

Lemma sqrt_1_plus_sqr_pos t : 0 < sqrt (1 + t²).
Proof. apply sqrt_lt_R0. pose proof (Rle_0_sqr t). lra. Qed.

(** [atan2 (v, u)] is the polar angle of the point [(u, v)]. *)
Lemma atan2_polar v u :
  sqrt (u * u + v * v) * cos (Math.atan2 v u) = u /\
  sqrt (u * u + v * v) * sin (Math.atan2 v u) = v.
Proof.
  unfold Math.atan2.
  destruct (Rlt_dec 0 u) as [Hu|Hu].
  - rewrite hypot_factor by lra. rewrite Rabs_right by lra.
    rewrite cos_atan, sin_atan.
    pose proof (sqrt_1_plus_sqr_pos (v / u)).
    split; field; lra.
  - destruct (Rlt_dec u 0) as [Hu'|Hu'].
    + rewrite hypot_factor by lra. rewrite Rabs_left by lra.
      pose proof (sqrt_1_plus_sqr_pos (v / u)).
      destruct (Rle_dec 0 v).
      * rewrite neg_cos, neg_sin, cos_atan, sin_atan. split; field; lra.
      * unfold Rminus.
        rewrite cos_plus, sin_plus, cos_neg, sin_neg, cos_PI, sin_PI.
        rewrite cos_atan, sin_atan. split; field; lra.
    + assert (u = 0) as -> by lra.
      replace (0 * 0 + v * v) with (v²) by (unfold Rsqr; ring).
      rewrite sqrt_Rsqr_abs.
      destruct (Rlt_dec 0 v); [|destruct (Rlt_dec v 0)].
      * rewrite cos_PI2, sin_PI2, Rabs_right by lra. lra.
      * rewrite cos_neg, sin_neg, cos_PI2, sin_PI2, Rabs_left by lra. lra.
      * assert (v = 0) as -> by lra. rewrite Rabs_R0. lra.
Qed.

Lemma atan2_range v u : - PI < Math.atan2 v u <= PI.
Proof.
  pose proof PI_RGT_0 as Hpi. unfold Math.atan2.
  destruct (Rlt_dec 0 u) as [Hu|Hu].
  - pose proof (atan_bound (v / u)). lra.
  - destruct (Rlt_dec u 0) as [Hu'|Hu'].
    + pose proof (atan_bound (v / u)) as Hb.
      destruct (Rle_dec 0 v) as [Hv|Hv].
      * assert (v / u <= 0) as Hq.
        { replace (v / u) with (- (v * / (- u))) by (field; lra).
          assert (0 <= v * / (- u)); [|lra].
          apply Rmult_le_pos; [assumption|].
          left. apply Rinv_0_lt_compat. lra. }
        assert (atan (v / u) <= 0) as Ha.
        { rewrite <- atan_0. destruct Hq as [Hq| ->]; [|lra].
          left. apply atan_increasing. assumption. }
        lra.
      * assert (0 < v / u) as Hq.
        { replace (v / u) with ((- v) * / (- u)) by (field; lra).
          apply Rmult_lt_0_compat; [lra|].
          apply Rinv_0_lt_compat. lra. }
        assert (0 < atan (v / u)) as Ha.
        { rewrite <- atan_0. apply atan_increasing. assumption. }
        lra.
    + destruct (Rlt_dec 0 v); [|destruct (Rlt_dec v 0)]; lra.
Qed.

(* ================================================================= *)
(** ** The two-link triangle *)

(** The triangle with sides [L], [U] (the links) and [r] (the reach):
    [cG] is the cosine [solve] computes for the angle at the elbow, [cS]
    the one for the angle at the shoulder. *)
Section Triangle.

Variables L U r : R.
Hypothesis HL : 0 < L.
Hypothesis HU : 0 < U.
Hypothesis Hr : 0 < r.
Hypothesis Hlo : Rabs (L - U) <= r.
Hypothesis Hhi : r <= L + U.

Lemma triangle_sides : - r <= L - U <= r.
Proof. revert Hlo; unfold Rabs; destruct (Rcase_abs (L - U)); lra. Qed.

Lemma triangle_elbow_range : -1 <= elbow_quotient L U r <= 1.
Proof.
  pose proof triangle_sides as Hs.
  assert (0 < L * U) as Hk by (apply Rmult_lt_0_compat; assumption).
  assert (elbow_quotient L U r * (2 * (L * U)) = L * L + U * U - r * r) as E
    by (unfold elbow_quotient; field; lra).
  split; nra.
Qed.

Lemma triangle_shoulder_range : -1 <= shoulder_quotient L U r <= 1.
Proof.
  pose proof triangle_sides as Hs.
  assert (0 < L * r) as Hk by (apply Rmult_lt_0_compat; assumption).
  assert (shoulder_quotient L U r * (2 * (L * r)) = L * L + r * r - U * U)
    as E by (unfold shoulder_quotient; field; lra).
  split; nra.
Qed.

(** Projection of the upper link on the lower one. *)
Lemma triangle_projection :
  L - U * elbow_quotient L U r = r * shoulder_quotient L U r.
Proof. unfold elbow_quotient, shoulder_quotient; field; lra. Qed.

(** Law of sines. *)
Lemma triangle_sines :
  U * sqrt (1 - (elbow_quotient L U r)²)
  = r * sqrt (1 - (shoulder_quotient L U r)²).
Proof.
  pose proof triangle_elbow_range as HG.
  pose proof triangle_shoulder_range as HS.
  assert (0 <= 1 - (elbow_quotient L U r)²) as H1 by (unfold Rsqr; nra).
  assert (0 <= 1 - (shoulder_quotient L U r)²) as H2 by (unfold Rsqr; nra).
  apply Rsqr_inj.
  - apply Rmult_le_pos; [lra | apply sqrt_pos].
  - apply Rmult_le_pos; [lra | apply sqrt_pos].
  - rewrite !Rsqr_mult, !Rsqr_sqrt by assumption.
    unfold elbow_quotient, shoulder_quotient, Rsqr; field; lra.
Qed.

(** The pose [solve] computes for a target at elevation [t]: with
    [shoulder = PI / 2 - (t + acos cS)] and [elbow = PI - acos cG],
    where [cS] and [cG] are the two quotients, the chain of the two
    links ends at distance [r] and elevation [t]. *)
Lemma triangle_pose t :
  let sh := PI / 2 - (t + acos (shoulder_quotient L U r)) in
  let e := PI - acos (elbow_quotient L U r) in
  L * sin sh + U * sin (sh + e) = r * cos t /\
  L * cos sh + U * cos (sh + e) = r * sin t.
Proof.
  intros sh e.
  pose proof triangle_elbow_range as HG.
  pose proof triangle_shoulder_range as HS.
  pose proof triangle_projection as Hp.
  pose proof triangle_sines as Hs.
  unfold sh, e. clear sh e.
  set (cG := elbow_quotient L U r) in *.
  set (cS := shoulder_quotient L U r) in *.
  assert (0 <= 1 - cS²) as H2 by (unfold Rsqr; nra).
  assert (sin (acos cS) * sin (acos cS) + cS * cS = 1) as Hone.
  { rewrite sin_acos by assumption. rewrite sqrt_sqrt by assumption.
    unfold Rsqr; ring. }
  replace (PI / 2 - (t + acos cS) + (PI - acos cG))
    with (PI / 2 - (t + acos cS + acos cG) + PI) by ring.
  rewrite neg_sin, neg_cos.
  rewrite !sin_shift, !cos_shift.
  rewrite (cos_plus (t + acos cS)), (sin_plus (t + acos cS)).
  rewrite (cos_plus t), (sin_plus t).
  rewrite (cos_acos cG), (cos_acos cS) by assumption.
  rewrite (sin_acos cG) by assumption.
  assert (U * sqrt (1 - cG²) = r * sin (acos cS)) as Hs'
    by (rewrite sin_acos by assumption; exact Hs).
  set (sS := sin (acos cS)) in *. set (sG := sqrt (1 - cG²)) in *.
  set (cT := cos t). set (sT := sin t).
  split.
  - replace (L * (cT * cS - sT * sS) +
             U * - ((cT * cS - sT * sS) * cG - (sT * cS + cT * sS) * sG))
      with ((cT * cS - sT * sS) * (L - U * cG) +
            (sT * cS + cT * sS) * (U * sG)) by ring.
    rewrite Hp, Hs'.
    replace (r * cT) with (r * cT * (sS * sS + cS * cS))
      by (rewrite Hone; ring).
    ring.
  - replace (L * (sT * cS + cT * sS) +
             U * - ((sT * cS + cT * sS) * cG + (cT * cS - sT * sS) * sG))
      with ((sT * cS + cT * sS) * (L - U * cG) -
            (cT * cS - sT * sS) * (U * sG)) by ring.
    rewrite Hp, Hs'.
    replace (r * sT) with (r * sT * (sS * sS + cS * cS))
      by (rewrite Hone; ring).
    ring.
Qed.

End Triangle.

(* ================================================================= *)
(** ** Where the solved angles put the arm *)

(** The end effector of the scene, in closed form. *)
Lemma endEffector_eq cfg a :
  SceneManager.endEffector cfg a =
  let planarX :=
    SceneManager.lowerArmLength cfg * sin (shoulder a) +
    SceneManager.upperArmLength cfg * sin (shoulder a + elbow a) in
  let planarY :=
    SceneManager.lowerArmLength cfg * cos (shoulder a) +
    SceneManager.upperArmLength cfg * cos (shoulder a + elbow a) +
    SceneManager.baseHeight cfg in
  {| x := planarX * sin (base a); y := planarY; z := planarX * cos (base a) |}.
Proof.
  unfold SceneManager.endEffector, SceneManager.positionY,
    SceneManager.rotationX, SceneManager.rotationY; cbn [x y z].
  rewrite sin_plus, cos_plus. f_equal; ring.
Qed.

(** [forward], in closed form: the upper link points the opposite way. *)
Lemma forward_eq this a :
  IKSolver.forward this a =
  let planarX :=
    IKSolver.lowerArmLength this * sin (shoulder a) -
    IKSolver.upperArmLength this * sin (shoulder a + elbow a) in
  let planarY :=
    IKSolver.lowerArmLength this * cos (shoulder a) -
    IKSolver.upperArmLength this * cos (shoulder a + elbow a) +
    IKSolver.baseHeight this in
  {| x := planarX * sin (base a); y := planarY; z := planarX * cos (base a) |}.
Proof.
  unfold IKSolver.forward, Math.sin, Math.cos, Math.PI; cbv zeta.
  replace (shoulder a + elbow a - PI) with (shoulder a + elbow a + - PI)
    by ring.
  rewrite (sin_plus _ (- PI)), (cos_plus _ (- PI)).
  rewrite cos_neg, sin_neg, cos_PI, sin_PI. f_equal; ring.
Qed.

(** The straight, upright arm ([shoulder = 0], [elbow = 0]): the scene
    puts its end effector at height [baseHeight + lowerArmLength +
    upperArmLength]; [forward] folds the upper link back onto the lower
    one. *)
Lemma forward_straight_arm this :
  y (SceneManager.endEffector (arm_of this) (mkJointAngles 0 0 0)) =
    IKSolver.baseHeight this + IKSolver.lowerArmLength this +
    IKSolver.upperArmLength this /\
  y (IKSolver.forward this (mkJointAngles 0 0 0)) =
    IKSolver.baseHeight this + IKSolver.lowerArmLength this -
    IKSolver.upperArmLength this.
Proof.
  rewrite endEffector_eq, forward_eq. cbv zeta.
  cbn [x y z base shoulder elbow arm_of SceneManager.lowerArmLength
       SceneManager.upperArmLength SceneManager.baseHeight].
  rewrite Rplus_0_r, cos_0. split; ring.
Qed.

(** For any angles, the position [forward] computes and the end
    effector of the scene are mirror images of each other through the
    elbow joint, the end point of the lower link. *)
Lemma forward_mirrors_endEffector this a :
  let lower := IKSolver.lowerArmLength this in
  let p := IKSolver.forward this a in
  let q := SceneManager.endEffector (arm_of this) a in
  x p + x q = 2 * (lower * sin (shoulder a) * sin (base a)) /\
  y p + y q = 2 * (IKSolver.baseHeight this + lower * cos (shoulder a)) /\
  z p + z q = 2 * (lower * sin (shoulder a) * cos (base a)).
Proof.
  cbv zeta. rewrite endEffector_eq, forward_eq. cbv zeta.
  cbn [x y z arm_of SceneManager.lowerArmLength
       SceneManager.upperArmLength SceneManager.baseHeight].
  repeat split; ring.
Qed.

Section Pose.

Variable this : IKSolver.t.
Variable target : Position.
Hypothesis Hthis : constructed this.
Hypothesis HL : 0 < IKSolver.lowerArmLength this.
Hypothesis HU : 0 < IKSolver.upperArmLength this.
Hypothesis Hlo : IKSolver.minReach this <= reach this target.
Hypothesis Hhi : reach this target <= IKSolver.maxReach this.

Lemma pose_cosines_inside :
  clamp (-1) 1 (elbow_cosine this (reach this target))
    = elbow_cosine this (reach this target) /\
  clamp (-1) 1 (shoulder_cosine this (reach this target))
    = shoulder_cosine this (reach this target).
Proof.
  pose proof (constructed_reach_pos this Hthis target) as Hr.
  destruct Hthis as (_ & _ & Emax & Emin).
  rewrite Emin in Hlo. rewrite Emax in Hhi.
  split; apply clamp_inside.
  - apply triangle_elbow_range; assumption.
  - apply triangle_shoulder_range; assumption.
Qed.

(** The chain of the two links, posed with the angles of [solve], ends
    at distance [reach] from the shoulder, at the elevation of the
    target. *)
Lemma pose_planar :
  exists res,
    IKSolver.solve this target = Some res /\
    reachDistance res = reach this target /\
    base res = Math.atan2 (x target) (z target) /\
    IKSolver.lowerArmLength this * sin (shoulder res) +
    IKSolver.upperArmLength this * sin (shoulder res + elbow res)
      = reach this target *
        cos (Math.atan2 (vertical_distance this target)
                        (horizontal_distance target)) /\
    IKSolver.lowerArmLength this * cos (shoulder res) +
    IKSolver.upperArmLength this * cos (shoulder res + elbow res)
      = reach this target *
        sin (Math.atan2 (vertical_distance this target)
                        (horizontal_distance target)).
Proof.
  pose proof (constructed_reach_pos this Hthis target) as Hr.
  destruct pose_cosines_inside as [EG ES].
  eexists. split; [apply solve_constructed; assumption|].
  cbn [reachDistance base shoulder elbow angles].
  rewrite EG, ES.
  split; [reflexivity|]. split; [reflexivity|].
  destruct Hthis as (_ & _ & Emax & Emin).
  rewrite Emin in Hlo. rewrite Emax in Hhi.
  apply (triangle_pose _ _ _ HL HU Hr Hlo Hhi).
Qed.

End Pose.

(** With the angles of [solve] the end effector of the scene lies on the
    ray from the shoulder pivot to the target, at distance [reach]. *)
Lemma solve_endEffector this target :
  constructed this ->
  0 < IKSolver.lowerArmLength this ->
  0 < IKSolver.upperArmLength this ->
  IKSolver.minReach this <= reach this target <= IKSolver.maxReach this ->
  0 < planar_distance this target ->
  exists res,
    IKSolver.solve this target = Some res /\
    reachDistance res = reach this target /\
    SceneManager.endEffector (arm_of this) res =
    let k := reach this target / planar_distance this target in
    {| x := k * x target;
       y := IKSolver.baseHeight this + k * (y target - IKSolver.baseHeight this);
       z := k * z target |}.
Proof.
  intros Hthis HL HU [Hlo Hhi] Hd.
  destruct (pose_planar this target Hthis HL HU Hlo Hhi)
    as (res & Hs & Hr & Hb & HX & HY).
  exists res. split; [exact Hs|]. split; [exact Hr|].
  rewrite endEffector_eq. cbv zeta.
  cbn [arm_of SceneManager.lowerArmLength SceneManager.upperArmLength
       SceneManager.baseHeight].
  rewrite HX, HY, Hb.
  destruct (atan2_polar (vertical_distance this target)
              (horizontal_distance target)) as [Hc Hsn].
  rewrite planar_distance_eq in Hc, Hsn.
  destruct (atan2_polar (x target) (z target)) as [Hbc Hbs].
  replace (z target * z target + x target * x target)
    with (x target * x target + z target * z target) in Hbc, Hbs by ring.
  fold (horizontal_distance target) in Hbc, Hbs.
  set (d := planar_distance this target) in *.
  set (t := Math.atan2 (vertical_distance this target)
                       (horizontal_distance target)) in *.
  assert (cos t = horizontal_distance target / d) as ->
    by (rewrite <- Hc; field; lra).
  assert (sin t = vertical_distance this target / d) as ->
    by (rewrite <- Hsn; field; lra).
  f_equal.
  - rewrite <- Hbs at 2. field; lra.
  - unfold vertical_distance. field; lra.
  - rewrite <- Hbc at 2. field; lra.
Qed.

(** The other reader of the angles of [solve].  For every geometry with
    positive link lengths and every target whose distance from the
    shoulder pivot satisfies
    [minReach + 0.01 <= distance <= maxReach * 0.999], [solve] returns
    angles, and the arm posed with them ([updateArmAngles]: shoulder
    measured from the vertical, elbow the deviation from straight) has
    its end effector exactly on the target. *)
Theorem solve_reaches_target :
  forall (config : option Config.t) (target : Position),
    let this := IKSolver.constructor config in
    0 < IKSolver.lowerArmLength this ->
    0 < IKSolver.upperArmLength this ->
    IKSolver.minReach this + 0.01 <= planar_distance this target ->
    planar_distance this target <= IKSolver.maxReach this * 0.999 ->
    exists res,
      IKSolver.solve this target = Some res /\
      reachDistance res = planar_distance this target /\
      SceneManager.endEffector (arm_of this) res = target.
Proof.
  intros config target this HL HU Hlo Hhi.
  pose proof (constructor_constructed config) as Hthis. fold this in Hthis.
  pose proof (constructed_minReach_nonneg this Hthis) as Hmin.
  assert (reach this target = planar_distance this target) as Er
    by (apply clamp_inside; unfold reach_lo, reach_hi; lra).
  assert (IKSolver.maxReach this * 0.999 <= IKSolver.maxReach this) as Hmax.
  { destruct Hthis as (_ & _ & -> & _). lra. }
  destruct (solve_endEffector this target Hthis HL HU) as (res & Hs & Hr & He).
  - rewrite Er. lra.
  - lra.
  - exists res. split; [exact Hs|]. split; [congruence|].
    rewrite He, Er. cbv zeta. destruct target as [tx ty tz]; cbn [x y z].
    f_equal; field; lra.
Qed.

(* ================================================================= *)
(** ** Bounds on [acos] near [1] *)

Lemma cos_upper a :
  - PI / 2 <= a -> a <= PI / 2 ->
  cos a <= 1 - a ^ 2 / 2 + a ^ 4 / 24 - a ^ 6 / 720 + a ^ 8 / 40320.
Proof.
  intros H1 H2. destruct (COS a H1 H2) as [_ H].
  eapply Rle_trans; [exact H|].
  unfold cos_ub, cos_approx, cos_term.
  change (2 * (1 + 1))%nat with 4%nat.
  cbn [sum_f_R0 Nat.mul Nat.add].
  rewrite !INR_IZR_INZ.
  change (Z.of_nat (Factorial.fact 0)) with 1%Z.
  change (Z.of_nat (Factorial.fact 2)) with 2%Z.
  change (Z.of_nat (Factorial.fact 4)) with 24%Z.
  change (Z.of_nat (Factorial.fact 6)) with 720%Z.
  change (Z.of_nat (Factorial.fact 8)) with 40320%Z.
  apply Req_le. field.
Qed.

(** [acos c] is below [t] as soon as [c] is above an upper bound of
    [cos t]. *)
Lemma acos_small c t :
  0 < t -> t <= 1 -> -1 <= c <= 1 ->
  1 - t ^ 2 / 2 + t ^ 4 / 24 - t ^ 6 / 720 + t ^ 8 / 40320 < c ->
  acos c < t.
Proof.
  intros Ht0 Ht1 Hc Hlt.
  pose proof PI2_1 as Hpi. pose proof (acos_bound c) as [Hb0 Hb1].
  destruct (Rlt_dec (acos c) t) as [|Hn]; [assumption|exfalso].
  assert (cos (acos c) <= cos t) as Hd by (apply cos_decr_1; lra).
  rewrite cos_acos in Hd by assumption.
  pose proof (cos_upper t ltac:(lra) ltac:(lra)). lra.
Qed.

(* ================================================================= *)
(** ** The default arm *)

Lemma default_arm_constructed : constructed default_arm.
Proof. apply constructor_constructed. Qed.

Lemma default_arm_thresholds :
  reach_lo default_arm = 2.01 /\ reach_hi default_arm = 21.978.
Proof.
  unfold reach_lo, reach_hi. rewrite default_arm_fields; cbn. lra.
Qed.

(** A target at the height of the shoulder, straight ahead. *)
Lemma default_arm_distance_ahead tz :
  0 <= tz -> planar_distance default_arm (mkPosition 0 4 tz) = tz.
Proof.
  intros Hz. apply planar_distance_ahead; [assumption|].
  rewrite default_arm_fields; reflexivity.
Qed.

(** Arithmetic on the fields of the default arm. *)
Ltac default_arm_arith :=
  rewrite ?default_arm_fields;
  cbn [IKSolver.baseHeight IKSolver.lowerArmLength IKSolver.upperArmLength
       IKSolver.maxReach IKSolver.minReach x y z];
  lra.

Lemma default_arm_elbow_cosine r :
  elbow_cosine default_arm r = (244 - r * r) / 240.
Proof.
  unfold elbow_cosine, elbow_quotient. rewrite default_arm_fields; cbn. field.
Qed.

Lemma default_arm_shoulder_cosine r :
  r <> 0 -> shoulder_cosine default_arm r = (44 + r * r) / (24 * r).
Proof.
  intros Hr. unfold shoulder_cosine, shoulder_quotient.
  rewrite default_arm_fields; cbn.
  field. assumption.
Qed.

Lemma atan2_axis u : 0 < u -> Math.atan2 0 u = 0.
Proof.
  intros Hu. unfold Math.atan2. destruct (Rlt_dec 0 u); [|lra].
  unfold Rdiv. rewrite Rmult_0_l. apply atan_0.
Qed.

Lemma horizontal_distance_ahead ty tz :
  0 <= tz -> horizontal_distance (mkPosition 0 ty tz) = tz.
Proof.
  intros Hz. unfold horizontal_distance; cbn [x z].
  replace (0 * 0 + tz * tz) with (tz * tz) by ring.
  apply sqrt_square; assumption.
Qed.

(** [solve({x: 0, y: 4, z: 20})] on the default arm. *)
Lemma default_arm_solve_0_4_20 :
  IKSolver.solve default_arm (mkPosition 0 4 20) = Some {|
    angles := {| base := 0;
                 shoulder := PI / 2 - acos 0.925;
                 elbow := PI - acos (-0.65) |};
    reachDistance := 20;
    isAtLimit := false
  |}.
Proof.
  destruct default_arm_thresholds as [Elo Ehi].
  assert (planar_distance default_arm (mkPosition 0 4 20) = 20) as Ed
    by (apply default_arm_distance_ahead; lra).
  assert (reach default_arm (mkPosition 0 4 20) = 20) as Er.
  { unfold reach. rewrite Ed, Elo, Ehi. apply clamp_inside; lra. }
  rewrite solve_constructed by apply default_arm_constructed.
  rewrite Er, Ed, Ehi.
  rewrite default_arm_elbow_cosine, default_arm_shoulder_cosine by lra.
  rewrite horizontal_distance_ahead by lra.
  unfold vertical_distance; cbn [x y z].
  replace (IKSolver.baseHeight default_arm) with 4
    by (rewrite default_arm_fields; reflexivity).
  replace (4 - 4) with 0 by ring.
  rewrite !atan2_axis by lra.
  replace ((244 - 20 * 20) / 240) with (-0.65) by lra.
  replace ((44 + 20 * 20) / (24 * 20)) with 0.925 by lra.
  rewrite !clamp_inside by lra.
  replace (20 >? 21.978) with false by (symmetry; apply gt_false; lra).
  repeat f_equal; ring.
Qed.

Lemma sqrt_lower b a : 0 <= b -> b * b <= a -> b <= sqrt a.
Proof.
  intros Hb Hba. rewrite <- (sqrt_square b) at 1 by assumption.
  apply sqrt_le_1_alt. assumption.
Qed.

Lemma default_arm_as_scene : arm_of default_arm = SceneManager.ARM_CONFIG.
Proof. rewrite default_arm_fields. reflexivity. Qed.

(** The default arm and the target [(0, 4, 20)], at distance [20] in
    [[2.01, 21.978]]: the posed arm reaches it. *)
Lemma solve_reaches_target_witness :
  exists res,
    IKSolver.solve (IKSolver.constructor None) (mkPosition 0 4 20) = Some res /\
    SceneManager.endEffector SceneManager.ARM_CONFIG res = mkPosition 0 4 20.
Proof.
  assert (planar_distance default_arm (mkPosition 0 4 20) = 20) as Ed
    by (apply default_arm_distance_ahead; lra).
  destruct (solve_reaches_target None (mkPosition 0 4 20))
    as (res & Hs & _ & He); fold default_arm.
  - default_arm_arith.
  - default_arm_arith.
  - rewrite Ed, default_arm_fields; cbn; lra.
  - rewrite Ed, default_arm_fields; cbn; lra.
  - exists res. split; [exact Hs|].
    rewrite <- default_arm_as_scene. exact He.
Defined.

(** C1.  The round trip fails on the default arm at the target
    [(0, 4, 20)].  The target is reachable (distance [20], in
    [[minReach, maxReach] = [2, 22]]) and [solve] returns
    [base = 0], [shoulder = PI / 2 - acos 0.925] and
    [elbow = PI - acos (-0.65)], the deviation of the arm from
    straight.  The arm of the scene, posed with these angles, has its
    end effector exactly on the target.  [forward] turns the upper link
    by [shoulder + elbow - PI] instead: the point it returns lies more
    than [8] above the target and more than [17] short of it, so
    [forward (solve (target))] does not reproduce the target within
    [1e-6]. *)
Theorem round_trip_fails :
  IKSolver.isReachable default_arm (mkPosition 0 4 20) = Some true /\
  (exists res,
     IKSolver.solve default_arm (mkPosition 0 4 20) = Some res /\
     SceneManager.endEffector SceneManager.ARM_CONFIG res = mkPosition 0 4 20 /\
     x (IKSolver.forward default_arm res) = 0 /\
     12 < y (IKSolver.forward default_arm res) /\
     z (IKSolver.forward default_arm res) < 3) /\
  ~ round_trip 0.000001 default_arm (mkPosition 0 4 20).
Proof.
  assert (planar_distance default_arm (mkPosition 0 4 20) = 20) as Ed20
    by (apply default_arm_distance_ahead; lra).
  assert (0.37 <= sqrt (1 - 0.925²)) as H1
    by (apply sqrt_lower; unfold Rsqr; lra).
  assert (0.75 <= sqrt (1 - (-0.65)²)) as H2
    by (apply sqrt_lower; unfold Rsqr; lra).
  assert (sqrt (1 - 0.925²) <= 0.38) as H3.
  { rewrite <- (sqrt_square 0.38) by lra. apply sqrt_le_1_alt.
    unfold Rsqr; lra. }
  assert (sqrt (1 - (-0.65)²) <= 0.76) as H4.
  { rewrite <- (sqrt_square 0.76) by lra. apply sqrt_le_1_alt.
    unfold Rsqr; lra. }
  assert (forall res,
            IKSolver.solve default_arm (mkPosition 0 4 20) = Some res ->
            x (IKSolver.forward default_arm res) = 0 /\
            12 < y (IKSolver.forward default_arm res) /\
            z (IKSolver.forward default_arm res) < 3) as Hforward.
  { intros res Hs.
    rewrite default_arm_solve_0_4_20 in Hs. injection Hs as <-.
    rewrite forward_eq. cbv zeta.
    cbn [x y z base shoulder elbow angles].
    rewrite default_arm_fields.
    cbn [IKSolver.baseHeight IKSolver.lowerArmLength
         IKSolver.upperArmLength].
    replace (PI / 2 - acos 0.925 + (PI - acos (-0.65)))
      with (PI / 2 - (acos 0.925 + acos (-0.65)) + PI) by ring.
    rewrite neg_cos, neg_sin, !cos_shift, !sin_shift, sin_plus, cos_plus.
    rewrite !cos_acos, !sin_acos by lra.
    rewrite sin_0, cos_0.
    set (s1 := sqrt (1 - 0.925²)) in *.
    set (s2 := sqrt (1 - (-0.65)²)) in *.
    assert (0.2775 <= s1 * s2) as Hp by nra.
    split; [ring|]. split; lra. }
  split; [|split].
  - apply isReachable_true; rewrite Ed20, default_arm_fields; cbn; lra.
  - destruct (solve_endEffector default_arm (mkPosition 0 4 20))
      as (res & Hs & _ & He).
    + apply default_arm_constructed.
    + default_arm_arith.
    + default_arm_arith.
    + unfold reach. rewrite Ed20.
      destruct default_arm_thresholds as [-> ->].
      rewrite clamp_inside by lra. rewrite default_arm_fields; cbn; lra.
    + rewrite Ed20; lra.
    + exists res. split; [exact Hs|]. split; [|apply Hforward; exact Hs].
      rewrite <- default_arm_as_scene, He. unfold reach. rewrite Ed20.
      destruct default_arm_thresholds as [-> ->].
      rewrite clamp_inside by lra. cbv zeta. cbn [x y z].
      rewrite default_arm_fields; cbn. f_equal; field.
  - intros (res & Hs & _ & Hy & _).
    destruct (Hforward res Hs) as (_ & Hy' & _).
    cbn [y] in Hy. revert Hy. unfold Rabs.
    destruct (Rcase_abs _); lra.
Qed.

(** The margin of the clamp, by design: the target [(0, 4, 22)] is
    reachable (distance [22 = maxReach]); [solve] works with the reach
    [21.978], and the arm posed with its angles ends at
    [(0, 4, 21.978)]. *)
Lemma default_arm_clamped_at_maxReach :
  IKSolver.isReachable default_arm (mkPosition 0 4 22) = Some true /\
  exists res,
    IKSolver.solve default_arm (mkPosition 0 4 22) = Some res /\
    reachDistance res = 21.978 /\
    SceneManager.endEffector SceneManager.ARM_CONFIG res
      = mkPosition 0 4 21.978.
Proof.
  assert (planar_distance default_arm (mkPosition 0 4 22) = 22) as Ed22
    by (apply default_arm_distance_ahead; lra).
  destruct default_arm_thresholds as [Elo Ehi].
  split.
  - apply isReachable_true; rewrite Ed22, default_arm_fields; cbn; lra.
  - assert (reach default_arm (mkPosition 0 4 22) = 21.978) as Er.
    { unfold reach, clamp. rewrite Ed22, Elo, Ehi.
      rewrite Rmin_left, Rmax_right by lra. reflexivity. }
    destruct (solve_endEffector default_arm (mkPosition 0 4 22))
      as (res & Hs & Hr & He).
    + apply default_arm_constructed.
    + default_arm_arith.
    + default_arm_arith.
    + rewrite Er, default_arm_fields; cbn; lra.
    + rewrite Ed22; lra.
    + exists res. split; [exact Hs|]. split; [congruence|].
      rewrite <- default_arm_as_scene, He, Er, Ed22. cbv zeta.
      cbn [x y z]. rewrite default_arm_fields; cbn.
      f_equal; field.
Qed.

(* ================================================================= *)
(** ** The two ends of the workspace, default arm *)

Lemma default_arm_reach_far target :
  reach_hi default_arm <= planar_distance default_arm target ->
  reach default_arm target = 21.978.
Proof.
  destruct default_arm_thresholds as [Elo Ehi]. rewrite Ehi. intros Hd.
  unfold reach, clamp. rewrite Elo, Ehi.
  rewrite Rmin_left, Rmax_right by lra. reflexivity.
Qed.

Lemma default_arm_reach_near target :
  planar_distance default_arm target <= reach_lo default_arm ->
  reach default_arm target = 2.01.
Proof.
  destruct default_arm_thresholds as [Elo Ehi]. rewrite Elo. intros Hd.
  unfold reach, clamp. rewrite Elo, Ehi.
  rewrite Rmin_right, Rmax_left by lra. reflexivity.
Qed.

(** The elbow angle of the default arm at the far end of the clamp. *)
Lemma default_arm_elbow_far :
  let e := PI - acos (clamp (-1) 1 (elbow_cosine default_arm 21.978)) in
  0 < e < 0.09.
Proof.
  intros e. unfold e. rewrite default_arm_elbow_cosine.
  rewrite clamp_inside by lra.
  replace ((244 - 21.978 * 21.978) / 240) with (- (239.032484 / 240)) by lra.
  rewrite acos_opp.
  replace (PI - (PI - acos (239.032484 / 240)))
    with (acos (239.032484 / 240)) by ring.
  split.
  - apply acos_bound_lt. lra.
  - apply acos_small; lra.
Qed.

(** The elbow angle of the default arm at the near end of the clamp. *)
Lemma default_arm_elbow_near :
  let e := PI - acos (clamp (-1) 1 (elbow_cosine default_arm 2.01)) in
  PI - 0.019 < e < PI.
Proof.
  intros e. unfold e. rewrite default_arm_elbow_cosine.
  rewrite clamp_inside by lra.
  assert (0 < acos ((244 - 2.01 * 2.01) / 240)) as H0
    by (apply acos_bound_lt; lra).
  assert (acos ((244 - 2.01 * 2.01) / 240) < 0.019) as H1
    by (apply acos_small; lra).
  lra.
Qed.

(** Full extension of the default arm ([baseHeight = 4],
    [lowerArmLength = 12], [upperArmLength = 10], [maxReach = 22]):
    every target whose distance exceeds [maxReach * 0.999 = 21.978]
    solves to [reachDistance = 21.978], [isAtLimit = true] and an elbow
    angle between [0] and [0.09] rad (the arm is straight to within 5.2
    degrees).  The target [(0, 4, 22)], at distance [22 = maxReach], is
    one of them. *)
Lemma default_arm_full_extension :
  IKSolver.maxReach default_arm = 22 /\
  IKSolver.maxReach default_arm * 0.999 = 21.978 /\
  planar_distance default_arm (mkPosition 0 4 22) = 22 /\
  forall target,
    IKSolver.maxReach default_arm * 0.999 < planar_distance default_arm target ->
    exists res,
      IKSolver.solve default_arm target = Some res /\
      reachDistance res = 21.978 /\
      isAtLimit res = true /\
      0 < elbow res < 0.09.
Proof.
  split; [rewrite default_arm_fields; reflexivity|].
  split; [default_arm_arith|].
  split; [apply default_arm_distance_ahead; lra|].
  intros target Hd. fold (reach_hi default_arm) in Hd.
  eexists. split; [apply solve_constructed, default_arm_constructed|].
  cbn [reachDistance isAtLimit elbow angles].
  rewrite default_arm_reach_far by lra.
  split; [reflexivity|]. split; [apply gt_true; exact Hd|].
  apply default_arm_elbow_far.
Qed.

(** Full fold of the default arm ([minReach = 2]): every target whose
    distance is at most [minReach + 0.01] solves to
    [reachDistance = 2.01] and an elbow angle between [PI - 0.019] and
    [PI] (the arm is folded to within 1.1 degrees).  The target
    [(0, 6, 0)] is one of them: [verticalDistance = 2],
    [horizontalDistance = 0], [planarDistance = 2 = minReach]; its
    [base] is [0]. *)
Lemma default_arm_full_fold :
  IKSolver.minReach default_arm = 2 /\
  vertical_distance default_arm (mkPosition 0 6 0) = 2 /\
  horizontal_distance (mkPosition 0 6 0) = 0 /\
  planar_distance default_arm (mkPosition 0 6 0) = 2 /\
  (exists res,
     IKSolver.solve default_arm (mkPosition 0 6 0) = Some res /\
     base res = 0 /\
     reachDistance res = 2.01 /\
     PI - 0.019 < elbow res < PI) /\
  forall target,
    planar_distance default_arm target <= IKSolver.minReach default_arm + 0.01 ->
    exists res,
      IKSolver.solve default_arm target = Some res /\
      reachDistance res = 2.01 /\
      PI - 0.019 < elbow res < PI.
Proof.
  assert (planar_distance default_arm (mkPosition 0 6 0) = 2) as Ed.
  { rewrite planar_distance_axis, default_arm_fields; cbn.
    replace (6 - 4) with 2 by lra. apply Rabs_right; lra. }
  assert (forall target,
    planar_distance default_arm target <= IKSolver.minReach default_arm + 0.01 ->
    IKSolver.solve default_arm target = Some {|
      angles := {|
        base := Math.atan2 (x target) (z target);
        shoulder :=
          PI / 2 -
          (Math.atan2 (vertical_distance default_arm target)
                      (horizontal_distance target) +
           acos (clamp (-1) 1 (shoulder_cosine default_arm 2.01)));
        elbow := PI - acos (clamp (-1) 1 (elbow_cosine default_arm 2.01))
      |};
      reachDistance := 2.01;
      isAtLimit := planar_distance default_arm target >? reach_hi default_arm
    |}) as Hnear.
  { intros target Hd. fold (reach_lo default_arm) in Hd.
    rewrite solve_constructed by apply default_arm_constructed.
    rewrite default_arm_reach_near by assumption. reflexivity. }
  split; [rewrite default_arm_fields; reflexivity|].
  split; [unfold vertical_distance; default_arm_arith|].
  split; [apply horizontal_distance_ahead; lra|].
  split; [exact Ed|]. split.
  - eexists. split;
      [apply Hnear; rewrite Ed, default_arm_fields; cbn; lra|].
    cbn [base reachDistance elbow angles x z].
    split.
    { unfold Math.atan2. destruct (Rlt_dec 0 0); [lra | reflexivity]. }
    split; [reflexivity | apply default_arm_elbow_near].
  - intros target Hd. eexists. split; [apply Hnear; exact Hd|].
    cbn [reachDistance elbow angles].
    split; [reflexivity | apply default_arm_elbow_near].
Qed.

(* ================================================================= *)
(** ** [solve] stays inside the finite numbers *)

(** C8 (as amended).  In exact arithmetic, where no intermediate value
    overflows, [solve] returns a result for every target on every
    instance the constructor can build, those with strictly positive
    link lengths among them: the reach distance is at least
    [minReach + 0.01], hence strictly positive; both divisors are
    non-zero; both arguments of [Math.acos] lie in [[-1, 1]]; and no
    primitive leaves the finite numbers. *)
Theorem solve_total :
  forall (config : option Config.t) (target : Position),
    let this := IKSolver.constructor config in
    let r := reach this target in
    IKSolver.minReach this + 0.01 <= r /\
    0 < r /\
    -2 * IKSolver.lowerArmLength this * IKSolver.upperArmLength this <> 0 /\
    2 * IKSolver.lowerArmLength this * r <> 0 /\
    -1 <= Math.max (-1) (Math.min 1 (elbow_cosine this r)) <= 1 /\
    -1 <= Math.max (-1) (Math.min 1 (shoulder_cosine this r)) <= 1 /\
    exists res,
      IKSolver.solve this target = Some res /\
      reachDistance res = r.
Proof.
  intros config target this r.
  pose proof (constructor_constructed config) as Hthis. fold this in Hthis.
  pose proof (constructed_reach_pos this Hthis target) as Hr. fold r in Hr.
  split; [apply clamp_lower|]. split; [exact Hr|].
  destruct Hthis as (HL & HU & _).
  split.
  { repeat apply Rmult_integral_contrapositive_currified;
      try assumption; lra. }
  split.
  { repeat apply Rmult_integral_contrapositive_currified;
      try assumption; lra. }
  split; [apply (clamp_between (-1) 1); lra|].
  split; [apply (clamp_between (-1) 1); lra|].
  eexists. split;
    [apply solve_constructed, constructor_constructed | reflexivity].
Qed.

(** On the default arm the binary64 arithmetic behaves as the exact
    one: for the target [(0, 4, 20)] both arguments handed to
    [Math.acos] are cosines. *)
Lemma solve_default_arm_binary64 :
  F64.is_cosine
    (fst (F64.solve_acos_arguments F64.default_arm F64.target_0_4_20)) = true /\
  F64.is_cosine
    (snd (F64.solve_acos_arguments F64.default_arm F64.target_0_4_20)) = true.
Proof. vm_compute. split; reflexivity. Qed.

(** C8 as stated fails over binary64 numbers.  With
    [{lowerArmLength: 1e200, upperArmLength: 1e200}] and the target
    [(0, 4, 20)] all inputs are finite and the lengths are positive, but
    the squares of the lengths and their product overflow:
    [cosElbowAngle] is [-Infinity / -Infinity] and the numerator of
    [cosShoulderOffset] is [Infinity - Infinity].  Both arguments handed
    to [Math.acos] are [NaN]; [Math.max] and [Math.min] do not clamp a
    [NaN]. *)
Lemma solve_overflow_nan :
  F64.is_positive (F64.lowerArmLength F64.huge_arm) = true /\
  F64.is_positive (F64.upperArmLength F64.huge_arm) = true /\
  F64.is_finite_position F64.target_0_4_20 = true /\
  PrimFloat.is_nan
    (fst (F64.solve_acos_arguments F64.huge_arm F64.target_0_4_20)) = true /\
  PrimFloat.is_nan
    (snd (F64.solve_acos_arguments F64.huge_arm F64.target_0_4_20)) = true.
Proof. vm_compute. repeat split; reflexivity. Qed.

(* ================================================================= *)
(** ** Ranges of the solved angles *)

(** [atan2] of a point of the right half plane. *)
Lemma atan2_right_half_plane v u :
  0 <= u -> - (PI / 2) <= Math.atan2 v u <= PI / 2.
Proof.
  intros Hu. pose proof PI_RGT_0 as Hpi. unfold Math.atan2.
  destruct (Rlt_dec 0 u) as [H|H].
  - pose proof (atan_bound (v / u)). lra.
  - destruct (Rlt_dec u 0); [lra|].
    destruct (Rlt_dec 0 v); [|destruct (Rlt_dec v 0)]; lra.
Qed.

Lemma horizontal_distance_nonneg target : 0 <= horizontal_distance target.
Proof. apply sqrt_pos. Qed.

(** X1.  Whatever the target, the angles [solve] returns lie in fixed
    ranges: [base] in [(-PI, PI]], [shoulder] in [[-PI, PI]] and
    [elbow] in [[0, PI]]; the elbow always bends to the same side. *)
Theorem solve_angle_ranges :
  forall (config : option Config.t) (target : Position),
    exists res,
      IKSolver.solve (IKSolver.constructor config) target = Some res /\
      - PI < base res <= PI /\
      - PI <= shoulder res <= PI /\
      0 <= elbow res <= PI.
Proof.
  intros config target.
  eexists. split; [apply solve_constructed, constructor_constructed|].
  cbn [base shoulder elbow angles].
  split; [apply atan2_range|].
  set (this := IKSolver.constructor config).
  pose proof (atan2_right_half_plane (vertical_distance this target)
                (horizontal_distance target)
                (horizontal_distance_nonneg target)) as Ht.
  pose proof (acos_bound
    (clamp (-1) 1 (shoulder_cosine this (reach this target)))) as Hs.
  pose proof (acos_bound
    (clamp (-1) 1 (elbow_cosine this (reach this target)))) as He.
  split; lra.
Qed.

(* ================================================================= *)
(** ** The clamp keeps the elbow away from its two singular poses *)

Lemma reach_between this target :
  reach_lo this <= reach_hi this ->
  reach_lo this <= reach this target <= reach_hi this.
Proof. intros H. apply clamp_between. exact H. Qed.

Lemma elbow_quotient_strict L U r :
  0 < L -> 0 < U -> Rabs (L - U) < r -> r < L + U ->
  -1 < elbow_quotient L U r < 1.
Proof.
  intros HL HU Hlo Hhi.
  assert (- r < L - U < r) as Hs
    by (revert Hlo; unfold Rabs; destruct (Rcase_abs (L - U)); lra).
  assert (0 < L * U) as Hk by (apply Rmult_lt_0_compat; assumption).
  assert (elbow_quotient L U r * (2 * (L * U)) = L * L + U * U - r * r) as E
    by (unfold elbow_quotient; field; lra).
  split; nra.
Qed.

(** X2.  On a geometry with positive link lengths and
    [minReach + 0.01 <= maxReach * 0.999], the elbow angle [solve]
    returns is strictly between [0] and [PI] for every target: the arm
    is never solved fully straight nor fully folded. *)
Theorem solve_elbow_never_singular :
  forall (config : option Config.t) (target : Position),
    let this := IKSolver.constructor config in
    0 < IKSolver.lowerArmLength this ->
    0 < IKSolver.upperArmLength this ->
    IKSolver.minReach this + 0.01 <= IKSolver.maxReach this * 0.999 ->
    exists res,
      IKSolver.solve this target = Some res /\
      0 < elbow res < PI.
Proof.
  intros config target this HL HU Hgeo.
  pose proof (constructor_constructed config) as Hthis. fold this in Hthis.
  destruct (reach_between this target Hgeo) as [Hlo Hhi].
  unfold reach_lo in Hlo. unfold reach_hi in Hhi.
  eexists. split; [apply solve_constructed; exact Hthis|].
  cbn [elbow angles].
  destruct Hthis as (_ & _ & Emax & Emin). rewrite Emin in Hlo.
  rewrite Emax in Hhi.
  assert (-1 < elbow_cosine this (reach this target) < 1) as Hq
    by (apply elbow_quotient_strict; lra).
  rewrite clamp_inside by lra.
  pose proof (acos_bound_lt _ Hq). lra.
Qed.

(** The default arm and the target [(0, 4, 30)], far out of reach. *)
Lemma solve_elbow_never_singular_witness :
  exists res,
    IKSolver.solve (IKSolver.constructor None) (mkPosition 0 4 30) = Some res /\
    0 < elbow res < PI.
Proof.
  apply (solve_elbow_never_singular None (mkPosition 0 4 30));
    fold default_arm; default_arm_arith.
Defined.

(* ================================================================= *)
(** ** [isAtLimit] against [isReachable] *)

Lemma isReachable_false_far this target :
  IKSolver.maxReach this < planar_distance this target ->
  IKSolver.isReachable this target = Some false.
Proof.
  intros H. rewrite isReachable_eq. f_equal.
  apply andb_false_iff. right.
  unfold JS.le. destruct (Rle_dec _ _); [lra | reflexivity].
Qed.

(** X3.  On a geometry with [maxReach > 0]: every target beyond
    [maxReach], which [isReachable] rejects, is flagged by [solve] with
    [isAtLimit = true]; and the flag is also raised for the targets of
    the band [maxReach * 0.999 < distance <= maxReach], which
    [isReachable] accepts.  So [isAtLimit] does not mean unreachable. *)
Theorem isAtLimit_against_isReachable :
  forall (config : option Config.t) (target : Position),
    let this := IKSolver.constructor config in
    0 < IKSolver.maxReach this ->
    IKSolver.maxReach this * 0.999 < planar_distance this target ->
    exists res,
      IKSolver.solve this target = Some res /\
      isAtLimit res = true /\
      (IKSolver.maxReach this < planar_distance this target ->
       IKSolver.isReachable this target = Some false) /\
      (IKSolver.minReach this <= planar_distance this target ->
       planar_distance this target <= IKSolver.maxReach this ->
       IKSolver.isReachable this target = Some true).
Proof.
  intros config target this Hmax Hd.
  eexists. split; [apply solve_constructed, constructor_constructed|].
  cbn [isAtLimit]. fold this.
  split; [apply gt_true; exact Hd|].
  split; [apply isReachable_false_far | apply isReachable_true].
Qed.

(** The default arm: [(0, 4, 30)] is out of reach and flagged;
    [(0, 4, 22)] is reachable and flagged. *)
Lemma isAtLimit_against_isReachable_witness :
  (exists res,
     IKSolver.solve default_arm (mkPosition 0 4 30) = Some res /\
     isAtLimit res = true /\
     IKSolver.isReachable default_arm (mkPosition 0 4 30) = Some false) /\
  (exists res,
     IKSolver.solve default_arm (mkPosition 0 4 22) = Some res /\
     isAtLimit res = true /\
     IKSolver.isReachable default_arm (mkPosition 0 4 22) = Some true).
Proof.
  assert (planar_distance default_arm (mkPosition 0 4 30) = 30) as E30
    by (apply default_arm_distance_ahead; lra).
  assert (planar_distance default_arm (mkPosition 0 4 22) = 22) as E22
    by (apply default_arm_distance_ahead; lra).
  split.
  - destruct (isAtLimit_against_isReachable None (mkPosition 0 4 30))
      as (res & Hs & Hl & Hfar & _); fold default_arm.
    + default_arm_arith.
    + rewrite E30. default_arm_arith.
    + exists res. split; [exact Hs|]. split; [exact Hl|].
      fold default_arm in Hfar. apply Hfar. rewrite E30. default_arm_arith.
  - destruct (isAtLimit_against_isReachable None (mkPosition 0 4 22))
      as (res & Hs & Hl & _ & Hin); fold default_arm.
    + default_arm_arith.
    + rewrite E22. default_arm_arith.
    + exists res. split; [exact Hs|]. split; [exact Hl|].
      fold default_arm in Hin. apply Hin; rewrite E22; default_arm_arith.
Defined.

(* ================================================================= *)
(** ** Every pose stays in the workspace shell *)

(** Squared distance of the end effector of the scene from the shoulder
    pivot: the law of cosines, with the elbow angle the deviation from
    straight. *)
Lemma endEffector_distance cfg a :
  let p := SceneManager.endEffector cfg a in
  x p * x p + z p * z p +
  (y p - SceneManager.baseHeight cfg) * (y p - SceneManager.baseHeight cfg)
  = SceneManager.lowerArmLength cfg * SceneManager.lowerArmLength cfg +
    SceneManager.upperArmLength cfg * SceneManager.upperArmLength cfg +
    2 * SceneManager.lowerArmLength cfg * SceneManager.upperArmLength cfg *
    cos (elbow a).
Proof.
  cbv zeta. rewrite endEffector_eq. cbv zeta. cbn [x y z].
  rewrite sin_plus, cos_plus.
  set (L := SceneManager.lowerArmLength cfg).
  set (U := SceneManager.upperArmLength cfg).
  set (H := SceneManager.baseHeight cfg).
  pose proof (sin2_cos2 (base a)) as Hb.
  pose proof (sin2_cos2 (shoulder a)) as Hs.
  pose proof (sin2_cos2 (elbow a)) as He.
  unfold Rsqr in Hb, Hs, He.
  set (sb := sin (base a)) in *. set (cb := cos (base a)) in *.
  set (ss := sin (shoulder a)) in *. set (cs := cos (shoulder a)) in *.
  set (se := sin (elbow a)) in *. set (ce := cos (elbow a)) in *.
  set (A := L * ss + U * (ss * ce + cs * se)).
  set (B := L * cs + U * (cs * ce - ss * se)).
  replace (A * sb * (A * sb) + A * cb * (A * cb) + (B + H - H) * (B + H - H))
    with (A * A * (sb * sb + cb * cb) + B * B) by ring.
  rewrite Hb.
  replace (A * A * 1 + B * B)
    with ((L * L + 2 * L * U * ce) * (ss * ss + cs * cs) +
          U * U * (ss * ss + cs * cs) * (se * se + ce * ce))
    by (unfold A, B; ring).
  rewrite Hs, He. ring.
Qed.

Lemma forward_as_endEffector this a :
  IKSolver.forward this a =
  SceneManager.endEffector
    (SceneManager.mkArmConfig (IKSolver.baseHeight this)
       (IKSolver.lowerArmLength this) (- IKSolver.upperArmLength this)) a.
Proof.
  rewrite forward_eq, endEffector_eq. cbv zeta.
  cbn [SceneManager.lowerArmLength SceneManager.upperArmLength
       SceneManager.baseHeight].
  f_equal; ring.
Qed.

(** A side of length [sqrt (L² + U² + 2 L U c)], for a cosine [c], lies
    between [|L - U|] and [L + U]. *)
Lemma shell_bounds L U c :
  0 <= L -> 0 <= U -> -1 <= c <= 1 ->
  Rabs (L - U) <= sqrt (L * L + U * U + 2 * L * U * c) <= L + U.
Proof.
  intros HL HU Hc.
  assert (0 <= L * U) as Hk by (apply Rmult_le_pos; assumption).
  split.
  - rewrite <- sqrt_Rsqr_abs. apply sqrt_le_1_alt. unfold Rsqr. nra.
  - rewrite <- (sqrt_square (L + U)) by lra. apply sqrt_le_1_alt. nra.
Qed.

(** X4.  On a geometry with positive link lengths, the position
    [forward] returns lies, for any angles, at distance
    [sqrt (L² + U² - 2 L U cos elbow)] from the shoulder pivot, which
    depends on the elbow angle only.  [forward] reads [elbow = 0] as
    the folded arm, at distance [minReach], and [elbow = PI] as the
    straight arm, at distance [maxReach]. *)
Theorem forward_distance_by_elbow :
  forall (config : option Config.t) (a : JointAngles),
    let this := IKSolver.constructor config in
    let L := IKSolver.lowerArmLength this in
    let U := IKSolver.upperArmLength this in
    0 < L -> 0 < U ->
    planar_distance this (IKSolver.forward this a)
      = sqrt (L * L + U * U - 2 * L * U * cos (elbow a)) /\
    (elbow a = 0 ->
     planar_distance this (IKSolver.forward this a)
       = IKSolver.minReach this) /\
    (elbow a = PI ->
     planar_distance this (IKSolver.forward this a)
       = IKSolver.maxReach this).
Proof.
  intros config a this L U HL HU.
  assert (planar_distance this (IKSolver.forward this a)
          = sqrt (L * L + U * U - 2 * L * U * cos (elbow a))) as Ed.
  { unfold planar_distance. rewrite forward_as_endEffector.
    pose proof (endEffector_distance
      (SceneManager.mkArmConfig (IKSolver.baseHeight this) L (- U)) a) as E.
    cbv zeta in E.
    cbn [SceneManager.lowerArmLength SceneManager.upperArmLength
         SceneManager.baseHeight] in E.
    fold L U. rewrite E. f_equal. ring. }
  destruct (constructor_constructed config) as (_ & _ & Emax & Emin).
  fold this in Emax, Emin. fold L U in Emax, Emin.
  split; [exact Ed|]. split; intros He; rewrite Ed, He.
  - rewrite cos_0, Emin.
    replace (L * L + U * U - 2 * L * U * 1) with (Rsqr (L - U))
      by (unfold Rsqr; ring).
    apply sqrt_Rsqr_abs.
  - rewrite cos_PI, Emax.
    replace (L * L + U * U - 2 * L * U * -1) with ((L + U) * (L + U))
      by ring.
    apply sqrt_square. lra.
Qed.

(** The default arm: [forward] of all-zero angles is the folded arm, at
    distance [minReach] from the shoulder pivot. *)
Lemma forward_distance_by_elbow_witness :
  planar_distance (IKSolver.constructor None)
    (IKSolver.forward (IKSolver.constructor None) (mkJointAngles 0 0 0))
  = IKSolver.minReach (IKSolver.constructor None).
Proof.
  apply (forward_distance_by_elbow None (mkJointAngles 0 0 0));
    fold default_arm; try default_arm_arith. reflexivity.
Defined.

(** X5.  The end effector of the scene, for an arm built with the
    lengths of the solver (both positive) and any angles, lies at
    distance [sqrt (L² + U² + 2 L U cos elbow)] from the shoulder pivot;
    [isReachable] accepts it. *)
Theorem endEffector_within_workspace :
  forall (config : option Config.t) (a : JointAngles),
    let this := IKSolver.constructor config in
    let L := IKSolver.lowerArmLength this in
    let U := IKSolver.upperArmLength this in
    0 < L -> 0 < U ->
    planar_distance this (SceneManager.endEffector (arm_of this) a)
      = sqrt (L * L + U * U + 2 * L * U * cos (elbow a)) /\
    IKSolver.isReachable this (SceneManager.endEffector (arm_of this) a)
      = Some true.
Proof.
  intros config a this L U HL HU.
  assert (planar_distance this (SceneManager.endEffector (arm_of this) a)
          = sqrt (L * L + U * U + 2 * L * U * cos (elbow a))) as Ed.
  { unfold planar_distance.
    pose proof (endEffector_distance (arm_of this) a) as E.
    cbv zeta in E.
    cbn [arm_of SceneManager.lowerArmLength SceneManager.upperArmLength
         SceneManager.baseHeight] in E.
    fold L U in E. cbn [arm_of]. fold L U. rewrite E. reflexivity. }
  pose proof (COS_bound (elbow a)) as Hc.
  destruct (shell_bounds L U (cos (elbow a))) as [Hlo Hhi]; try lra.
  destruct (constructor_constructed config) as (_ & _ & Emax & Emin).
  fold this in Emax, Emin. fold L U in Emax, Emin.
  split; [exact Ed|].
  apply isReachable_true; rewrite Ed; [rewrite Emin | rewrite Emax];
    assumption.
Qed.

(** The arm of the scene ([ARM_CONFIG]), straight up. *)
Lemma endEffector_within_workspace_witness :
  IKSolver.isReachable (IKSolver.constructor None)
    (SceneManager.endEffector (arm_of (IKSolver.constructor None))
       (mkJointAngles 0 0 0))
  = Some true.
Proof.
  apply (endEffector_within_workspace None (mkJointAngles 0 0 0));
    fold default_arm; default_arm_arith.
Defined.

(* ================================================================= *)
(** ** [forward] after [solve], with the elbow measured from folded *)

Lemma forward_elbow_plus_PI this a :
  IKSolver.forward this
    (mkJointAngles (base a) (shoulder a) (elbow a + PI))
  = SceneManager.endEffector (arm_of this) a.
Proof.
  rewrite forward_eq, endEffector_eq. cbv zeta.
  cbn [base shoulder elbow arm_of SceneManager.lowerArmLength
       SceneManager.upperArmLength SceneManager.baseHeight].
  replace (shoulder a + (elbow a + PI)) with (shoulder a + elbow a + PI)
    by ring.
  rewrite neg_sin, neg_cos. f_equal; ring.
Qed.

(** X6.  [forward] reads its elbow argument as the angle from the folded
    arm: for any angles, [forward] of [elbow + PI] is the end effector
    that the scene shows for [elbow].  Hence, for positive link lengths
    and a target with [minReach + 0.01 <= distance <= maxReach * 0.999],
    [forward] applied to the result of [solve] with [PI] added to its
    elbow returns the target exactly. *)
Theorem forward_round_trip_elbow_plus_PI :
  forall (config : option Config.t) (target : Position),
    let this := IKSolver.constructor config in
    0 < IKSolver.lowerArmLength this ->
    0 < IKSolver.upperArmLength this ->
    IKSolver.minReach this + 0.01 <= planar_distance this target ->
    planar_distance this target <= IKSolver.maxReach this * 0.999 ->
    (forall a,
       IKSolver.forward this
         (mkJointAngles (base a) (shoulder a) (elbow a + PI))
       = SceneManager.endEffector (arm_of this) a) /\
    exists res,
      IKSolver.solve this target = Some res /\
      IKSolver.forward this
        (mkJointAngles (base res) (shoulder res) (elbow res + PI))
      = target.
Proof.
  intros config target this HL HU Hlo Hhi.
  split; [intros a; apply forward_elbow_plus_PI|].
  pose proof (constructor_constructed config) as Hthis. fold this in Hthis.
  pose proof (constructed_minReach_nonneg this Hthis) as Hmin.
  assert (reach this target = planar_distance this target) as Er
    by (apply clamp_inside; unfold reach_lo, reach_hi; lra).
  assert (IKSolver.maxReach this * 0.999 <= IKSolver.maxReach this) as Hmax.
  { destruct Hthis as (_ & _ & -> & _). lra. }
  destruct (solve_endEffector this target Hthis HL HU) as (res & Hs & Hr & He).
  - rewrite Er. lra.
  - lra.
  - exists res. split; [exact Hs|].
    rewrite (forward_elbow_plus_PI this res), He, Er. cbv zeta.
    destruct target as [tx ty tz]; cbn [x y z].
    f_equal; field; lra.
Qed.

(** The default arm and the target [(0, 4, 20)]. *)
Lemma forward_round_trip_elbow_plus_PI_witness :
  exists res,
    IKSolver.solve (IKSolver.constructor None) (mkPosition 0 4 20) = Some res /\
    IKSolver.forward (IKSolver.constructor None)
      (mkJointAngles (base res) (shoulder res) (elbow res + PI))
    = mkPosition 0 4 20.
Proof.
  assert (planar_distance default_arm (mkPosition 0 4 20) = 20) as Ed
    by (apply default_arm_distance_ahead; lra).
  apply (forward_round_trip_elbow_plus_PI None (mkPosition 0 4 20));
    fold default_arm; rewrite ?Ed; default_arm_arith.
Defined.

(* ================================================================= *)
(** ** A farther target straightens the arm *)

Lemma acos_decreasing c1 c2 :
  -1 <= c1 -> c1 <= c2 -> c2 <= 1 -> acos c2 <= acos c1.
Proof.
  intros H1 H12 H2.
  destruct (Rle_dec (acos c2) (acos c1)) as [|Hn]; [assumption|exfalso].
  pose proof (acos_bound c1) as [? ?]. pose proof (acos_bound c2) as [? ?].
  assert (cos (acos c2) < cos (acos c1)) as Hd
    by (apply cos_decreasing_1; lra).
  rewrite !cos_acos in Hd by lra. lra.
Qed.

Lemma clamp_monotone lo hi v1 v2 :
  v1 <= v2 -> clamp lo hi v1 <= clamp lo hi v2.
Proof.
  intros H. unfold clamp, Rmax, Rmin.
  destruct (Rle_dec hi v1); destruct (Rle_dec hi v2);
    repeat destruct (Rle_dec lo _); lra.
Qed.

Lemma elbow_quotient_decreasing L U r1 r2 :
  0 < L -> 0 < U -> 0 <= r1 -> r1 <= r2 ->
  elbow_quotient L U r2 <= elbow_quotient L U r1.
Proof.
  intros HL HU H1 H12.
  assert (0 < L * U) as Hk by (apply Rmult_lt_0_compat; assumption).
  assert (elbow_quotient L U r1 * (2 * (L * U)) = L * L + U * U - r1 * r1)
    as E1 by (unfold elbow_quotient; field; lra).
  assert (elbow_quotient L U r2 * (2 * (L * U)) = L * L + U * U - r2 * r2)
    as E2 by (unfold elbow_quotient; field; lra).
  nra.
Qed.

(** X7.  On a geometry with positive link lengths, the elbow angle of
    [solve] is monotone in the distance of the target from the shoulder
    pivot: a target that is at least as far is solved with an elbow
    that is bent at most as much. *)
Theorem solve_elbow_monotone :
  forall (config : option Config.t) (near far : Position),
    let this := IKSolver.constructor config in
    0 < IKSolver.lowerArmLength this ->
    0 < IKSolver.upperArmLength this ->
    planar_distance this near <= planar_distance this far ->
    exists res_near res_far,
      IKSolver.solve this near = Some res_near /\
      IKSolver.solve this far = Some res_far /\
      elbow res_far <= elbow res_near.
Proof.
  intros config near far this HL HU Hd.
  pose proof (constructor_constructed config) as Hthis. fold this in Hthis.
  do 2 eexists. split; [apply solve_constructed; exact Hthis|].
  split; [apply solve_constructed; exact Hthis|].
  cbn [elbow angles].
  pose proof (constructed_reach_pos this Hthis near) as Hr.
  assert (reach this near <= reach this far) as Hrr
    by (apply clamp_monotone; exact Hd).
  assert (elbow_cosine this (reach this far)
          <= elbow_cosine this (reach this near)) as Hq
    by (apply elbow_quotient_decreasing; lra).
  pose proof (clamp_monotone (-1) 1 _ _ Hq) as Hc.
  pose proof (clamp_between (-1) 1 (elbow_cosine this (reach this far))
                ltac:(lra)) as [Hf1 Hf2].
  pose proof (clamp_between (-1) 1 (elbow_cosine this (reach this near))
                ltac:(lra)) as [Hn1 Hn2].
  pose proof (acos_decreasing _ _ Hf1 Hc Hn2). lra.
Qed.

(** The default arm: [(0, 4, 10)] against [(0, 4, 20)]. *)
Lemma solve_elbow_monotone_witness :
  exists res_near res_far,
    IKSolver.solve (IKSolver.constructor None) (mkPosition 0 4 10)
      = Some res_near /\
    IKSolver.solve (IKSolver.constructor None) (mkPosition 0 4 20)
      = Some res_far /\
    elbow res_far <= elbow res_near.
Proof.
  assert (planar_distance default_arm (mkPosition 0 4 10) = 10) as E10
    by (apply default_arm_distance_ahead; lra).
  assert (planar_distance default_arm (mkPosition 0 4 20) = 20) as E20
    by (apply default_arm_distance_ahead; lra).
  apply (solve_elbow_monotone None (mkPosition 0 4 10) (mkPosition 0 4 20));
    fold default_arm; rewrite ?E10, ?E20; default_arm_arith.
Defined.

(* ================================================================= *)
(** ** Mirror symmetry *)

Lemma atan2_opp v u :
  v <> 0 \/ 0 <= u -> Math.atan2 (- v) u = - Math.atan2 v u.
Proof.
  intros H. unfold Math.atan2.
  replace (- v / u) with (- (v / u)) by (unfold Rdiv; ring).
  rewrite atan_opp.
  destruct (Rlt_dec 0 u); [reflexivity|].
  destruct (Rlt_dec u 0).
  - destruct (Rle_dec 0 (- v)); destruct (Rle_dec 0 v); lra.
  - destruct (Rlt_dec 0 (- v)); destruct (Rlt_dec (- v) 0);
      destruct (Rlt_dec 0 v); destruct (Rlt_dec v 0); lra.
Qed.

(** X8.  [solve] is symmetric about the plane [x = 0]: the mirrored
    target [(-x, y, z)] is solved with the same shoulder and elbow
    angles, the same [reachDistance] and [isAtLimit], and the opposite
    base angle.  The targets straight behind the base ([x = 0] and
    [z < 0], where [base = PI]) are the exception for the base angle. *)
Theorem solve_mirror_symmetry :
  forall (config : option Config.t) (tx ty tz : R),
    let this := IKSolver.constructor config in
    tx <> 0 \/ 0 <= tz ->
    exists res mirrored,
      IKSolver.solve this (mkPosition tx ty tz) = Some res /\
      IKSolver.solve this (mkPosition (- tx) ty tz) = Some mirrored /\
      base mirrored = - base res /\
      shoulder mirrored = shoulder res /\
      elbow mirrored = elbow res /\
      reachDistance mirrored = reachDistance res /\
      isAtLimit mirrored = isAtLimit res.
Proof.
  intros config tx ty tz this Hside.
  pose proof (constructor_constructed config) as Hthis. fold this in Hthis.
  assert (planar_distance this (mkPosition (- tx) ty tz)
          = planar_distance this (mkPosition tx ty tz)) as Ed.
  { unfold planar_distance; cbn [x y z]. f_equal. ring. }
  assert (horizontal_distance (mkPosition (- tx) ty tz)
          = horizontal_distance (mkPosition tx ty tz)) as Eh.
  { unfold horizontal_distance; cbn [x y z]. f_equal. ring. }
  do 2 eexists. split; [apply solve_constructed; exact Hthis|].
  split; [apply solve_constructed; exact Hthis|].
  cbn [base shoulder elbow reachDistance isAtLimit angles x z].
  unfold reach, vertical_distance. rewrite Ed, Eh. cbn [y].
  split; [apply atan2_opp; exact Hside|].
  repeat split; reflexivity.
Qed.

(** The default arm and the targets [(5, 10, 8)], [(-5, 10, 8)]. *)
Lemma solve_mirror_symmetry_witness :
  exists res mirrored,
    IKSolver.solve default_arm (mkPosition 5 10 8) = Some res /\
    IKSolver.solve default_arm (mkPosition (- 5) 10 8) = Some mirrored /\
    base mirrored = - base res /\
    shoulder mirrored = shoulder res /\
    elbow mirrored = elbow res.
Proof.
  destruct (solve_mirror_symmetry None 5 10 8)
    as (res & mirrored & H1 & H2 & Hb & Hs & He & _); [left; lra|].
  exists res, mirrored. repeat split; assumption.
Defined.

(* ================================================================= *)
(** ** How far the clamp moves a reachable target *)

Lemma coordinates_below_distance this target :
  Rabs (x target) <= planar_distance this target /\
  Rabs (y target - IKSolver.baseHeight this) <= planar_distance this target /\
  Rabs (z target) <= planar_distance this target.
Proof.
  unfold planar_distance. rewrite <- !sqrt_Rsqr_abs.
  pose proof (Rle_0_sqr (x target)) as Hx.
  pose proof (Rle_0_sqr (y target - IKSolver.baseHeight this)) as Hy.
  pose proof (Rle_0_sqr (z target)) as Hz.
  unfold Rsqr in *.
  repeat split; apply sqrt_le_1_alt; lra.
Qed.

Lemma clamp_cases lo hi v :
  lo <= hi ->
  (v < lo /\ clamp lo hi v = lo) \/
  (lo <= v <= hi /\ clamp lo hi v = v) \/
  (hi < v /\ clamp lo hi v = hi).
Proof.
  intros H. unfold clamp.
  destruct (Rlt_dec v lo) as [H1|H1]; [left|right].
  - split; [assumption|]. rewrite Rmin_right, Rmax_left by lra. reflexivity.
  - destruct (Rlt_dec hi v) as [H2|H2]; [right|left].
    + split; [assumption|]. rewrite Rmin_left, Rmax_right by lra. reflexivity.
    + split; [lra|]. rewrite Rmin_right, Rmax_right by lra. reflexivity.
Qed.

Lemma scaled_offset k d u e :
  0 < d -> Rabs u <= d -> Rabs (k * d - d) <= e -> Rabs (k * u - u) <= e.
Proof.
  intros Hd Hu He.
  replace (k * u - u) with ((k * d - d) * (u / d)) by (field; lra).
  rewrite Rabs_mult.
  assert (Rabs (u / d) <= 1) as H1.
  { unfold Rdiv. rewrite Rabs_mult, (Rabs_right (/ d)).
    - apply Rmult_le_reg_r with d; [assumption|].
      rewrite Rmult_assoc, Rinv_l by lra. lra.
    - left. apply Rinv_0_lt_compat. assumption. }
  pose proof (Rabs_pos (k * d - d)). nra.
Qed.

(** X9.  On a geometry with positive link lengths and
    [minReach + 0.01 <= maxReach * 0.999], for every target that
    [isReachable] accepts (and that is not the shoulder pivot itself),
    the distance [solve] works with differs from the true distance by at
    most [max (0.01, 0.001 * maxReach)], and the arm posed with the
    solved angles has its end effector within that bound of the target
    in every coordinate. *)
Theorem solve_accuracy_on_reachable :
  forall (config : option Config.t) (target : Position),
    let this := IKSolver.constructor config in
    let eps := Rmax 0.01 (0.001 * IKSolver.maxReach this) in
    0 < IKSolver.lowerArmLength this ->
    0 < IKSolver.upperArmLength this ->
    IKSolver.minReach this + 0.01 <= IKSolver.maxReach this * 0.999 ->
    IKSolver.isReachable this target = Some true ->
    0 < planar_distance this target ->
    exists res,
      IKSolver.solve this target = Some res /\
      Rabs (reachDistance res - planar_distance this target) <= eps /\
      within eps (SceneManager.endEffector (arm_of this) res) target.
Proof.
  intros config target this eps HL HU Hgeo Hreach Hd.
  pose proof (constructor_constructed config) as Hthis. fold this in Hthis.
  assert (IKSolver.minReach this <= planar_distance this target /\
          planar_distance this target <= IKSolver.maxReach this)
    as [Hmin Hmax].
  { rewrite isReachable_eq in Hreach.
    assert ((planar_distance this target >=? IKSolver.minReach this) &&
            (planar_distance this target <=? IKSolver.maxReach this) = true)
      as Hb by congruence.
    apply andb_true_iff in Hb. destruct Hb as [Hb1 Hb2].
    split; [apply ge_true | apply le_true]; assumption. }
  pose proof (constructed_minReach_nonneg this Hthis) as Hm0.
  assert (0 < IKSolver.maxReach this) as HM
    by (destruct Hthis as (_ & _ & -> & _); lra).
  destruct (reach_between this target Hgeo) as [Hlo Hhi].
  unfold reach_lo in Hlo. unfold reach_hi in Hhi.
  assert (Rabs (reach this target - planar_distance this target) <= eps)
    as Herr.
  { assert (0.01 <= eps /\ 0.001 * IKSolver.maxReach this <= eps) as [He1 He2]
      by (unfold eps; split; [apply Rmax_l | apply Rmax_r]).
    destruct (clamp_cases (reach_lo this) (reach_hi this)
                (planar_distance this target) Hgeo)
      as [[Hc Ec] | [[Hc Ec] | [Hc Ec]]];
      unfold reach; rewrite Ec; unfold reach_lo, reach_hi in *;
      unfold Rabs; destruct (Rcase_abs _); lra. }
  destruct (solve_endEffector this target Hthis HL HU) as (res & Hs & Hr & He).
  - lra.
  - exact Hd.
  - exists res. split; [exact Hs|]. split; [rewrite Hr; exact Herr|].
    rewrite He. cbv zeta. unfold within; cbn [x y z].
    destruct (coordinates_below_distance this target) as (Hx & Hy & Hz).
    set (d := planar_distance this target) in *.
    set (k := reach this target / d).
    assert (Rabs (k * d - d) <= eps) as Hk.
    { replace (k * d - d) with (reach this target - d)
        by (unfold k; field; lra).
      exact Herr. }
    repeat split.
    + apply (scaled_offset k d); assumption.
    + replace (IKSolver.baseHeight this +
               k * (y target - IKSolver.baseHeight this) - y target)
        with (k * (y target - IKSolver.baseHeight this) -
              (y target - IKSolver.baseHeight this)) by ring.
      apply (scaled_offset k d); assumption.
    + apply (scaled_offset k d); assumption.
Qed.

(** The default arm and the reachable target [(0, 4, 22)]: the bound is
    [max (0.01, 0.022) = 0.022]. *)
Lemma solve_accuracy_on_reachable_witness :
  exists res,
    IKSolver.solve default_arm (mkPosition 0 4 22) = Some res /\
    within (Rmax 0.01 (0.001 * IKSolver.maxReach default_arm))
      (SceneManager.endEffector (arm_of default_arm) res)
      (mkPosition 0 4 22).
Proof.
  assert (planar_distance default_arm (mkPosition 0 4 22) = 22) as Ed
    by (apply default_arm_distance_ahead; lra).
  destruct (solve_accuracy_on_reachable None (mkPosition 0 4 22))
    as (res & Hs & _ & Hw); fold default_arm.
  - default_arm_arith.
  - default_arm_arith.
  - default_arm_arith.
  - apply isReachable_true; rewrite Ed; default_arm_arith.
  - rewrite Ed. lra.
  - exists res. split; assumption.
Defined.

(* ================================================================= *)
(** ** [HandTracker.mapToWorldSpace] *)

Lemma mapToWorldSpace_in_box_aux normalized scale :
  in_target_box (HandTracker.mapToWorldSpace normalized scale).
Proof.
  unfold in_target_box, HandTracker.mapToWorldSpace, Math.max, Math.min.
  cbn [x y z].
  repeat split;
    first [ apply (clamp_between (-15) 15) | apply (clamp_between 2 25)
          | apply (clamp_between (-5) 20) ]; lra.
Qed.

(** *** Over binary64 numbers *)

(** The comparison of two numbers, read from the other side. *)
Lemma SFcompare_antisym f1 f2 :
  SpecFloat.SFcompare f2 f1 = option_map CompOpp (SpecFloat.SFcompare f1 f2).
Proof.
  destruct f1 as [s1|s1| |s1 m1 e1], f2 as [s2|s2| |s2 m2 e2];
    cbn; try reflexivity;
    try (destruct s1; reflexivity); try (destruct s2; reflexivity);
    try (destruct s1, s2; reflexivity).
  assert (Pos.compare_cont Eq m2 m1 = CompOpp (Pos.compare_cont Eq m1 m2))
    as Em by (rewrite Pos.compare_cont_antisym; reflexivity).
  destruct s1, s2; cbn; try reflexivity;
    rewrite (Z.compare_antisym e1 e2);
    destruct (e1 ?= e2)%Z; cbn; try reflexivity;
    rewrite Em; try reflexivity.
Qed.

Lemma is_nan_false a :
  PrimFloat.is_nan a = false ->
  SpecFloat.SFcompare (FloatOps.Prim2SF a) (FloatOps.Prim2SF a) = Some Eq.
Proof.
  unfold PrimFloat.is_nan. rewrite FloatAxioms.eqb_spec.
  unfold SpecFloat.SFeqb.
  destruct (SpecFloat.SFcompare _ _) as [[]|]; cbn; congruence.
Qed.

(** Two numbers that are not [NaN] compare. *)
Lemma SFcompare_Some f1 f2 :
  SpecFloat.SFcompare f1 f1 = Some Eq ->
  SpecFloat.SFcompare f2 f2 = Some Eq ->
  SpecFloat.SFcompare f1 f2 <> None.
Proof.
  destruct f1 as [s1|s1| |s1 m1 e1], f2 as [s2|s2| |s2 m2 e2];
    cbn; congruence.
Qed.

Lemma ltb_leb a b :
  PrimFloat.ltb a b = true -> PrimFloat.leb a b = true.
Proof.
  rewrite FloatAxioms.ltb_spec, FloatAxioms.leb_spec.
  unfold SpecFloat.SFltb, SpecFloat.SFleb.
  destruct (SpecFloat.SFcompare _ _) as [[]|]; congruence.
Qed.

Lemma leb_refl a : PrimFloat.is_nan a = false -> PrimFloat.leb a a = true.
Proof.
  intros H. rewrite FloatAxioms.leb_spec. unfold SpecFloat.SFleb.
  rewrite (is_nan_false a H). reflexivity.
Qed.

Lemma not_ltb_leb a b :
  PrimFloat.is_nan a = false -> PrimFloat.is_nan b = false ->
  PrimFloat.ltb a b = false -> PrimFloat.leb b a = true.
Proof.
  intros Ha Hb. rewrite FloatAxioms.ltb_spec, FloatAxioms.leb_spec.
  unfold SpecFloat.SFltb, SpecFloat.SFleb.
  rewrite (SFcompare_antisym (FloatOps.Prim2SF a) (FloatOps.Prim2SF b)).
  pose proof (SFcompare_Some _ _ (is_nan_false a Ha) (is_nan_false b Hb)).
  destruct (SpecFloat.SFcompare _ _) as [[]|]; cbn; congruence.
Qed.

(** [Math.max (lo, Math.min (hi, v))] does not clamp a [NaN]. *)
Lemma F64_clamp_nan lo hi v :
  PrimFloat.is_nan v = true ->
  PrimFloat.is_nan (F64.max lo (F64.min hi v)) = true.
Proof.
  intros Hv. unfold F64.min. rewrite Hv, orb_true_r.
  unfold F64.max.
  replace (PrimFloat.is_nan PrimFloat.nan) with true by reflexivity.
  rewrite orb_true_r. reflexivity.
Qed.

(** It clamps every other number, the infinities included. *)
Lemma F64_clamp_between lo hi v :
  PrimFloat.is_nan lo = false -> PrimFloat.is_nan hi = false ->
  PrimFloat.leb lo hi = true ->
  PrimFloat.is_nan v = false ->
  PrimFloat.is_nan (F64.max lo (F64.min hi v)) = false /\
  PrimFloat.leb lo (F64.max lo (F64.min hi v)) = true /\
  PrimFloat.leb (F64.max lo (F64.min hi v)) hi = true.
Proof.
  intros Hlo Hhi Hle Hv.
  assert (exists m, F64.min hi v = m /\ PrimFloat.is_nan m = false /\
                    PrimFloat.leb m hi = true) as (m & Em & Hm & Hmhi).
  { unfold F64.min. rewrite Hhi, Hv. cbn [orb].
    destruct (PrimFloat.ltb hi v) eqn:E1.
    - exists hi. auto using leb_refl.
    - destruct (PrimFloat.ltb v hi) eqn:E2.
      + exists v. auto using ltb_leb.
      + destruct (PrimFloat.get_sign hi).
        * exists hi. auto using leb_refl.
        * exists v. auto using not_ltb_leb. }
  rewrite Em. unfold F64.max. rewrite Hlo, Hm. cbn [orb].
  destruct (PrimFloat.ltb lo m) eqn:E1.
  - auto using ltb_leb.
  - destruct (PrimFloat.ltb m lo) eqn:E2.
    + auto using leb_refl.
    + destruct (PrimFloat.get_sign lo).
      * auto using not_ltb_leb.
      * auto using leb_refl.
Qed.

(** Both cases, for one coordinate. *)
Lemma F64_clamp_cases lo hi v :
  PrimFloat.is_nan lo = false -> PrimFloat.is_nan hi = false ->
  PrimFloat.leb lo hi = true ->
  PrimFloat.is_nan (F64.max lo (F64.min hi v)) = PrimFloat.is_nan v /\
  (PrimFloat.is_nan v = false ->
   (PrimFloat.leb lo (F64.max lo (F64.min hi v)) &&
    PrimFloat.leb (F64.max lo (F64.min hi v)) hi) = true).
Proof.
  intros Hlo Hhi Hle. destruct (PrimFloat.is_nan v) eqn:Hv.
  - split; [apply F64_clamp_nan; exact Hv | discriminate].
  - destruct (F64_clamp_between lo hi v Hlo Hhi Hle Hv) as (Hn & H1 & H2).
    split; [exact Hn|]. intros _. rewrite H1, H2. reflexivity.
Qed.

(** X10.  Over binary64 numbers, whatever the normalized position and
    the scale ([NaN] and the infinities included): a coordinate that
    [mapToWorldSpace] returns is [NaN] exactly when the product it
    clamps is [NaN], and otherwise it lies between the bounds of the
    box [[-15, 15] x [2, 25] x [-5, 20]].  A product is [NaN] for the
    landmark [x = 1e308] at scale [0]: [(0.5 - 1e308) * 20] overflows
    and [-Infinity * 0] is [NaN]. *)
Theorem mapToWorldSpace_nan_or_in_box :
  (forall (normalized : F64.Position) (scale : option PrimFloat.float),
     let raw := F64.unclamped normalized scale in
     let world := F64.mapToWorldSpace normalized scale in
     (PrimFloat.is_nan (F64.x world) = PrimFloat.is_nan (F64.x raw) /\
      PrimFloat.is_nan (F64.y world) = PrimFloat.is_nan (F64.y raw) /\
      PrimFloat.is_nan (F64.z world) = PrimFloat.is_nan (F64.z raw)) /\
     (PrimFloat.is_nan (F64.x raw) = false ->
      F64.in_x_range (F64.x world) = true) /\
     (PrimFloat.is_nan (F64.y raw) = false ->
      F64.in_y_range (F64.y world) = true) /\
     (PrimFloat.is_nan (F64.z raw) = false ->
      F64.in_z_range (F64.z world) = true)) /\
  PrimFloat.is_nan
    (F64.x (F64.mapToWorldSpace F64.far_landmark F64.zero_scale)) = true.
Proof.
  split; [|vm_compute; reflexivity].
  intros normalized scale raw world.
  unfold world, raw, F64.mapToWorldSpace, F64.unclamped,
    F64.in_x_range, F64.in_y_range, F64.in_z_range.
  cbv zeta. cbn [F64.x F64.y F64.z].
  match goal with
  | |- context [F64.max ?lo (F64.min ?hi ?v)] =>
      destruct (F64_clamp_cases lo hi v) as [Hx1 Hx2];
      [reflexivity | reflexivity | reflexivity |];
      revert Hx1 Hx2;
      generalize (F64.max lo (F64.min hi v)); generalize v;
      intros vx rx Hx1 Hx2
  end.
  match goal with
  | |- context [F64.max ?lo (F64.min ?hi ?v)] =>
      destruct (F64_clamp_cases lo hi v) as [Hy1 Hy2];
      [reflexivity | reflexivity | reflexivity |];
      revert Hy1 Hy2;
      generalize (F64.max lo (F64.min hi v)); generalize v;
      intros vy ry Hy1 Hy2
  end.
  match goal with
  | |- context [F64.max ?lo (F64.min ?hi ?v)] =>
      destruct (F64_clamp_cases lo hi v) as [Hz1 Hz2];
      [reflexivity | reflexivity | reflexivity |];
      revert Hz1 Hz2;
      generalize (F64.max lo (F64.min hi v)); generalize v;
      intros vz rz Hz1 Hz2
  end.
  repeat split; assumption.
Qed.

(** Read [Math.max (lo, Math.min (hi, v))] as [clamp]. *)
Ltac fold_clamp :=
  unfold Math.max, Math.min;
  repeat match goal with
         | |- context [Rmax ?lo (Rmin ?hi ?v)] =>
             change (Rmax lo (Rmin hi v)) with (clamp lo hi v)
         end.

Lemma clamp_above lo hi v : lo <= hi -> hi <= v -> clamp lo hi v = hi.
Proof.
  intros H Hv. unfold clamp. rewrite Rmin_left, Rmax_right by lra.
  reflexivity.
Qed.

Lemma clamp_below lo hi v : lo <= hi -> v <= lo -> clamp lo hi v = lo.
Proof.
  intros H Hv. unfold clamp. rewrite Rmin_right, Rmax_left by lra.
  reflexivity.
Qed.

(** X11.  At the default scale [1.5] the map is affine where it does
    not clamp, and it saturates outside: a hand anywhere across the
    width of the image ([0 <= x <= 1]) gives [15 - 30 x]; the height is
    [30 - 30 y] for [1/6 <= y <= 14/15], [25] above that band of the
    image and [2] below it; the depth is [10 - 30 z] for
    [-1/3 <= z <= 1/2], [20] for a nearer hand and [-5] for a farther
    one. *)
Theorem mapToWorldSpace_default_scale :
  forall (normalized : Position),
    let world := HandTracker.mapToWorldSpace normalized None in
    world = HandTracker.mapToWorldSpace normalized (Some 1.5) /\
    (0 <= x normalized <= 1 -> x world = 15 - 30 * x normalized) /\
    (1 / 6 <= y normalized <= 14 / 15 -> y world = 30 - 30 * y normalized) /\
    (y normalized <= 1 / 6 -> y world = 25) /\
    (14 / 15 <= y normalized -> y world = 2) /\
    (-1 / 3 <= z normalized <= 1 / 2 -> z world = 10 - 30 * z normalized) /\
    (z normalized <= -1 / 3 -> z world = 20) /\
    (1 / 2 <= z normalized -> z world = -5).
Proof.
  intros normalized world. unfold world, HandTracker.mapToWorldSpace.
  cbn [x y z]. fold_clamp.
  split; [reflexivity|].
  split; [intros H; rewrite clamp_inside; lra|].
  split; [intros H; rewrite clamp_inside; lra|].
  split; [intros H; apply clamp_above; lra|].
  split; [intros H; apply clamp_below; lra|].
  split; [intros H; rewrite clamp_inside; lra|].
  split; [intros H; apply clamp_above; lra | intros H; apply clamp_below; lra].
Qed.

(** A hand in the middle of the image, at depth [0]: the target is
    [(0, 15, 10)]. *)
Lemma mapToWorldSpace_default_scale_witness :
  let world := HandTracker.mapToWorldSpace (mkPosition 0.5 0.5 0) None in
  x world = 0 /\ y world = 15 /\ z world = 10.
Proof.
  intros world.
  destruct (mapToWorldSpace_default_scale (mkPosition 0.5 0.5 0))
    as (_ & Hx & Hy & _ & _ & Hz & _).
  fold world in Hx, Hy, Hz. cbn [x y z] in Hx, Hy, Hz.
  rewrite Hx, Hy, Hz by lra. repeat split; lra.
Defined.

Lemma clamp_opp b v : 0 <= b -> clamp (- b) b (- v) = - clamp (- b) b v.
Proof.
  intros Hb. unfold clamp, Rmax, Rmin.
  destruct (Rle_dec b (- v)); destruct (Rle_dec b v);
    repeat destruct (Rle_dec (- b) _); lra.
Qed.

(** X12.  The map mirrors the image: for every scale, the positions
    [x] and [1 - x] of the image are sent to opposite world [x], with
    the same [y] and [z]. *)
Theorem mapToWorldSpace_mirror :
  forall (nx ny nz : R) (scale : option R),
    let left := HandTracker.mapToWorldSpace (mkPosition nx ny nz) scale in
    let right :=
      HandTracker.mapToWorldSpace (mkPosition (1 - nx) ny nz) scale in
    x right = - x left /\ y right = y left /\ z right = z left.
Proof.
  intros nx ny nz scale.
  unfold HandTracker.mapToWorldSpace. cbn [x y z]. fold_clamp.
  split; [|split; reflexivity].
  set (s := match scale with Some s => s | None => 1.5 end).
  replace ((0.5 - (1 - nx)) * 20 * s) with (- ((0.5 - nx) * 20 * s))
    by (field_simplify; lra).
  apply (clamp_opp 15). lra.
Qed.

(** X13.  For a scale that is not negative the map reverses the order
    of each coordinate: a hand farther to the right of the image,
    lower in the image, or deeper, gives a target with a smaller or
    equal [x], [y], [z] respectively. *)
Theorem mapToWorldSpace_order_reversing :
  forall (p q : Position) (scale : R),
    let world_p := HandTracker.mapToWorldSpace p (Some scale) in
    let world_q := HandTracker.mapToWorldSpace q (Some scale) in
    0 <= scale ->
    (x p <= x q -> x world_q <= x world_p) /\
    (y p <= y q -> y world_q <= y world_p) /\
    (z p <= z q -> z world_q <= z world_p).
Proof.
  intros p q scale world_p world_q Hs.
  unfold world_p, world_q, HandTracker.mapToWorldSpace.
  cbn [x y z]. fold_clamp.
  repeat split; intros H; apply clamp_monotone; nra.
Qed.

(** Two hands at the default scale, one farther to the right. *)
Lemma mapToWorldSpace_order_reversing_witness :
  x (HandTracker.mapToWorldSpace (mkPosition 0.75 0.5 0) (Some 1.5))
  <= x (HandTracker.mapToWorldSpace (mkPosition 0.25 0.5 0) (Some 1.5)).
Proof.
  destruct (mapToWorldSpace_order_reversing
              (mkPosition 0.25 0.5 0) (mkPosition 0.75 0.5 0) 1.5)
    as (Hx & _ & _); [lra|].
  apply Hx. cbn [x]. lra.
Defined.

(* ================================================================= *)
(** ** [HandTracker.getLandmarkPosition] and [HandLandmarks] *)

(** The [{x, y, z}] object made of a landmark. *)
Lemma getLandmarkPosition_entry array index landmark :
  List.nth_error array index = Some landmark ->
  HandTracker.getLandmarkPosition (Some array) (Some index) =
  Return (Some {| x := Landmark.x landmark;
                  y := Landmark.y landmark;
                  z := Landmark.z landmark |}).
Proof.
  intros Hn. unfold HandTracker.getLandmarkPosition.
  assert (index < List.length array)%nat as Hlt
    by (apply List.nth_error_Some; congruence).
  destruct (Nat.leb_spec (List.length array) index) as [Hle|_];
    [exfalso; apply (Nat.lt_irrefl index);
     apply (Nat.lt_le_trans _ _ _ Hlt Hle)|].
  rewrite Hn. reflexivity.
Qed.

(** X14.  [getLandmarkPosition] never throws.  It returns [null]
    exactly when [landmarks] is missing or has no entry at the index
    (an empty array among them), the index being [8] when none is
    given; otherwise it returns the [x], [y], [z] of the entry at the
    index and nothing else of it. *)
Theorem getLandmarkPosition_spec :
  forall (landmarks : option (list Landmark.t)) (landmarkIndex : option nat),
    let index := match landmarkIndex with Some i => i | None => 8%nat end in
    HandTracker.getLandmarkPosition landmarks landmarkIndex <> Throw /\
    (HandTracker.getLandmarkPosition landmarks landmarkIndex = Return None <->
     landmarks = None \/
     exists array,
       landmarks = Some array /\ (List.length array <= index)%nat) /\
    (forall array landmark,
       landmarks = Some array ->
       List.nth_error array index = Some landmark ->
       HandTracker.getLandmarkPosition landmarks landmarkIndex =
       Return (Some {| x := Landmark.x landmark;
                       y := Landmark.y landmark;
                       z := Landmark.z landmark |})).
Proof.
  intros landmarks landmarkIndex index.
  assert (HandTracker.getLandmarkPosition landmarks landmarkIndex
          = HandTracker.getLandmarkPosition landmarks (Some index)) as ->
    by (destruct landmarkIndex; reflexivity).
  destruct landmarks as [array|].
  - destruct (List.nth_error array index) as [landmark|] eqn:Hn.
    + rewrite (getLandmarkPosition_entry _ _ _ Hn).
      split; [discriminate|]. split.
      * split; [discriminate|]. intros [H | (a & Ha & Hlen)];
          [discriminate|]. injection Ha as <-.
        apply List.nth_error_None in Hlen. congruence.
      * intros a l Ha Hl. injection Ha as <-.
        rewrite Hn in Hl. injection Hl as <-. reflexivity.
    + assert (List.length array <= index)%nat as Hlen
        by (apply List.nth_error_None; exact Hn).
      unfold HandTracker.getLandmarkPosition.
      destruct (Nat.leb_spec (List.length array) index) as [_|Hlt];
        [|exfalso; apply (Nat.lt_irrefl index);
          apply (Nat.lt_le_trans _ _ _ Hlt Hlen)].
      split; [discriminate|]. split.
      * split; [|reflexivity]. intros _. right. exists array.
        split; [reflexivity | exact Hlen].
      * intros a l Ha Hl. injection Ha as <-. congruence.
  - cbn. split; [discriminate|]. split.
    + split; [|reflexivity]. intros _. left. reflexivity.
    + intros a l Ha. discriminate.
Qed.

(** An array of two landmarks read at index [1], and at the default
    index [8]. *)
Lemma getLandmarkPosition_spec_witness :
  let array := [Landmark.mk 0.1 0.2 0.3 None; Landmark.mk 0.4 0.5 0.6 (Some 1)] in
  HandTracker.getLandmarkPosition (Some array) (Some 1%nat)
    = Return (Some (mkPosition 0.4 0.5 0.6)) /\
  HandTracker.getLandmarkPosition (Some array) None = Return None.
Proof.
  intros array. split.
  - destruct (getLandmarkPosition_spec (Some array) (Some 1%nat))
      as (_ & _ & Hentry).
    apply (Hentry array (Landmark.mk 0.4 0.5 0.6 (Some 1)));
      reflexivity.
  - destruct (getLandmarkPosition_spec (Some array) None) as (_ & Hnull & _).
    apply Hnull. right. exists array. split; [reflexivity|].
    cbn. repeat constructor.
Defined.

Lemma get_from_In entries name value :
  HandLandmarks.get_from entries name = Some value ->
  List.In value (List.map snd entries).
Proof.
  induction entries as [|[key v] rest IH]; cbn; [discriminate|].
  destruct (String.eqb key name).
  - intros H. injection H as <-. left. reflexivity.
  - intros H. right. apply IH. exact H.
Qed.

(** X15.  [HandLandmarks] numbers its 21 names [0] to [20] in order,
    without gap or repetition, and [INDEX_FINGER_TIP] is [8], the
    default index of [getLandmarkPosition].  So on a hand of 21
    landmarks or more, [getLandmarkPosition] at any name of
    [HandLandmarks] returns a position, never [null]. *)
Theorem HandLandmarks_cover_a_hand :
  List.map snd HandLandmarks.table = List.seq 0 21 /\
  List.NoDup (List.map fst HandLandmarks.table) /\
  HandLandmarks.INDEX_FINGER_TIP = Some 8%nat /\
  forall name index array,
    HandLandmarks.get name = Some index ->
    (21 <= List.length array)%nat ->
    exists landmark,
      List.nth_error array index = Some landmark /\
      HandTracker.getLandmarkPosition (Some array) (HandLandmarks.get name) =
      Return (Some {| x := Landmark.x landmark;
                      y := Landmark.y landmark;
                      z := Landmark.z landmark |}).
Proof.
  split; [reflexivity|]. split.
  { cbn. repeat (constructor;
      [cbn; intros H;
       repeat (destruct H as [H|H]; [discriminate H|]); exact H|]).
    constructor. }
  split; [reflexivity|].
  intros name index array Hget Hlen.
  assert (index < 21)%nat as Hi.
  { apply get_from_In in Hget.
    change (List.map snd HandLandmarks.table) with (List.seq 0 21) in Hget.
    apply List.in_seq in Hget. apply Hget. }
  destruct (List.nth_error array index) as [landmark|] eqn:Hn.
  - exists landmark. split; [reflexivity|]. rewrite Hget.
    apply getLandmarkPosition_entry. exact Hn.
  - exfalso. apply List.nth_error_None in Hn.
    apply (Nat.lt_irrefl index).
    apply (Nat.lt_le_trans _ _ _ Hi).
    apply (Nat.le_trans _ _ _ Hlen Hn).
Qed.

(** The index finger tip of a hand of 21 equal landmarks. *)
Lemma HandLandmarks_cover_a_hand_witness :
  let landmark := Landmark.mk 0.5 0.5 0 None in
  HandTracker.getLandmarkPosition (Some (List.repeat landmark 21))
    HandLandmarks.INDEX_FINGER_TIP
  = Return (Some (mkPosition 0.5 0.5 0)).
Proof.
  intros landmark.
  destruct HandLandmarks_cover_a_hand as (_ & _ & _ & Hcover).
  destruct (Hcover HandLandmarks.INDEX_FINGER_TIP_name 8%nat
              (List.repeat landmark 21))
    as (l & Hn & Hg); [reflexivity | cbn; repeat constructor |].
  cbn in Hn. injection Hn as <-. exact Hg.
Defined.

(* ================================================================= *)
(** ** [RoboticArmApp.onHandResults] *)

Lemma updateFPS_keeps now this :
  RoboticArmApp.state (RoboticArmApp.updateFPS now this)
    = RoboticArmApp.state this /\
  RoboticArmApp.sceneManager (RoboticArmApp.updateFPS now this)
    = RoboticArmApp.sceneManager this /\
  RoboticArmApp.ikSolver (RoboticArmApp.updateFPS now this)
    = RoboticArmApp.ikSolver this /\
  RoboticArmApp.handTracker (RoboticArmApp.updateFPS now this)
    = RoboticArmApp.handTracker this /\
  RoboticArmApp.statusText (RoboticArmApp.ui (RoboticArmApp.updateFPS now this))
    = RoboticArmApp.statusText (RoboticArmApp.ui this) /\
  RoboticArmApp.statusDot_active
    (RoboticArmApp.ui (RoboticArmApp.updateFPS now this))
    = RoboticArmApp.statusDot_active (RoboticArmApp.ui this).
Proof.
  unfold RoboticArmApp.updateFPS.
  destruct (_ >=? _); cbn; repeat split; reflexivity.
Qed.

(** What [onHandResults] returns, by the shape of the results. *)
Lemma onHandResults_eq results now this :
  let counted := RoboticArmApp.updateFPS now this in
  RoboticArmApp.onHandResults results now this =
  Return
    match index_finger_tip results with
    | Some tip =>
        RoboticArmApp.mk
          (RoboticArmApp.set_target
             (HandTracker.mapToWorldSpace (landmark_position tip)
                (Some (RoboticArmApp.scale (RoboticArmApp.state counted))))
             (RoboticArmApp.state counted))
          (RoboticArmApp.stats counted)
          (if RoboticArmApp.isTracking (RoboticArmApp.state counted)
           then RoboticArmApp.set_status
                  RoboticArmApp.TRACKING_HAND_text true
                  (RoboticArmApp.ui counted)
           else RoboticArmApp.ui counted)
          (RoboticArmApp.sceneManager counted)
          (RoboticArmApp.ikSolver counted)
          (RoboticArmApp.handTracker counted)
    | None =>
        if has_hand results then counted
        else
          RoboticArmApp.mk
            (RoboticArmApp.state counted)
            (RoboticArmApp.stats counted)
            (if RoboticArmApp.isTracking (RoboticArmApp.state counted)
             then RoboticArmApp.set_status
                    RoboticArmApp.SEARCHING_text false
                    (RoboticArmApp.ui counted)
             else RoboticArmApp.ui counted)
            (RoboticArmApp.sceneManager counted)
            (RoboticArmApp.ikSolver counted)
            (RoboticArmApp.handTracker counted)
    end.
Proof.
  intros counted. unfold RoboticArmApp.onHandResults, index_finger_tip,
    has_hand. fold counted.
  destruct (RoboticArmApp.multiHandLandmarks results) as [[|landmarks rest]|];
    try reflexivity.
  change HandLandmarks.INDEX_FINGER_TIP with (Some 8%nat).
  destruct (List.nth_error landmarks 8) as [tip|] eqn:Hn.
  - rewrite (getLandmarkPosition_entry _ _ _ Hn). reflexivity.
  - unfold HandTracker.getLandmarkPosition. rewrite Hn.
    destruct (Nat.leb_spec (List.length landmarks) 8) as [_|Hlt];
      [reflexivity|].
    exfalso. apply List.nth_error_None in Hn.
    apply (Nat.lt_irrefl 8). apply (Nat.lt_le_trans _ _ _ Hlt Hn).
Qed.

(** X16.  [onHandResults] never throws, and it touches neither the
    smoothed target nor the scene.  The target becomes
    [mapToWorldSpace] of the index finger tip (entry [8] of the first
    hand) at the current scale; when there is no hand, or the first
    hand has fewer than nine landmarks, the target stays where it was.
    A target inside the box [[-15, 15] x [2, 25] x [-5, 20]] stays
    inside it. *)
Theorem onHandResults_target :
  forall (results : RoboticArmApp.Results) (now : R) (this : RoboticArmApp.t),
    exists this',
      RoboticArmApp.onHandResults results now this = Return this' /\
      RoboticArmApp.target (RoboticArmApp.state this') =
        match index_finger_tip results with
        | Some tip =>
            HandTracker.mapToWorldSpace (landmark_position tip)
              (Some (RoboticArmApp.scale (RoboticArmApp.state this)))
        | None => RoboticArmApp.target (RoboticArmApp.state this)
        end /\
      RoboticArmApp.smoothTarget (RoboticArmApp.state this') =
        RoboticArmApp.smoothTarget (RoboticArmApp.state this) /\
      RoboticArmApp.sceneManager this' = RoboticArmApp.sceneManager this /\
      (in_target_box (RoboticArmApp.target (RoboticArmApp.state this)) ->
       in_target_box (RoboticArmApp.target (RoboticArmApp.state this'))).
Proof.
  intros results now this.
  eexists. split; [apply onHandResults_eq|].
  destruct (updateFPS_keeps now this) as (Es & Em & _).
  destruct (index_finger_tip results) as [tip|].
  - cbn [RoboticArmApp.state RoboticArmApp.set_target RoboticArmApp.target
         RoboticArmApp.smoothTarget RoboticArmApp.sceneManager].
    rewrite Es, Em. do 3 (split; [reflexivity|]).
    intros _. apply mapToWorldSpace_in_box_aux.
  - destruct (has_hand results);
      cbn [RoboticArmApp.state RoboticArmApp.sceneManager];
      rewrite ?Es, ?Em; do 3 (split; [reflexivity|]); intros H; exact H.
Qed.

(** A hand of 21 landmarks in the middle of the image moves the target
    of the fresh application from [(10, 10, 0)] into the box. *)
Lemma onHandResults_target_witness :
  let hand := List.repeat (Landmark.mk 0.5 0.5 0 None) 21 in
  exists this',
    RoboticArmApp.onHandResults
      (RoboticArmApp.mkResults (Some [hand])) 0
      (RoboticArmApp.initial 0 page_as_loaded) = Return this' /\
    in_target_box (RoboticArmApp.target (RoboticArmApp.state this')).
Proof.
  intros hand.
  destruct (onHandResults_target (RoboticArmApp.mkResults (Some [hand])) 0
              (RoboticArmApp.initial 0 page_as_loaded))
    as (this' & Hr & _ & _ & _ & Hbox).
  exists this'. split; [exact Hr|]. apply Hbox.
  cbn. unfold in_target_box; cbn. lra.
Defined.

(** X17.  The status line after [onHandResults]: an application that
    is not tracking leaves its text and its dot alone; a tracking one
    shows "Tracking Hand" with the dot on when the index finger tip was
    read, "Searching..." with the dot off when the results hold no
    hand, and leaves both as they were when the first hand has fewer
    than nine landmarks. *)
Theorem onHandResults_status :
  forall (results : RoboticArmApp.Results) (now : R) (this : RoboticArmApp.t),
    exists this',
      RoboticArmApp.onHandResults results now this = Return this' /\
      let before := RoboticArmApp.ui this in
      let after := RoboticArmApp.ui this' in
      (RoboticArmApp.statusText after, RoboticArmApp.statusDot_active after) =
      if RoboticArmApp.isTracking (RoboticArmApp.state this) then
        match index_finger_tip results with
        | Some _ =>
            (RoboticArmApp.Literal RoboticArmApp.TRACKING_HAND_text, true)
        | None =>
            if has_hand results
            then (RoboticArmApp.statusText before,
                  RoboticArmApp.statusDot_active before)
            else (RoboticArmApp.Literal RoboticArmApp.SEARCHING_text, false)
        end
      else (RoboticArmApp.statusText before,
            RoboticArmApp.statusDot_active before).
Proof.
  intros results now this.
  eexists. split; [apply onHandResults_eq|]. cbv zeta.
  destruct (updateFPS_keeps now this) as (Es & _ & _ & _ & Et & Ed).
  rewrite Es.
  destruct (index_finger_tip results) as [tip|];
    [|destruct (has_hand results)];
    destruct (RoboticArmApp.isTracking (RoboticArmApp.state this));
    cbn [RoboticArmApp.ui RoboticArmApp.set_status RoboticArmApp.statusText
         RoboticArmApp.statusDot_active];
    rewrite ?Et, ?Ed; reflexivity.
Qed.

(* ================================================================= *)
(** ** [RoboticArmApp.updateSimulation] *)

Lemma app_solver_fields : app_solver = IKSolver.mk 4 12 10 22 2.
Proof.
  unfold app_solver, IKSolver.constructor, Math.abs; cbn -[JS.or].
  rewrite !or_nonzero by lra.
  f_equal; [lra|].
  replace (12 - 10) with 2 by lra. apply Rabs_right; lra.
Qed.

Lemma app_solver_constructed : constructed app_solver.
Proof. apply constructor_constructed. Qed.

(** What [updateSimulation] returns once [solve] has returned. *)
Lemma updateSimulation_Some this res :
  let s := RoboticArmApp.state this in
  let u := RoboticArmApp.ui this in
  let p :=
    Vector3.lerp (RoboticArmApp.smoothTarget s) (RoboticArmApp.target s)
      (RoboticArmApp.smoothing s * RoboticArmApp.speed s) in
  IKSolver.solve (RoboticArmApp.ikSolver this) p = Some res ->
  RoboticArmApp.updateSimulation this =
  Some (RoboticArmApp.mk
          (RoboticArmApp.mkState (RoboticArmApp.target s) p
             (RoboticArmApp.isTracking s) (RoboticArmApp.smoothing s)
             (RoboticArmApp.scale s) (RoboticArmApp.speed s))
          (RoboticArmApp.stats this)
          (RoboticArmApp.mkUI
             (RoboticArmApp.cameraToggle_textContent u)
             (RoboticArmApp.cameraToggle_active u)
             (RoboticArmApp.statusDot_active u)
             (RoboticArmApp.statusText u)
             (RoboticArmApp.fpsCounter u)
             (RoboticArmApp.smoothingValue u)
             (RoboticArmApp.scaleValue u)
             (RoboticArmApp.speedValue u)
             (RoboticArmApp.ToFixed (x p) 1)
             (RoboticArmApp.ToFixed (y p) 1)
             (RoboticArmApp.ToFixed (z p) 1))
          (SceneManager.updateTargetMarker
             (SceneManager.updateArmAngles
                (RoboticArmApp.sceneManager this) res) p)
          (RoboticArmApp.ikSolver this)
          (RoboticArmApp.handTracker this)).
Proof.
  intros s u p Hs. unfold RoboticArmApp.updateSimulation.
  fold s u. fold p. rewrite Hs. reflexivity.
Qed.

(** A step of [lerp] with a factor of [[0, 1]] lands between the two
    ends. *)
Lemma lerp_between a b alpha :
  0 <= alpha <= 1 -> between a b (a + (b - a) * alpha).
Proof.
  intros Ha. unfold between, Rmin, Rmax.
  destruct (Rle_dec a b); nra.
Qed.

Lemma between_interval lo hi a b c :
  lo <= a <= hi -> lo <= b <= hi -> between a b c -> lo <= c <= hi.
Proof.
  unfold between, Rmin, Rmax. destruct (Rle_dec a b); lra.
Qed.

Lemma lerp_in_box p q alpha :
  0 <= alpha <= 1 -> in_target_box p -> in_target_box q ->
  in_target_box (Vector3.lerp p q alpha).
Proof.
  intros Ha (Hx & Hy & Hz) (Hx' & Hy' & Hz').
  unfold in_target_box, Vector3.lerp; cbn [x y z].
  repeat split;
    first [ apply (between_interval (-15) 15 (x p) (x q))
          | apply (between_interval 2 25 (y p) (y q))
          | apply (between_interval (-5) 20 (z p) (z q)) ];
    try assumption; apply lerp_between; exact Ha.
Qed.

(** X18.  An animation frame of an application whose solver was built
    by the constructor always completes.  It leaves the target alone
    and moves the smoothed target by [lerp] with the factor
    [smoothing * speed]; when that factor lies in [[0, 1]], each
    coordinate of the new smoothed target lies between its old value
    and the target's, so a smoothed target and a target inside the box
    [[-15, 15] x [2, 25] x [-5, 20]] give a smoothed target inside
    it. *)
Theorem updateSimulation_smoothing :
  forall (this : RoboticArmApp.t),
    let s := RoboticArmApp.state this in
    let alpha := RoboticArmApp.smoothing s * RoboticArmApp.speed s in
    constructed (RoboticArmApp.ikSolver this) ->
    exists this',
      RoboticArmApp.updateSimulation this = Some this' /\
      let s' := RoboticArmApp.state this' in
      RoboticArmApp.target s' = RoboticArmApp.target s /\
      RoboticArmApp.smoothTarget s' =
        Vector3.lerp (RoboticArmApp.smoothTarget s) (RoboticArmApp.target s)
          alpha /\
      (0 <= alpha <= 1 ->
       between (x (RoboticArmApp.smoothTarget s)) (x (RoboticArmApp.target s))
               (x (RoboticArmApp.smoothTarget s')) /\
       between (y (RoboticArmApp.smoothTarget s)) (y (RoboticArmApp.target s))
               (y (RoboticArmApp.smoothTarget s')) /\
       between (z (RoboticArmApp.smoothTarget s)) (z (RoboticArmApp.target s))
               (z (RoboticArmApp.smoothTarget s'))) /\
      (0 <= alpha <= 1 ->
       in_target_box (RoboticArmApp.target s) ->
       in_target_box (RoboticArmApp.smoothTarget s) ->
       in_target_box (RoboticArmApp.smoothTarget s')).
Proof.
  intros this s alpha Hsolver.
  eexists. split.
  { apply updateSimulation_Some. apply solve_constructed. exact Hsolver. }
  cbv zeta. cbn [RoboticArmApp.state RoboticArmApp.target
                 RoboticArmApp.smoothTarget].
  fold s. fold alpha.
  split; [reflexivity|]. split; [reflexivity|]. split.
  - intros Ha. unfold Vector3.lerp; cbn [x y z].
    repeat split; apply lerp_between; exact Ha.
  - intros Ha Ht Hs. apply lerp_in_box; assumption.
Qed.

(** A frame of the application whose target a hand has moved to
    [(0, 15, 10)], the smoothed target being at [(10, 10, 0)]: with the
    factor [0.1 * 0.8] the smoothed target moves to [(9.2, 10.4, 0.8)],
    between the two, and stays in the box. *)
Lemma updateSimulation_smoothing_witness :
  exists this',
    RoboticArmApp.updateSimulation app_after_hand = Some this' /\
    RoboticArmApp.target (RoboticArmApp.state this') = mkPosition 0 15 10 /\
    RoboticArmApp.smoothTarget (RoboticArmApp.state this')
      = mkPosition 9.2 10.4 0.8 /\
    between 10 0 (x (RoboticArmApp.smoothTarget (RoboticArmApp.state this'))) /\
    in_target_box (RoboticArmApp.smoothTarget (RoboticArmApp.state this')).
Proof.
  destruct (updateSimulation_smoothing app_after_hand)
    as (this' & Hr & Ht & Hs & Hbetween & Hbox).
  - apply app_solver_constructed.
  - exists this'. split; [exact Hr|]. split; [exact Ht|].
    split; [|split].
    + rewrite Hs. unfold Vector3.lerp; cbn. f_equal; lra.
    + apply Hbetween. cbn. lra.
    + apply Hbox; cbn; unfold in_target_box; cbn; lra.
Defined.

(** A frame changes neither the sliders nor the solver. *)
Lemma updateSimulation_keeps this this' :
  RoboticArmApp.updateSimulation this = Some this' ->
  RoboticArmApp.ikSolver this' = RoboticArmApp.ikSolver this /\
  RoboticArmApp.handTracker this' = RoboticArmApp.handTracker this /\
  RoboticArmApp.stats this' = RoboticArmApp.stats this /\
  RoboticArmApp.target (RoboticArmApp.state this')
    = RoboticArmApp.target (RoboticArmApp.state this) /\
  RoboticArmApp.isTracking (RoboticArmApp.state this')
    = RoboticArmApp.isTracking (RoboticArmApp.state this) /\
  RoboticArmApp.smoothing (RoboticArmApp.state this')
    = RoboticArmApp.smoothing (RoboticArmApp.state this) /\
  RoboticArmApp.scale (RoboticArmApp.state this')
    = RoboticArmApp.scale (RoboticArmApp.state this) /\
  RoboticArmApp.speed (RoboticArmApp.state this')
    = RoboticArmApp.speed (RoboticArmApp.state this) /\
  RoboticArmApp.smoothTarget (RoboticArmApp.state this') =
    Vector3.lerp (RoboticArmApp.smoothTarget (RoboticArmApp.state this))
      (RoboticArmApp.target (RoboticArmApp.state this))
      (RoboticArmApp.smoothing (RoboticArmApp.state this) *
       RoboticArmApp.speed (RoboticArmApp.state this)) /\
  RoboticArmApp.statusText (RoboticArmApp.ui this')
    = RoboticArmApp.statusText (RoboticArmApp.ui this) /\
  RoboticArmApp.statusDot_active (RoboticArmApp.ui this')
    = RoboticArmApp.statusDot_active (RoboticArmApp.ui this) /\
  RoboticArmApp.cameraToggle_active (RoboticArmApp.ui this')
    = RoboticArmApp.cameraToggle_active (RoboticArmApp.ui this).
Proof.
  unfold RoboticArmApp.updateSimulation.
  destruct (IKSolver.solve _ _) as [res|]; cbn [JS.bind]; [|discriminate].
  intros H. injection H as <-. cbn. repeat split; reflexivity.
Qed.

(** X19.  With the target held fixed, [n] animation frames in a row
    always complete and shrink the offset of the smoothed target from
    the target by the factor [1 - smoothing * speed] each, in every
    coordinate: after [n] frames the offset is
    [(1 - smoothing * speed) ^ n] times what it was. *)
Theorem frames_converge :
  forall (n : nat) (this : RoboticArmApp.t),
    let s := RoboticArmApp.state this in
    let alpha := RoboticArmApp.smoothing s * RoboticArmApp.speed s in
    constructed (RoboticArmApp.ikSolver this) ->
    exists this',
      RoboticArmApp.frames n this = Some this' /\
      let s' := RoboticArmApp.state this' in
      RoboticArmApp.target s' = RoboticArmApp.target s /\
      x (RoboticArmApp.smoothTarget s') - x (RoboticArmApp.target s) =
        (1 - alpha) ^ n *
        (x (RoboticArmApp.smoothTarget s) - x (RoboticArmApp.target s)) /\
      y (RoboticArmApp.smoothTarget s') - y (RoboticArmApp.target s) =
        (1 - alpha) ^ n *
        (y (RoboticArmApp.smoothTarget s) - y (RoboticArmApp.target s)) /\
      z (RoboticArmApp.smoothTarget s') - z (RoboticArmApp.target s) =
        (1 - alpha) ^ n *
        (z (RoboticArmApp.smoothTarget s) - z (RoboticArmApp.target s)).
Proof.
  induction n as [|n IH]; intros this s alpha Hsolver.
  - exists this. split; [reflexivity|]. cbv zeta. fold s.
    repeat split; cbn [pow]; ring.
  - cbn [RoboticArmApp.frames].
    destruct (RoboticArmApp.updateSimulation this) as [next|] eqn:Hnext.
    + destruct (updateSimulation_keeps _ _ Hnext)
        as (Ek & _ & _ & Et & _ & Esm & _ & Esp & Est & _).
      destruct (IH next) as (this' & Hf & Ht' & Hx & Hy & Hz);
        [rewrite Ek; exact Hsolver|].
      exists this'. split; [exact Hf|]. cbv zeta in *.
      rewrite Esm, Esp, Et, Est in *. fold s in Ht', Hx, Hy, Hz |- *.
      fold alpha in Hx, Hy, Hz |- *.
      split; [exact Ht'|].
      unfold Vector3.lerp in Hx, Hy, Hz; cbn [x y z] in Hx, Hy, Hz.
      rewrite Hx, Hy, Hz. cbn [pow]. repeat split; ring.
    + exfalso.
      unfold RoboticArmApp.updateSimulation in Hnext.
      rewrite solve_constructed in Hnext by exact Hsolver.
      discriminate Hnext.
Qed.

(** Three frames of the application whose target a hand has moved to
    [(0, 15, 10)], the smoothed target starting at [(10, 10, 0)]: the
    offset in [x] shrinks from [10] to [0.92 ^ 3 * 10 = 7.78688], the
    offset in [y] from [-5] to [-3.89344]. *)
Lemma frames_converge_witness :
  exists this',
    RoboticArmApp.frames 3 app_after_hand = Some this' /\
    x (RoboticArmApp.smoothTarget (RoboticArmApp.state this')) = 7.78688 /\
    y (RoboticArmApp.smoothTarget (RoboticArmApp.state this')) = 11.10656 /\
    z (RoboticArmApp.smoothTarget (RoboticArmApp.state this')) = 2.21312.
Proof.
  destruct (frames_converge 3 app_after_hand)
    as (this' & Hf & _ & Hx & Hy & Hz).
  - apply app_solver_constructed.
  - exists this'. split; [exact Hf|].
    cbn in Hx, Hy, Hz. repeat split; lra.
Defined.

(* ================================================================= *)
(** ** The arm meets the marker *)

(** X20.  After an animation frame of an application with the solver
    of [initIK()], an arm and a marker in its scene, the marker sits on
    the new smoothed target; and when that point lies at a distance
    between [2.01] and [21.978] from the shoulder pivot, the end
    effector of the arm, posed with the angles the frame wrote, sits
    on the marker. *)
Theorem updateSimulation_arm_meets_marker :
  forall (this : RoboticArmApp.t),
    let s := RoboticArmApp.state this in
    let p :=
      Vector3.lerp (RoboticArmApp.smoothTarget s) (RoboticArmApp.target s)
        (RoboticArmApp.smoothing s * RoboticArmApp.speed s) in
    RoboticArmApp.ikSolver this = app_solver ->
    SceneManager.robotArm (RoboticArmApp.sceneManager this) <> None ->
    SceneManager.targetMarker (RoboticArmApp.sceneManager this) <> None ->
    exists this' arm marker,
      RoboticArmApp.updateSimulation this = Some this' /\
      SceneManager.robotArm (RoboticArmApp.sceneManager this') = Some arm /\
      SceneManager.targetMarker (RoboticArmApp.sceneManager this')
        = Some marker /\
      SceneManager.position marker
        = RoboticArmApp.smoothTarget (RoboticArmApp.state this') /\
      (2.01 <= planar_distance app_solver p <= 21.978 ->
       SceneManager.endEffector SceneManager.ARM_CONFIG
         (SceneManager.shown arm)
       = SceneManager.position marker).
Proof.
  intros this s p Hsolver Harm Hmarker.
  destruct (SceneManager.robotArm (RoboticArmApp.sceneManager this))
    as [arm0|] eqn:Ea; [|congruence].
  destruct (SceneManager.targetMarker (RoboticArmApp.sceneManager this))
    as [marker0|] eqn:Em; [|congruence].
  pose proof (solve_constructed app_solver app_solver_constructed p) as Hs.
  eexists. exists (SceneManager.mkRobotArm
    (Math.atan2 (x p) (z p))
    (PI / 2 -
     (Math.atan2 (vertical_distance app_solver p) (horizontal_distance p) +
      acos (clamp (-1) 1 (shoulder_cosine app_solver (reach app_solver p)))))
    (PI - acos (clamp (-1) 1 (elbow_cosine app_solver (reach app_solver p))))).
  exists (SceneManager.mkTargetMarker p
            (SceneManager.rotation_y marker0 + 0.015)
            (SceneManager.rotation_z marker0 + 0.01)).
  split.
  { apply updateSimulation_Some. rewrite Hsolver. exact Hs. }
  cbn [RoboticArmApp.sceneManager RoboticArmApp.state
       RoboticArmApp.smoothTarget].
  unfold SceneManager.updateTargetMarker, SceneManager.updateArmAngles.
  rewrite Ea. cbn [SceneManager.targetMarker SceneManager.robotArm].
  rewrite Em. cbn [SceneManager.targetMarker SceneManager.robotArm
                   SceneManager.position base shoulder elbow angles].
  split; [reflexivity|]. split; [reflexivity|].
  split; [reflexivity|].
  intros [Hlo Hhi].
  assert (reach app_solver p = planar_distance app_solver p) as Er.
  { apply clamp_inside. unfold reach_lo, reach_hi.
    rewrite app_solver_fields. cbn [IKSolver.minReach IKSolver.maxReach].
    rewrite app_solver_fields in Hlo, Hhi. lra. }
  destruct (solve_endEffector app_solver p app_solver_constructed)
    as (res & Hres & _ & He).
  - rewrite app_solver_fields; cbn; lra.
  - rewrite app_solver_fields; cbn; lra.
  - rewrite Er. rewrite app_solver_fields in Hlo, Hhi |- *.
    cbn [IKSolver.minReach IKSolver.maxReach]. lra.
  - lra.
  - rewrite Hs in Hres. injection Hres as <-.
    replace (arm_of app_solver) with SceneManager.ARM_CONFIG in He
      by (rewrite app_solver_fields; reflexivity).
    cbn [angles] in He. etransitivity; [exact He|].
    rewrite Er. cbv zeta.
    replace (planar_distance app_solver p / planar_distance app_solver p)
      with 1 by (field; lra).
    unfold p, Vector3.lerp; cbn [x y z]. f_equal; ring.
Qed.

(** The first frame of the fresh application: the smoothed target is
    [(10, 10, 0)], at distance [sqrt 136] from the shoulder pivot. *)
Lemma updateSimulation_arm_meets_marker_witness :
  exists this' arm marker,
    RoboticArmApp.updateSimulation (RoboticArmApp.initial 0 page_as_loaded)
      = Some this' /\
    SceneManager.robotArm (RoboticArmApp.sceneManager this') = Some arm /\
    SceneManager.targetMarker (RoboticArmApp.sceneManager this')
      = Some marker /\
    SceneManager.endEffector SceneManager.ARM_CONFIG (SceneManager.shown arm)
      = SceneManager.position marker.
Proof.
  destruct (updateSimulation_arm_meets_marker
              (RoboticArmApp.initial 0 page_as_loaded))
    as (this' & arm & marker & Hr & Ha & Hm & _ & Hmeet);
    [reflexivity | discriminate | discriminate |].
  exists this', arm, marker. repeat split; try assumption.
  apply Hmeet.
  cbn [RoboticArmApp.initial RoboticArmApp.state RoboticArmApp.smoothTarget
       RoboticArmApp.target RoboticArmApp.smoothing RoboticArmApp.speed].
  unfold planar_distance, Vector3.lerp. rewrite app_solver_fields.
  cbn [x y z IKSolver.baseHeight].
  replace ((10 + (10 - 10) * (0.1 * 0.8)) * (10 + (10 - 10) * (0.1 * 0.8)) +
           (0 + (0 - 0) * (0.1 * 0.8)) * (0 + (0 - 0) * (0.1 * 0.8)) +
           (10 + (10 - 10) * (0.1 * 0.8) - 4) *
           (10 + (10 - 10) * (0.1 * 0.8) - 4)) with 136 by lra.
  split.
  - apply sqrt_lower; lra.
  - rewrite <- (sqrt_square 21.978) by lra. apply sqrt_le_1_alt. lra.
Defined.

(* ================================================================= *)
(** ** [RoboticArmApp.updateFPS] *)

(** The last entry of a list that has one. *)
Lemma last_of_nonempty (A : Type) (l : list A) (a d d' : A) :
  last (a :: l) d = last (a :: l) d'.
Proof.
  revert a. induction l as [|b l IH]; intros a; [reflexivity|].
  change (last (b :: l) d = last (b :: l) d'). apply IH.
Qed.

(** X21.  No call of [updateFPS()] is lost or counted twice: over any
    sequence of calls, the values given to [stats.fps] and the counter
    left at the end add up to the counter at the start plus the number
    of calls; each value given to [stats.fps] is at least [1]; and
    [stats.fps] ends as the last value given, or as it was when none
    was. *)
Theorem updateFPS_counts_every_call :
  forall (times : list R) (this : RoboticArmApp.t),
    let shown := fst (RoboticArmApp.updateFPS_at times this) in
    let final := snd (RoboticArmApp.updateFPS_at times this) in
    (list_sum shown + RoboticArmApp.frameCount (RoboticArmApp.stats final)
     = RoboticArmApp.frameCount (RoboticArmApp.stats this) + length times)%nat
    /\ Forall (fun n => (1 <= n)%nat) shown
    /\ RoboticArmApp.fps (RoboticArmApp.stats final)
       = last shown (RoboticArmApp.fps (RoboticArmApp.stats this)).
Proof.
  induction times as [|now rest IH]; intros this; cbv zeta.
  - cbn. repeat split; [symmetry; apply Nat.add_0_r | constructor].
  - cbn [RoboticArmApp.updateFPS_at].
    specialize (IH (RoboticArmApp.updateFPS now this)). cbv zeta in IH.
    destruct (RoboticArmApp.updateFPS_at rest
                (RoboticArmApp.updateFPS now this)) as [shown final].
    cbn [fst snd] in *. destruct IH as (Hsum & Hall & Hlast).
    unfold RoboticArmApp.updateFPS in *.
    destruct (now - RoboticArmApp.lastTime (RoboticArmApp.stats this)
              >=? 1000);
      cbn [RoboticArmApp.stats RoboticArmApp.frameCount RoboticArmApp.fps
           fst snd list_sum fold_right length] in *.
    + repeat split.
      * change (fold_right Nat.add 0%nat shown) with (list_sum shown).
        rewrite <- Nat.add_assoc, Hsum.
        rewrite Nat.add_0_l, Nat.add_succ_r, Nat.add_succ_l.
        reflexivity.
      * constructor; [apply le_n_S, Nat.le_0_l | exact Hall].
      * rewrite Hlast. destruct shown as [|n shown]; [reflexivity|].
        etransitivity; [apply (last_of_nonempty _ _ _ _
          (RoboticArmApp.fps (RoboticArmApp.stats this)))|reflexivity].
    + repeat split.
      * rewrite Hsum, Nat.add_succ_r, Nat.add_succ_l. reflexivity.
      * exact Hall.
      * exact Hlast.
Qed.

(* ================================================================= *)
(** ** A session of the application *)

(** What [onHandResults] leaves as it was, and what it may change. *)
Lemma onHandResults_keeps results now this this' :
  RoboticArmApp.onHandResults results now this = Return this' ->
  let s := RoboticArmApp.state this in
  let s' := RoboticArmApp.state this' in
  let u := RoboticArmApp.ui this in
  let u' := RoboticArmApp.ui this' in
  RoboticArmApp.ikSolver this' = RoboticArmApp.ikSolver this /\
  RoboticArmApp.handTracker this' = RoboticArmApp.handTracker this /\
  RoboticArmApp.smoothTarget s' = RoboticArmApp.smoothTarget s /\
  RoboticArmApp.isTracking s' = RoboticArmApp.isTracking s /\
  RoboticArmApp.smoothing s' = RoboticArmApp.smoothing s /\
  RoboticArmApp.speed s' = RoboticArmApp.speed s /\
  RoboticArmApp.cameraToggle_active u' = RoboticArmApp.cameraToggle_active u /\
  (RoboticArmApp.target s' = RoboticArmApp.target s \/
   exists normalized scale,
     RoboticArmApp.target s' = HandTracker.mapToWorldSpace normalized scale) /\
  (RoboticArmApp.statusDot_active u' = true ->
   RoboticArmApp.statusDot_active u = true \/
   RoboticArmApp.isTracking s = true).
Proof.
  rewrite onHandResults_eq. cbv zeta. intros H. injection H as <-.
  destruct (index_finger_tip results) as [tip|]; [|destruct (has_hand results)];
    unfold RoboticArmApp.updateFPS;
    destruct (now - RoboticArmApp.lastTime (RoboticArmApp.stats this)
              >=? 1000);
    cbn [RoboticArmApp.state RoboticArmApp.ui RoboticArmApp.ikSolver
         RoboticArmApp.handTracker RoboticArmApp.set_target];
    destruct (RoboticArmApp.isTracking (RoboticArmApp.state this)) eqn:Et;
    cbn; repeat split; auto; eauto.
Qed.

(** Every handler leaves the solver as [initIK()] built it. *)
Lemma handle_keeps_solver this e this' :
  RoboticArmApp.handle this e = Some this' ->
  RoboticArmApp.ikSolver this' = RoboticArmApp.ikSolver this.
Proof.
  destruct e; cbn [RoboticArmApp.handle].
  - destruct (RoboticArmApp.onHandResults results now this) as [r|] eqn:E;
      [|discriminate].
    intros H; injection H as <-.
    apply (onHandResults_keeps _ _ _ _ E).
  - intros H. apply (updateSimulation_keeps _ _ H).
  - intros H; injection H as <-; reflexivity.
  - intros H; injection H as <-; reflexivity.
  - intros H; injection H as <-; reflexivity.
  - intros H; injection H as <-. unfold RoboticArmApp.toggleCamera.
    destruct (negb _); [|reflexivity].
    destruct (HandTracker.start _ _) as [[?|] ?]; reflexivity.
Qed.

(** No handler throws, and none leaves the finite numbers, as long as
    the solver is a constructed one. *)
Lemma handle_returns this e :
  constructed (RoboticArmApp.ikSolver this) ->
  exists this', RoboticArmApp.handle this e = Some this'.
Proof.
  intros Hsolver. destruct e; cbn [RoboticArmApp.handle]; eauto.
  - rewrite onHandResults_eq. eauto.
  - eexists. apply updateSimulation_Some.
    apply solve_constructed. exact Hsolver.
Qed.

Lemma run_returns events :
  forall this,
    constructed (RoboticArmApp.ikSolver this) ->
    exists this', RoboticArmApp.run this events = Some this'.
Proof.
  induction events as [|e rest IH]; intros this Hsolver;
    cbn [RoboticArmApp.run]; [eauto|].
  destruct (handle_returns this e Hsolver) as (next & Hnext).
  rewrite Hnext. apply IH.
  rewrite (handle_keeps_solver _ _ _ Hnext). exact Hsolver.
Qed.

(** A property that every handler keeps holds at the end of a
    session. *)
Lemma run_invariant (Inv : RoboticArmApp.t -> Prop)
  (P : RoboticArmApp.Event -> Prop) :
  (forall this e this',
     P e -> Inv this -> RoboticArmApp.handle this e = Some this' ->
     Inv this') ->
  forall events this this',
    Forall P events -> Inv this ->
    RoboticArmApp.run this events = Some this' -> Inv this'.
Proof.
  intros Hstep. induction events as [|e rest IH]; intros this this' HP Hi;
    cbn [RoboticArmApp.run].
  - intros H; injection H as <-; exact Hi.
  - destruct (RoboticArmApp.handle this e) as [next|] eqn:Hnext;
      [|discriminate].
    inversion HP; subst. apply (IH next); eauto.
Qed.

Lemma handle_target_in_box this e this' :
  in_target_box (RoboticArmApp.target (RoboticArmApp.state this)) ->
  RoboticArmApp.handle this e = Some this' ->
  in_target_box (RoboticArmApp.target (RoboticArmApp.state this')).
Proof.
  intros Hbox. destruct e; cbn [RoboticArmApp.handle].
  - destruct (RoboticArmApp.onHandResults results now this) as [r|] eqn:E;
      [|discriminate].
    intros H; injection H as <-.
    destruct (onHandResults_keeps _ _ _ _ E)
      as (_ & _ & _ & _ & _ & _ & _ & [-> | (n & sc & ->)] & _);
      [exact Hbox | apply mapToWorldSpace_in_box_aux].
  - intros H.
    destruct (updateSimulation_keeps _ _ H) as (_ & _ & _ & -> & _).
    exact Hbox.
  - intros H; injection H as <-; exact Hbox.
  - intros H; injection H as <-; exact Hbox.
  - intros H; injection H as <-; exact Hbox.
  - intros H; injection H as <-. unfold RoboticArmApp.toggleCamera.
    destruct (negb _); [|exact Hbox].
    destruct (HandTracker.start _ _) as [[?|] ?]; exact Hbox.
Qed.

Lemma handle_targets_in_box this e this' :
  sliders_in_unit e -> targets_in_box this ->
  RoboticArmApp.handle this e = Some this' -> targets_in_box this'.
Proof.
  intros He (Ht & Hs & Hsm & Hsp) H.
  pose proof (handle_target_in_box _ _ _ Ht H) as Ht'.
  unfold targets_in_box; cbv zeta. split; [exact Ht'|]. clear Ht'.
  destruct e; cbn [RoboticArmApp.handle sliders_in_unit] in *.
  - destruct (RoboticArmApp.onHandResults results now this) as [r|] eqn:E;
      [|discriminate].
    injection H as <-.
    destruct (onHandResults_keeps _ _ _ _ E)
      as (_ & _ & -> & _ & -> & -> & _).
    auto.
  - destruct (updateSimulation_keeps _ _ H)
      as (_ & _ & _ & _ & _ & -> & _ & -> & -> & _).
    split; [|auto]. apply lerp_in_box; [nra | exact Hs | exact Ht].
  - injection H as <-; cbn; auto.
  - injection H as <-; cbn; auto.
  - injection H as <-; cbn; auto.
  - injection H as <-. unfold RoboticArmApp.toggleCamera.
    destruct (negb _); [|cbn; auto].
    destruct (HandTracker.start _ _) as [[?|] ?]; cbn; auto.
Qed.

Lemma initial_targets_in_box now page :
  targets_in_box (RoboticArmApp.initial now page).
Proof.
  unfold targets_in_box, in_target_box; cbn. lra.
Qed.

(** X22.  A session, its events handled one at a time and its numbers
    read as reals, never throws and never divides by zero or leaves
    the domain of [sqrt] or [acos]: the constructor returns, and so
    does every sequence of events after it.  At the end the target lies in the box
    [[-15, 15] x [2, 25] x [-5, 20]]; and when every input to the
    smoothing and the speed sliders was in [[0, 1]], the smoothed
    target lies in the box too, and the smoothing and the speed in
    [[0, 1]]. *)
Theorem session_stays_in_box :
  forall (now : R) (page : RoboticArmApp.UI)
         (events : list RoboticArmApp.Event),
    exists this0 this',
      RoboticArmApp.constructor now page = Some this0 /\
      RoboticArmApp.run this0 events = Some this' /\
      RoboticArmApp.ikSolver this' = app_solver /\
      in_target_box (RoboticArmApp.target (RoboticArmApp.state this')) /\
      (Forall sliders_in_unit events -> targets_in_box this').
Proof.
  intros now page events.
  destruct (handle_returns (RoboticArmApp.initial now page)
              RoboticArmApp.AnimationFrame app_solver_constructed)
    as (this0 & H0).
  cbn [RoboticArmApp.handle] in H0.
  pose proof (handle_keeps_solver _ RoboticArmApp.AnimationFrame _ H0) as Hk.
  change (RoboticArmApp.ikSolver (RoboticArmApp.initial now page))
    with app_solver in Hk.
  destruct (run_returns events this0) as (this' & Hrun).
  { rewrite Hk. apply app_solver_constructed. }
  exists this0, this'. split; [exact H0|]. split; [exact Hrun|].
  pose proof (handle_targets_in_box _ RoboticArmApp.AnimationFrame _ I
                (initial_targets_in_box now page) H0) as Hbox0.
  split; [|split].
  - apply (run_invariant
             (fun this => RoboticArmApp.ikSolver this = app_solver)
             (fun _ => True)) with (events := events) (this := this0);
      auto.
    + intros a e b _ Ha Hab.
      rewrite (handle_keeps_solver _ _ _ Hab). exact Ha.
    + apply Forall_forall; auto.
  - apply (run_invariant
             (fun this =>
                in_target_box (RoboticArmApp.target (RoboticArmApp.state this)))
             (fun _ => True)) with (events := events) (this := this0);
      auto.
    + intros a e b _ Ha Hab. apply (handle_target_in_box _ _ _ Ha Hab).
    + apply Forall_forall; auto.
    + apply Hbox0.
  - intros Hall.
    apply (run_invariant targets_in_box sliders_in_unit)
      with (events := events) (this := this0); auto.
    intros a e b He Ha Hab. apply (handle_targets_in_box _ _ _ He Ha Hab).
Qed.

(** A session with a hand, a frame, the smoothing slider at its top
    and a click. *)
Lemma session_stays_in_box_witness :
  exists this0 this',
    RoboticArmApp.constructor 0 page_as_loaded = Some this0 /\
    RoboticArmApp.run this0
      [RoboticArmApp.HandResults (RoboticArmApp.mkResults None) 16;
       RoboticArmApp.AnimationFrame;
       RoboticArmApp.SmoothingInput 1;
       RoboticArmApp.CameraClick true] = Some this' /\
    targets_in_box this'.
Proof.
  destruct (session_stays_in_box 0 page_as_loaded
              [RoboticArmApp.HandResults (RoboticArmApp.mkResults None) 16;
               RoboticArmApp.AnimationFrame;
               RoboticArmApp.SmoothingInput 1;
               RoboticArmApp.CameraClick true])
    as (this0 & this' & H0 & Hrun & _ & _ & Hbox).
  exists this0, this'. split; [exact H0|]. split; [exact Hrun|].
  apply Hbox. repeat constructor; cbn; lra.
Defined.

(** X23.  Over any session on a page whose camera button and status
    dot start out not [active], the page agrees with the state: the
    camera button is [active] exactly while [isTracking] holds, the
    status dot is [active] only while it holds, and while it holds the
    hand tracker is active. *)
Theorem session_tracking_consistent :
  forall (now : R) (page : RoboticArmApp.UI)
         (events : list RoboticArmApp.Event)
         (this0 this' : RoboticArmApp.t),
    page_idle page ->
    RoboticArmApp.constructor now page = Some this0 ->
    RoboticArmApp.run this0 events = Some this' ->
    tracking_consistent this'.
Proof.
  intros now page events this0 this' [Hb Hd] H0 Hrun.
  assert (forall this e next,
            tracking_consistent this ->
            RoboticArmApp.handle this e = Some next ->
            tracking_consistent next) as Hstep.
  { intros this e next (Hc & Hdot & Hact) H.
    unfold tracking_consistent; cbv zeta.
    destruct e; cbn [RoboticArmApp.handle] in H.
    - destruct (RoboticArmApp.onHandResults results now0 this) as [r|] eqn:E;
        [|discriminate].
      injection H as <-.
      destruct (onHandResults_keeps _ _ _ _ E)
        as (_ & -> & _ & -> & _ & _ & -> & _ & Hd').
      repeat split; auto. intros Hr. destruct (Hd' Hr); auto.
    - destruct (updateSimulation_keeps _ _ H)
        as (_ & -> & _ & _ & -> & _ & _ & _ & _ & _ & -> & ->).
      auto.
    - injection H as <-; cbn; auto.
    - injection H as <-; cbn; auto.
    - injection H as <-; cbn; auto.
    - injection H as <-. unfold RoboticArmApp.toggleCamera.
      destruct (RoboticArmApp.isTracking (RoboticArmApp.state this)) eqn:Et;
        cbn [negb].
      + cbn. repeat split; auto; discriminate.
      + unfold HandTracker.start.
        destruct (HandTracker.isActive (RoboticArmApp.handTracker this))
          eqn:Ea.
        * cbn. rewrite Ea. auto.
        * destruct cameraOk; cbn; rewrite ?Et; repeat split; auto. }
  apply (run_invariant tracking_consistent (fun _ => True))
    with (events := events) (this := this0); auto.
  - intros a e b _. apply Hstep.
  - apply Forall_forall; auto.
  - apply (Hstep (RoboticArmApp.initial now page)
             RoboticArmApp.AnimationFrame); [|exact H0].
    unfold tracking_consistent; cbn. rewrite Hb, Hd.
    repeat split; auto; discriminate.
Qed.

(** Two clicks around a frame, the camera failing to stop. *)
Lemma session_tracking_consistent_witness :
  exists this0 this',
    RoboticArmApp.constructor 0 page_as_loaded = Some this0 /\
    RoboticArmApp.run this0
      [RoboticArmApp.CameraClick true;
       RoboticArmApp.AnimationFrame;
       RoboticArmApp.CameraClick false] = Some this' /\
    tracking_consistent this'.
Proof.
  destruct (handle_returns (RoboticArmApp.initial 0 page_as_loaded)
              RoboticArmApp.AnimationFrame app_solver_constructed)
    as (this0 & H0).
  destruct (run_returns
              [RoboticArmApp.CameraClick true;
               RoboticArmApp.AnimationFrame;
               RoboticArmApp.CameraClick false] this0) as (this' & Hrun).
  { rewrite (handle_keeps_solver _ _ _ H0). apply app_solver_constructed. }
  exists this0, this'. split; [exact H0|]. split; [exact Hrun|].
  apply (session_tracking_consistent 0 page_as_loaded
           [RoboticArmApp.CameraClick true;
            RoboticArmApp.AnimationFrame;
            RoboticArmApp.CameraClick false] this0 this');
    [split; reflexivity | exact H0 | exact Hrun].
Defined.

(* ================================================================= *)
(** ** [RoboticArmApp.toggleCamera] after a camera that did not stop *)

(** X24.  When the application is tracking and the camera fails to
    stop, a click still takes the application to idle, with the status
    [System Idle], while the hand tracker stays active; the next click
    then takes it back to tracking, with the status [Camera Active],
    without starting a camera: the hand tracker is left as it was, and
    the outcome is the same whether or not a camera could start. *)
Theorem click_after_failed_stop :
  forall (this : RoboticArmApp.t) (cameraOk : bool),
    RoboticArmApp.isTracking (RoboticArmApp.state this) = true ->
    HandTracker.isActive (RoboticArmApp.handTracker this) = true ->
    let idle := RoboticArmApp.toggleCamera false this in
    let again := RoboticArmApp.toggleCamera cameraOk idle in
    RoboticArmApp.isTracking (RoboticArmApp.state idle) = false /\
    RoboticArmApp.statusText (RoboticArmApp.ui idle)
      = RoboticArmApp.Literal RoboticArmApp.SYSTEM_IDLE_text /\
    RoboticArmApp.handTracker idle = RoboticArmApp.handTracker this /\
    RoboticArmApp.isTracking (RoboticArmApp.state again) = true /\
    RoboticArmApp.statusText (RoboticArmApp.ui again)
      = RoboticArmApp.Literal RoboticArmApp.CAMERA_ACTIVE_text /\
    RoboticArmApp.handTracker again = RoboticArmApp.handTracker this /\
    again = RoboticArmApp.toggleCamera (negb cameraOk) idle.
Proof.
  intros this cameraOk Ht Ha idle again.
  unfold again, idle, RoboticArmApp.toggleCamera, HandTracker.stop,
    HandTracker.start.
  rewrite Ht, Ha. cbn. rewrite Ha. repeat split; reflexivity.
Qed.

(** The fresh application after a first click with a working camera. *)
Lemma click_after_failed_stop_witness :
  RoboticArmApp.isTracking
    (RoboticArmApp.state
       (RoboticArmApp.toggleCamera false
          (RoboticArmApp.toggleCamera false
             (RoboticArmApp.toggleCamera true
                (RoboticArmApp.initial 0 page_as_loaded))))) = true.
Proof.
  apply (click_after_failed_stop
           (RoboticArmApp.toggleCamera true
              (RoboticArmApp.initial 0 page_as_loaded)) false);
    reflexivity.
Defined.

(* ================================================================= *)
(** ** The two ends of the workspace, any geometry *)

Lemma cos_lower a :
  - PI / 2 <= a -> a <= PI / 2 ->
  1 - a ^ 2 / 2 + a ^ 4 / 24 - a ^ 6 / 720 <= cos a.
Proof.
  intros H1 H2. destruct (COS a H1 H2) as [H _].
  eapply Rle_trans; [|exact H].
  unfold cos_lb, cos_approx, cos_term.
  change (2 * 1 + 1)%nat with 3%nat.
  cbn [sum_f_R0 Nat.mul Nat.add].
  rewrite !INR_IZR_INZ.
  change (Z.of_nat (Factorial.fact 0)) with 1%Z.
  change (Z.of_nat (Factorial.fact 2)) with 2%Z.
  change (Z.of_nat (Factorial.fact 4)) with 24%Z.
  change (Z.of_nat (Factorial.fact 6)) with 720%Z.
  apply Req_le. field.
Qed.

(** [acos c] is above [t] as soon as [c] is below a lower bound of
    [cos t]. *)
Lemma acos_large c t :
  0 <= t -> t <= 1 -> -1 <= c <= 1 ->
  c < 1 - t ^ 2 / 2 + t ^ 4 / 24 - t ^ 6 / 720 ->
  t < acos c.
Proof.
  intros Ht0 Ht1 Hc Hlt.
  pose proof PI2_1 as Hpi. pose proof (acos_bound c) as [Hb0 Hb1].
  destruct (Rlt_dec t (acos c)) as [|Hn]; [assumption|exfalso].
  assert (cos t <= cos (acos c)) as Hd by (apply cos_decr_1; lra).
  rewrite cos_acos in Hd by assumption.
  pose proof (cos_lower t ltac:(lra) ltac:(lra)). lra.
Qed.

(** A quotient is below a bound when its numerator is below the bound
    times its positive denominator. *)
Lemma quotient_le a b k : 0 < b -> a <= k * b -> a / b <= k.
Proof.
  intros Hb H. apply Rmult_le_reg_r with b; [exact Hb|].
  replace (a / b * b) with a by (field; lra). exact H.
Qed.

(** The instances the constructor builds from two non-zero lengths. *)
Lemma constructor_lengths L U :
  L <> 0 -> U <> 0 ->
  IKSolver.constructor (Some (Config.mk None (Some L) (Some U)))
  = IKSolver.mk 4 L U (L + U) (Rabs (L - U)).
Proof.
  intros HL HU. unfold IKSolver.constructor, Math.abs; cbn -[JS.or].
  rewrite or_undefined, !or_nonzero by assumption. reflexivity.
Qed.

Lemma thin_arm_fields : thin_arm = IKSolver.mk 4 4000 1 4001 3999.
Proof.
  unfold thin_arm. rewrite constructor_lengths by lra.
  f_equal; [lra|].
  replace (4000 - 1) with 3999 by lra. apply Rabs_right; lra.
Qed.

Lemma lopsided_arm_fields : lopsided_arm = IKSolver.mk 4 100 1 101 99.
Proof.
  unfold lopsided_arm. rewrite constructor_lengths by lra.
  f_equal; [lra|].
  replace (100 - 1) with 99 by lra. apply Rabs_right; lra.
Qed.

Lemma tiny_arm_fields : tiny_arm = IKSolver.mk 4 0.001 0.001 0.002 0.
Proof.
  unfold tiny_arm. rewrite constructor_lengths by lra.
  f_equal; [lra|].
  replace (0.001 - 0.001) with 0 by lra. apply Rabs_R0.
Qed.

(** Below the lower threshold the reach is the lower threshold,
    whatever the upper one. *)
Lemma reach_near this target :
  planar_distance this target <= reach_lo this ->
  reach this target = reach_lo this.
Proof.
  intros Hd. unfold reach, clamp. apply Rmax_left.
  eapply Rle_trans; [apply Rmin_r | exact Hd].
Qed.

(** Above the upper threshold the reach is the larger of the two
    thresholds. *)
Lemma reach_far this target :
  reach_hi this <= planar_distance this target ->
  reach this target = Rmax (reach_lo this) (reach_hi this).
Proof.
  intros Hd. unfold reach, clamp. rewrite Rmin_left by exact Hd.
  reflexivity.
Qed.

(** The elbow quotient at the two thresholds. *)
Lemma elbow_quotient_far L U :
  0 < L -> 0 < U ->
  elbow_quotient L U ((L + U) * 0.999)
  = - (1 - 0.001999 * ((L + U) * (L + U)) / (2 * L * U)).
Proof.
  intros HL HU. unfold elbow_quotient.
  replace 0.999 with (999 / 1000) by lra.
  replace 0.001999 with (1999 / 1000000) by lra.
  field. lra.
Qed.

Lemma elbow_quotient_near L U :
  0 < L -> 0 < U ->
  elbow_quotient L U (Rabs (L - U) + 0.01)
  = 1 - (0.02 * Rabs (L - U) + 0.0001) / (2 * L * U).
Proof.
  intros HL HU. unfold elbow_quotient, Rabs.
  replace 0.01 with (1 / 100) by lra.
  replace 0.02 with (2 / 100) by lra.
  replace 0.0001 with (1 / 10000) by lra.
  destruct (Rcase_abs (L - U)); field; lra.
Qed.

(** C4 (as amended).  For every geometry with positive link lengths
    [L], [U] and [minReach + 0.01 <= maxReach * 0.999], every target
    farther than [maxReach * 0.999] from the shoulder pivot (the
    targets at [maxReach] among them) solves to
    [reachDistance = maxReach * 0.999], [isAtLimit = true] and the
    elbow angle [acos (1 - 0.001999 (L + U)² / (2 L U))], which is
    positive, and below [0.1] rad when neither link is more than twice
    the other.  On the default arm, the target [(0, 4, 22)] is at
    distance [22 = maxReach] and solves to [reachDistance = 21.978],
    [isAtLimit = true] and an elbow angle between [0] and [0.09]
    rad. *)
Theorem full_extension_boundary :
  (forall (config : option Config.t) (target : Position),
     let this := IKSolver.constructor config in
     let L := IKSolver.lowerArmLength this in
     let U := IKSolver.upperArmLength this in
     0 < L -> 0 < U ->
     IKSolver.minReach this + 0.01 <= IKSolver.maxReach this * 0.999 ->
     IKSolver.maxReach this * 0.999 < planar_distance this target ->
     exists res,
       IKSolver.solve this target = Some res /\
       reachDistance res = IKSolver.maxReach this * 0.999 /\
       isAtLimit res = true /\
       elbow res = acos (1 - 0.001999 * ((L + U) * (L + U)) / (2 * L * U)) /\
       0 < elbow res /\
       (L <= 2 * U -> U <= 2 * L -> elbow res < 0.1)) /\
  (IKSolver.maxReach default_arm = 22 /\
   planar_distance default_arm (mkPosition 0 4 22) = 22 /\
   exists res,
     IKSolver.solve default_arm (mkPosition 0 4 22) = Some res /\
     reachDistance res = 21.978 /\
     isAtLimit res = true /\
     0 < elbow res < 0.09).
Proof.
  split.
  - intros config target this L U HL HU Hgeo Hd.
    pose proof (constructor_constructed config) as Hthis. fold this in Hthis.
    destruct Hthis as (HL0 & HU0 & Emax & Emin) eqn:Ethis. clear Ethis.
    fold L U in Emax, Emin.
    assert (reach this target = reach_hi this) as Er.
    { rewrite reach_far by (unfold reach_hi; lra).
      apply Rmax_right. unfold reach_lo, reach_hi. exact Hgeo. }
    assert (reach_hi this = (L + U) * 0.999) as Ehi
      by (unfold reach_hi; rewrite Emax; reflexivity).
    assert (-1 < elbow_quotient L U ((L + U) * 0.999) < 1) as Hq.
    { apply elbow_quotient_strict; try assumption; [|lra].
      rewrite <- Emin, <- Emax. lra. }
    eexists. split; [apply solve_constructed; exact Hthis|].
    cbn [reachDistance isAtLimit elbow angles]. rewrite Er.
    split; [reflexivity|].
    split; [apply gt_true; unfold reach_hi; exact Hd|].
    unfold elbow_cosine. fold L U. rewrite Ehi.
    rewrite clamp_inside by lra.
    rewrite elbow_quotient_far in Hq |- * by assumption.
    set (c := 1 - 0.001999 * ((L + U) * (L + U)) / (2 * L * U)) in *.
    rewrite acos_opp.
    replace (PI - (PI - acos c)) with (acos c) by ring.
    split; [reflexivity|].
    split; [apply acos_bound_lt; lra|].
    intros H1 H2. apply acos_small; [lra | lra | lra |].
    assert (0 < 2 * L * U) as Hk by nra.
    assert ((L + U) * (L + U) / (2 * L * U) <= 2.25) as Hr
      by (apply quotient_le; [exact Hk | nra]).
    unfold c. unfold Rdiv in Hr |- *. rewrite Rmult_assoc. lra.
  - destruct default_arm_full_extension as (Emax & Ehi & Ed & Hfar).
    split; [exact Emax|]. split; [exact Ed|].
    apply Hfar. rewrite Ehi, Ed. lra.
Qed.

(** The scenario of the specification, [solve({x: 0, y: 4, z: 22})] on
    [new IKSolver()], through the general statement. *)
Lemma full_extension_boundary_witness :
  exists res,
    IKSolver.solve (IKSolver.constructor None) (mkPosition 0 4 22) = Some res /\
    reachDistance res = IKSolver.maxReach (IKSolver.constructor None) * 0.999 /\
    isAtLimit res = true /\
    0 < elbow res < 0.1.
Proof.
  destruct full_extension_boundary as [Hgeneral _].
  destruct (Hgeneral None (mkPosition 0 4 22))
    as (res & Hs & Hr & Hl & _ & H0 & Hsmall); fold default_arm.
  - default_arm_arith.
  - default_arm_arith.
  - default_arm_arith.
  - rewrite default_arm_distance_ahead by lra. default_arm_arith.
  - exists res. split; [exact Hs|]. split; [exact Hr|].
    split; [exact Hl|]. split; [exact H0|].
    fold default_arm in Hsmall. apply Hsmall; default_arm_arith.
Defined.

(** C4 as stated fails on other geometries.  With link lengths [4000]
    and [1] the workspace is thinner than the two margins
    ([minReach + 0.01 = 3999.01] exceeds [maxReach * 0.999 = 3996.999]):
    the target [(0, 4, 4001)], at distance [maxReach], solves to
    [reachDistance = 3999.01] and an elbow angle above [2.8] rad, a
    folded arm.  With link lengths [100] and [1] the target
    [(0, 4, 101)], at distance [maxReach], solves to
    [reachDistance = maxReach * 0.999] and [isAtLimit = true], and to
    an elbow angle above [0.4] rad. *)
Lemma full_extension_fails_on_lopsided_arms :
  (planar_distance thin_arm (mkPosition 0 4 4001)
     = IKSolver.maxReach thin_arm /\
   exists res,
     IKSolver.solve thin_arm (mkPosition 0 4 4001) = Some res /\
     reachDistance res = 3999.01 /\
     reachDistance res <> IKSolver.maxReach thin_arm * 0.999 /\
     2.8 < elbow res) /\
  (planar_distance lopsided_arm (mkPosition 0 4 101)
     = IKSolver.maxReach lopsided_arm /\
   exists res,
     IKSolver.solve lopsided_arm (mkPosition 0 4 101) = Some res /\
     reachDistance res = IKSolver.maxReach lopsided_arm * 0.999 /\
     isAtLimit res = true /\
     0.4 < elbow res).
Proof.
  pose proof PI2_3_2 as Hpi.
  split.
  - assert (planar_distance thin_arm (mkPosition 0 4 4001) = 4001) as Ed
      by (apply planar_distance_ahead;
          [lra | rewrite thin_arm_fields; reflexivity]).
    assert (reach thin_arm (mkPosition 0 4 4001) = 3999.01) as Er.
    { rewrite reach_far
        by (rewrite Ed; unfold reach_hi; rewrite thin_arm_fields; cbn; lra).
      unfold reach_lo, reach_hi. rewrite thin_arm_fields.
      cbn [IKSolver.minReach IKSolver.maxReach].
      rewrite Rmax_left by lra. lra. }
    split; [rewrite Ed, thin_arm_fields; reflexivity|].
    eexists. split;
      [apply solve_constructed; apply constructor_constructed|].
    cbn [reachDistance elbow angles]. rewrite Er.
    split; [reflexivity|].
    split; [rewrite thin_arm_fields; cbn; lra|].
    unfold elbow_cosine. rewrite thin_arm_fields.
    cbn [IKSolver.lowerArmLength IKSolver.upperArmLength].
    replace (elbow_quotient 4000 1 3999.01) with (7920.0199 / 8000)
      by (unfold elbow_quotient; lra).
    rewrite clamp_inside by lra.
    assert (acos (7920.0199 / 8000) < 0.15) as Ha
      by (apply acos_small; lra).
    lra.
  - assert (planar_distance lopsided_arm (mkPosition 0 4 101) = 101) as Ed
      by (apply planar_distance_ahead;
          [lra | rewrite lopsided_arm_fields; reflexivity]).
    assert (reach lopsided_arm (mkPosition 0 4 101) = 100.899) as Er.
    { rewrite reach_far
        by (rewrite Ed; unfold reach_hi; rewrite lopsided_arm_fields;
            cbn; lra).
      unfold reach_lo, reach_hi. rewrite lopsided_arm_fields.
      cbn [IKSolver.minReach IKSolver.maxReach].
      rewrite Rmax_right by lra. lra. }
    split; [rewrite Ed, lopsided_arm_fields; reflexivity|].
    eexists. split;
      [apply solve_constructed; apply constructor_constructed|].
    cbn [reachDistance isAtLimit elbow angles]. rewrite Er, Ed.
    split; [rewrite lopsided_arm_fields; cbn; lra|].
    split; [apply gt_true; unfold reach_hi; rewrite lopsided_arm_fields;
            cbn; lra|].
    unfold elbow_cosine. rewrite lopsided_arm_fields.
    cbn [IKSolver.lowerArmLength IKSolver.upperArmLength].
    replace (elbow_quotient 100 1 100.899) with (- (179.608201 / 200))
      by (unfold elbow_quotient; lra).
    rewrite clamp_inside by lra.
    rewrite acos_opp.
    assert (0.4 < acos (179.608201 / 200)) as Ha
      by (apply acos_large; lra).
    lra.
Qed.

(** C5 (as amended).  For every geometry with positive link lengths
    [L], [U] and [minReach + 0.01 <= maxReach], every target at most
    [minReach + 0.01] from the shoulder pivot (the targets at
    [minReach] among them) solves to [reachDistance = minReach + 0.01]
    and the elbow angle
    [PI - acos (1 - (0.02 minReach + 0.0001) / (2 L U))], which is
    below [PI], and above [PI - 0.1] when
    [0.02 minReach + 0.0001 <= 0.0098 L U].  On the default arm, the
    target [(0, 6, 0)] has [verticalDistance = 2],
    [horizontalDistance = 0] and [planarDistance = 2 = minReach], and
    solves to [base = 0], [reachDistance = 2.01] and an elbow angle
    between [PI - 0.019] and [PI]. *)
Theorem full_fold_boundary :
  (forall (config : option Config.t) (target : Position),
     let this := IKSolver.constructor config in
     let L := IKSolver.lowerArmLength this in
     let U := IKSolver.upperArmLength this in
     0 < L -> 0 < U ->
     IKSolver.minReach this + 0.01 <= IKSolver.maxReach this ->
     planar_distance this target <= IKSolver.minReach this + 0.01 ->
     exists res,
       IKSolver.solve this target = Some res /\
       reachDistance res = IKSolver.minReach this + 0.01 /\
       elbow res =
         PI - acos (1 - (0.02 * IKSolver.minReach this + 0.0001)
                        / (2 * L * U)) /\
       0 <= elbow res < PI /\
       (0.02 * IKSolver.minReach this + 0.0001 <= 0.0098 * (L * U) ->
        PI - 0.1 < elbow res)) /\
  (IKSolver.minReach default_arm = 2 /\
   vertical_distance default_arm (mkPosition 0 6 0) = 2 /\
   horizontal_distance (mkPosition 0 6 0) = 0 /\
   planar_distance default_arm (mkPosition 0 6 0) = 2 /\
   exists res,
     IKSolver.solve default_arm (mkPosition 0 6 0) = Some res /\
     base res = 0 /\
     reachDistance res = 2.01 /\
     PI - 0.019 < elbow res < PI).
Proof.
  split.
  - intros config target this L U HL HU Hgeo Hd.
    pose proof (constructor_constructed config) as Hthis. fold this in Hthis.
    destruct Hthis as (HL0 & HU0 & Emax & Emin) eqn:Ethis. clear Ethis.
    fold L U in Emax, Emin.
    assert (reach this target = reach_lo this) as Er
      by (apply reach_near; exact Hd).
    assert (reach_lo this = Rabs (L - U) + 0.01) as Elo
      by (unfold reach_lo; rewrite Emin; reflexivity).
    pose proof (Rabs_pos (L - U)) as Hm.
    assert (0 < 2 * L * U) as Hk by nra.
    set (e := (0.02 * IKSolver.minReach this + 0.0001) / (2 * L * U)).
    assert (elbow_quotient L U (Rabs (L - U) + 0.01) = 1 - e) as Eq
      by (unfold e; rewrite Emin; apply elbow_quotient_near; assumption).
    assert (0 < e) as He0.
    { unfold e. rewrite Emin. apply Rdiv_lt_0_compat; lra. }
    assert (e <= 2) as He2.
    { unfold e. rewrite Emin. apply quotient_le; [exact Hk|].
      rewrite Emin, Emax in Hgeo.
      assert (Rabs (L - U) * Rabs (L - U) = (L - U) * (L - U)) as Hsq
        by (unfold Rabs; destruct (Rcase_abs (L - U)); ring).
      nra. }
    eexists. split; [apply solve_constructed; exact Hthis|].
    cbn [reachDistance elbow angles]. rewrite Er.
    split; [reflexivity|].
    unfold elbow_cosine. fold L U. rewrite Elo, Eq.
    rewrite clamp_inside by lra.
    pose proof (acos_bound (1 - e)) as [Hb0 Hb1].
    split; [reflexivity|].
    split; [split; [lra|]|].
    + assert (acos (1 - e) <> 0) as Hne.
      { intros H0. pose proof (cos_acos (1 - e) ltac:(lra)) as Hc.
        rewrite H0, cos_0 in Hc. lra. }
      lra.
    + intros Hsmall.
      assert (e <= 0.0049) as He.
      { unfold e. apply quotient_le; [exact Hk | lra]. }
      assert (acos (1 - e) < 0.1) as Ha by (apply acos_small; lra).
      lra.
  - destruct default_arm_full_fold as (Emin & Ev & Eh & Ed & Hres & _).
    repeat (split; [assumption|]). exact Hres.
Qed.

(** The scenario of the specification, [solve({x: 0, y: 6, z: 0})] on
    [new IKSolver()], through the general statement. *)
Lemma full_fold_boundary_witness :
  exists res,
    IKSolver.solve (IKSolver.constructor None) (mkPosition 0 6 0) = Some res /\
    reachDistance res = IKSolver.minReach (IKSolver.constructor None) + 0.01 /\
    PI - 0.1 < elbow res < PI.
Proof.
  destruct full_fold_boundary as [Hgeneral _].
  destruct (Hgeneral None (mkPosition 0 6 0))
    as (res & Hs & Hr & _ & [_ Hpi] & Hsmall); fold default_arm.
  - default_arm_arith.
  - default_arm_arith.
  - default_arm_arith.
  - rewrite planar_distance_axis. rewrite default_arm_fields; cbn.
    replace (6 - 4) with 2 by lra. rewrite Rabs_right; lra.
  - exists res. split; [exact Hs|]. split; [exact Hr|].
    split; [|exact Hpi].
    fold default_arm in Hsmall. apply Hsmall. default_arm_arith.
Defined.

(** C5 as stated fails on a small arm.  With both link lengths [0.001]
    ([minReach = 0], [maxReach = 0.002]) the target [(0, 4, 0)], the
    shoulder pivot itself, is at distance [minReach]; the clamp lifts
    the reach to [0.01], beyond [maxReach], the cosine is clamped to
    [-1], and the elbow angle is [0]: the arm is solved straight, not
    folded. *)
Lemma full_fold_fails_on_tiny_arm :
  planar_distance tiny_arm (mkPosition 0 4 0) = IKSolver.minReach tiny_arm /\
  exists res,
    IKSolver.solve tiny_arm (mkPosition 0 4 0) = Some res /\
    reachDistance res = 0.01 /\
    IKSolver.maxReach tiny_arm < reachDistance res /\
    elbow res = 0.
Proof.
  assert (planar_distance tiny_arm (mkPosition 0 4 0) = 0) as Ed.
  { rewrite planar_distance_axis, tiny_arm_fields. cbn.
    replace (4 - 4) with 0 by lra. apply Rabs_R0. }
  assert (reach tiny_arm (mkPosition 0 4 0) = 0.01) as Er.
  { rewrite reach_near
      by (rewrite Ed; unfold reach_lo; rewrite tiny_arm_fields; cbn; lra).
    unfold reach_lo. rewrite tiny_arm_fields. cbn. lra. }
  split; [rewrite Ed, tiny_arm_fields; reflexivity|].
  eexists. split;
    [apply solve_constructed; apply constructor_constructed|].
  cbn [reachDistance elbow angles]. rewrite Er.
  split; [reflexivity|].
  split; [rewrite tiny_arm_fields; cbn; lra|].
  unfold elbow_cosine. rewrite tiny_arm_fields.
  cbn [IKSolver.lowerArmLength IKSolver.upperArmLength].
  replace (elbow_quotient 0.001 0.001 0.01) with (-49)
    by (unfold elbow_quotient; lra).
  rewrite clamp_below by lra.
  replace (-1) with (- (1)) by lra.
  rewrite acos_opp, acos_1. ring.
Qed.
